(** * AcuteEdges_SpringMesh: edge graph, acute-angle analysis and spring evolver

    A shallow embedding of [VoronoiMesh] (edge extraction and connectivity),
    [EdgeAnalyzer] (acute-angle analysis) and [MeshEvolver] (spring-damper
    integration), with the properties of the specification stated and
    proved over it.

    Conventions of the embedding.
    - A JavaScript number is idealised as a real number ([R]): rounding
      error, infinities and NaN of IEEE doubles are not modelled.
    - A JavaScript object that is mutated through more than one reference
      (the [{x, y}] endpoint objects of edges) lives in an explicit [heap];
      an edge holds references ([vref]) to its endpoints.
    - A JavaScript [Map] is an insertion-ordered association list.
    - A string key built with [toFixed(6)] or [Math.round] is represented
      by the numbers that are printed into it (sign and scaled integer),
      which determine the string and are determined by it. *)

From Stdlib Require Import Reals Lra Lia ZArith List Bool Arith.
Import ListNotations.

Open Scope R_scope.

(** ** Numbers *)

Definition Rltb (a b : R) : bool := if Rlt_dec a b then true else false.
Definition Reqb (a b : R) : bool := if Req_dec_T a b then true else false.

(** [Math.round]: nearest integer, halves towards plus infinity. *)
Definition Math_round (a : R) : Z := Zfloor (a + / 2).

(** [n.toFixed(6)]: a minus sign when [n < 0], then the integer closest to
    [|n| * 10^6] (the larger one on a tie), printed with six decimals. *)
Record fixed6 : Type := mkFixed { negative : bool; digits : Z }.

Definition toFixed6 (a : R) : fixed6 :=
  if Rlt_dec a 0
  then mkFixed true (Zfloor (- a * 1000000 + / 2))
  else mkFixed false (Zfloor (a * 1000000 + / 2)).

Definition fixed6_eq_dec : forall a b : fixed6, {a = b} + {a <> b}.
Proof. decide equality; [apply Z.eq_dec | apply bool_dec]. Defined.

(** ** JavaScript [Map] as an insertion-ordered association list *)

Section JsMap.
Context {K V : Type}.
Variable K_eq_dec : forall a b : K, {a = b} + {a <> b}.

Fixpoint map_get (k : K) (m : list (K * V)) : option V :=
  match m with
  | [] => None
  | (k', v) :: m' => if K_eq_dec k k' then Some v else map_get k m'
  end.

Definition map_has (k : K) (m : list (K * V)) : bool :=
  match map_get k m with Some _ => true | None => false end.

(** [Map.set]: an existing key keeps its place, a new key goes last. *)
Fixpoint map_set (k : K) (v : V) (m : list (K * V)) : list (K * V) :=
  match m with
  | [] => [(k, v)]
  | (k', v') :: m' =>
      if K_eq_dec k k' then (k', v) :: m' else (k', v') :: map_set k v m'
  end.

End JsMap.

(** ** The heap of endpoint objects *)

Record vertex : Type := mkVertex { x : R; y : R }.

Definition vref := nat.

(** [store] gives the current fields of every object, [next] is the first
    reference not yet allocated. *)
Record heap : Type := mkHeap { store : vref -> vertex; next : vref }.

Definition read (h : heap) (r : vref) : vertex := store h r.

Definition write (h : heap) (r : vref) (v : vertex) : heap :=
  mkHeap (fun r' => if Nat.eq_dec r' r then v else store h r') (next h).

Definition alloc (h : heap) (v : vertex) : heap * vref :=
  (mkHeap (fun r' => if Nat.eq_dec r' (next h) then v else store h r')
          (S (next h)),
   next h).

Definition origin : vertex := mkVertex 0 0.

(** A heap holding exactly the listed objects, at references 0, 1, ... *)
Definition heap_of (l : list vertex) : heap :=
  mkHeap (fun r => nth r l origin) (List.length l).

(** ** Edges, cells and edge values *)

Record edge : Type := mkEdge {
  id : nat;
  start : vref;
  end_ : vref;
  length : R;
  connectedCells : list nat;
  connectedEdges : list nat;
  acuteAngleCount : nat;
  expandValue : R;
  originalLength : option R;   (* absent until the evolver sets it *)
  targetLength : option R      (* absent until the evolver sets it *)
}.

Definition point : Type := (R * R)%type.

Record cell : Type := mkCell {
  cell_id : nat;
  polygon : option (list point);
  center : point
}.

Inductive valueType : Type := expand | shrink.

Record edgeValue : Type := mkEdgeValue {
  edgeId : nat;
  value : R;
  type : valueType
}.

(** Field updates of an edge object. *)
Definition set_length (l : R) (e : edge) : edge :=
  mkEdge (id e) (start e) (end_ e) l (connectedCells e) (connectedEdges e)
         (acuteAngleCount e) (expandValue e) (originalLength e) (targetLength e).
Definition set_connectedCells (l : list nat) (e : edge) : edge :=
  mkEdge (id e) (start e) (end_ e) (length e) l (connectedEdges e)
         (acuteAngleCount e) (expandValue e) (originalLength e) (targetLength e).
Definition set_connectedEdges (l : list nat) (e : edge) : edge :=
  mkEdge (id e) (start e) (end_ e) (length e) (connectedCells e) l
         (acuteAngleCount e) (expandValue e) (originalLength e) (targetLength e).
Definition set_acuteAngleCount (n : nat) (e : edge) : edge :=
  mkEdge (id e) (start e) (end_ e) (length e) (connectedCells e)
         (connectedEdges e) n (expandValue e) (originalLength e) (targetLength e).
Definition set_expandValue (v : R) (e : edge) : edge :=
  mkEdge (id e) (start e) (end_ e) (length e) (connectedCells e)
         (connectedEdges e) (acuteAngleCount e) v (originalLength e) (targetLength e).
Definition set_originalLength (o : option R) (e : edge) : edge :=
  mkEdge (id e) (start e) (end_ e) (length e) (connectedCells e)
         (connectedEdges e) (acuteAngleCount e) (expandValue e) o (targetLength e).
Definition set_targetLength (t : option R) (e : edge) : edge :=
  mkEdge (id e) (start e) (end_ e) (length e) (connectedCells e)
         (connectedEdges e) (acuteAngleCount e) (expandValue e) (originalLength e) t.

(** [a || b] on a possibly absent number: absent and [0] are falsy. *)
Definition falsy (o : option R) : bool :=
  match o with Some a => Reqb a 0 | None => true end.
Definition or_else (o : option R) (b : R) : R :=
  match o with Some a => if Reqb a 0 then b else a | None => b end.

(** ** Run-time failures

    Reading a field of [undefined] throws a [TypeError].  Division is taken
    to be undefined at denominator zero, so that a division the code does
    not guard shows as [DivisionByZero]. *)

Inductive error : Type := TypeError | DivisionByZero.

Inductive result (A : Type) : Type :=
| Ok (a : A)
| Err (e : error).
Arguments Ok {A} a.
Arguments Err {A} e.

Definition bind {A B : Type} (r : result A) (f : A -> result B) : result B :=
  match r with Ok a => f a | Err e => Err e end.

Notation "x <- r ;; k" := (bind r (fun x => k))
  (at level 61, r at next level, right associativity).

Definition divide (a b : R) : result R :=
  if Req_dec_T b 0 then Err DivisionByZero else Ok (a / b).

Definition defined {A : Type} (o : option A) : result A :=
  match o with Some a => Ok a | None => Err TypeError end.

Fixpoint foldM {A B : Type} (f : A -> B -> result A) (l : list B) (a : A)
  : result A :=
  match l with
  | [] => Ok a
  | b :: l' => a' <- f a b ;; foldM f l' a'
  end.

Fixpoint mapM {A B : Type} (f : A -> result B) (l : list A) : result (list B) :=
  match l with
  | [] => Ok []
  | a :: l' => b <- f a ;; bs <- mapM f l' ;; Ok (b :: bs)
  end.

(** ** VoronoiMesh: edge extraction and connectivity *)

Module VoronoiMesh.

(** The string [createEdgeKey] returns, as its four printed numbers. *)
Definition edgeKey : Type := ((fixed6 * fixed6) * (fixed6 * fixed6))%type.

Definition edgeKey_eq_dec : forall a b : edgeKey, {a = b} + {a <> b}.
Proof. repeat decide equality; apply fixed6_eq_dec. Defined.

(** [start[0] < end[0] || (start[0] === end[0] && start[1] < end[1])] *)
Definition startFirst (start end_ : point) : bool :=
  Rltb (fst start) (fst end_)
  || (Reqb (fst start) (fst end_) && Rltb (snd start) (snd end_)).

Definition createEdgeKey (start end_ : point) : edgeKey :=
  let p1 := if startFirst start end_ then start else end_ in
  let p2 := if startFirst start end_ then end_ else start in
  ((toFixed6 (fst p1), toFixed6 (snd p1)),
   (toFixed6 (fst p2), toFixed6 (snd p2))).

(** What [extractEdgesFromCells] works on: [this.edges], the local
    [edgeMap] (an edge object is named by its index in [this.edges]) and
    the heap its endpoint objects are allocated in. *)
Record extraction : Type := mkExtraction {
  edges : list edge;
  edgeMap : list (edgeKey * nat);
  objects : heap
}.

Fixpoint update_nth {A : Type} (n : nat) (f : A -> A) (l : list A) : list A :=
  match l, n with
  | [], _ => []
  | a :: l', O => f a :: l'
  | a :: l', S n' => a :: update_nth n' f l'
  end.

(** The body of the inner loop, for one consecutive pair of a polygon. *)
Definition addSegment (cellIndex : nat) (st : extraction)
           (seg : point * point) : extraction :=
  let (start, end_) := seg in
  let key := createEdgeKey start end_ in
  match map_get edgeKey_eq_dec key (edgeMap st) with
  | None =>
      let (h1, rs) := alloc (objects st) (mkVertex (fst start) (snd start)) in
      let (h2, re) := alloc h1 (mkVertex (fst end_) (snd end_)) in
      let edge :=
        mkEdge (List.length (edges st)) rs re
               (sqrt ((fst end_ - fst start) ^ 2 + (snd end_ - snd start) ^ 2))
               [cellIndex] [] 0%nat 0 None None in
      mkExtraction (edges st ++ [edge])
                   (map_set edgeKey_eq_dec key (List.length (edges st)) (edgeMap st))
                   h2
  | Some existingEdge =>
      mkExtraction
        (update_nth existingEdge
           (fun e => set_connectedCells (connectedCells e ++ [cellIndex]) e)
           (edges st))
        (edgeMap st) (objects st)
  end.

(** The pairs [(polygon[i], polygon[(i + 1) % polygon.length])]. *)
Definition segments (pts : list point) : list (point * point) :=
  map (fun i => (nth i pts (0, 0),
                 nth ((i + 1) mod List.length pts) pts (0, 0)))
      (seq 0 (List.length pts)).

Definition addCell (st : extraction) (ic : nat * cell) : extraction :=
  let (cellIndex, c) := ic in
  match polygon c with
  | None => st
  | Some pts => fold_left (addSegment cellIndex) (segments pts) st
  end.

Definition indexed {A : Type} (l : list A) : list (nat * A) :=
  combine (seq 0 (List.length l)) l.

Definition extractEdgesFromCells (this_edges : list edge) (h : heap)
           (cells : list cell) : extraction :=
  fold_left addCell (indexed cells) (mkExtraction this_edges [] h).

(** The string [getGridKey] returns, as its two printed integers. *)
Definition gridKey : Type := (Z * Z)%type.

Definition gridKey_eq_dec : forall a b : gridKey, {a = b} + {a <> b}.
Proof. decide equality; apply Z.eq_dec. Defined.

Definition gridSize : R := / 100.

Definition getGridKey (v : vertex) : gridKey :=
  (Math_round (x v / gridSize), Math_round (y v / gridSize)).

Definition gridEntry : Type := (nat * bool)%type.   (* edgeIndex, isStart *)

Definition gridPush (k : gridKey) (en : gridEntry)
           (g : list (gridKey * list gridEntry)) : list (gridKey * list gridEntry) :=
  match map_get gridKey_eq_dec k g with
  | None => map_set gridKey_eq_dec k [en] g
  | Some l => map_set gridKey_eq_dec k (l ++ [en]) g
  end.

Definition buildVertexGrid (h : heap) (es : list edge)
  : list (gridKey * list gridEntry) :=
  fold_left
    (fun g ie =>
       let (i, e) := (ie : nat * edge) in
       let g1 := gridPush (getGridKey (read h (start e))) (i, true) g in
       gridPush (getGridKey (read h (end_ e))) (i, false) g1)
    (indexed es) [].

Definition neighborsAt (k : gridKey) (g : list (gridKey * list gridEntry))
  : list gridEntry :=
  match map_get gridKey_eq_dec k g with Some l => l | None => [] end.

Definition includes (n : nat) (l : list nat) : bool :=
  existsb (Nat.eqb n) l.

Definition connectEdge (h : heap) (g : list (gridKey * list gridEntry))
           (ie : nat * edge) : edge :=
  let (i, e) := ie in
  let startNeighbors := neighborsAt (getGridKey (read h (start e))) g in
  let atStart :=
    fold_left (fun ce (nb : gridEntry) =>
                 if negb (Nat.eqb (fst nb) i) then ce ++ [fst nb] else ce)
              startNeighbors [] in
  let endNeighbors := neighborsAt (getGridKey (read h (end_ e))) g in
  let atEnd :=
    fold_left (fun ce (nb : gridEntry) =>
                 if negb (Nat.eqb (fst nb) i) && negb (includes (fst nb) ce)
                 then ce ++ [fst nb] else ce)
              endNeighbors atStart in
  set_connectedEdges atEnd e.

Definition findConnectedEdges (h : heap) (es : list edge) : list edge :=
  map (connectEdge h (buildVertexGrid h es)) (indexed es).

(** [extractEdgeData]: [this.edges = []], extraction, connectivity. *)
Definition extractEdgeData (h : heap) (cells : list cell) : list edge * heap :=
  let st := extractEdgesFromCells [] h cells in
  (findConnectedEdges (objects st) (edges st), objects st).


(** [this.bounds], with the periodic width and height the constructor
    derives from it. *)
Record bounds : Type := mkBounds { minX : R; maxX : R; minY : R; maxY : R }.

Definition defaultBounds : bounds := mkBounds (-8) 8 (-6) 6.

Definition boundaryWidth (b : bounds) : R := maxX b - minX b.
Definition boundaryHeight (b : bounds) : R := maxY b - minY b.

(** The eight offsets of [createGhostPoints], in the order of the source. *)
Definition ghostOffsets (b : bounds) : list point :=
  [(- boundaryWidth b, - boundaryHeight b);
   (0, - boundaryHeight b);
   (boundaryWidth b, - boundaryHeight b);
   (- boundaryWidth b, 0);
   (boundaryWidth b, 0);
   (- boundaryWidth b, boundaryHeight b);
   (0, boundaryHeight b);
   (boundaryWidth b, boundaryHeight b)].

Definition createGhostPoints (b : bounds) (points : list point) : list point :=
  flat_map (fun p => map (fun d => (fst p + fst d, snd p + snd d))
                         (ghostOffsets b))
           points.

(** [extractCellData]; [cellPolygon] stands for [this.voronoi.cellPolygon],
    which is the library's and may return [null]. *)
Definition extractCellData (cellPolygon : nat -> option (list point))
           (points : list point) : list cell :=
  flat_map (fun ip : nat * point =>
              match cellPolygon (fst ip) with
              | Some cellPoly => [mkCell (fst ip) (Some cellPoly) (snd ip)]
              | None => []
              end)
           (indexed points).

(** [circumcenter]: [d] is not finite exactly when the denominator is 0. *)
Definition circumcenter (ax ay bx by_ cx cy : R) : option vertex :=
  let dx := bx - ax in
  let dy := by_ - ay in
  let ex := cx - ax in
  let ey := cy - ay in
  let bl := dx * dx + dy * dy in
  let cl := ex * ex + ey * ey in
  match divide (/ 2) (dx * ey - dy * ex) with
  | Err _ => None
  | Ok d => Some (mkVertex (ax + (ey * bl - dy * cl) * d)
                           (ay + (dx * cl - ex * bl) * d))
  end.

(** The arrays [createCellMesh] fills before it hands them to the
    renderer, with its running [vertexIndex]. *)
Record cellGeometry : Type := mkCellGeometry {
  cellVertices : list R;
  cellIndices : list nat;
  vertexIndex : nat
}.

(** The fan of one polygon: [for (let i = 1; i < length - 1; i++)]. *)
Definition fanIndices (startVertexIndex len : nat) : list nat :=
  flat_map (fun i => [startVertexIndex; (startVertexIndex + i)%nat;
                      (startVertexIndex + i + 1)%nat])
           (seq 1 (len - 2)).

Definition addCellGeometry (g : cellGeometry) (c : cell) : cellGeometry :=
  match polygon c with
  | None => g
  | Some pts =>
      if Nat.ltb (List.length pts) 3 then g
      else mkCellGeometry
             (cellVertices g ++ flat_map (fun pt => [fst pt; snd pt; 0]) pts)
             (cellIndices g ++ fanIndices (vertexIndex g) (List.length pts))
             (vertexIndex g + List.length pts)
  end.

Definition createCellMesh (cells : list cell) : cellGeometry :=
  fold_left addCellGeometry cells (mkCellGeometry [] [] 0).

(** [getEdgeColor]: blue, green, orange, and red from three on. *)
Record color : Type := mkColor { red : R; green : R; blue : R }.

Definition getEdgeColor (acuteCount : nat) : color :=
  match acuteCount with
  | 0%nat => mkColor 0 0 1
  | 1%nat => mkColor 0 (8 / 10) 0
  | 2%nat => mkColor 1 (6 / 10) 0
  | _ => mkColor 1 0 0
  end.

(** The two arrays of [createEdgeMesh]: positions and colors, six numbers
    an edge in each. *)
Definition edgePositions (h : heap) (e : edge) : list R :=
  [x (read h (start e)); y (read h (start e)); / 100;
   x (read h (end_ e)); y (read h (end_ e)); / 100].

Definition edgeColors (e : edge) : list R :=
  let c := getEdgeColor (acuteAngleCount e) in
  [red c; green c; blue c; red c; green c; blue c].

Definition createEdgeMesh (h : heap) (es : list edge) : list R * list R :=
  (flat_map (edgePositions h) es, flat_map edgeColors es).

(** [attribute.setXYZ(index, a, b, c)] on a buffer of numbers; a write
    outside the buffer is lost, as it is on a typed array. *)
Definition setXYZ (buffer : list R) (index : nat) (a b c : R) : list R :=
  let b0 := update_nth (3 * index) (fun _ => a) buffer in
  let b1 := update_nth (3 * index + 1) (fun _ => b) b0 in
  update_nth (3 * index + 2) (fun _ => c) b1.

(** Body of the loop of [updateEdgeVertices]. *)
Definition updateEdgeVertex (h : heap) (buffers : list R * list R)
           (ie : nat * edge) : list R * list R :=
  let (positions, colors) := buffers in
  let (i, e) := ie in
  let baseIndex := (i * 2)%nat in
  let p1 := setXYZ positions baseIndex
                   (x (read h (start e))) (y (read h (start e))) (/ 100) in
  let p2 := setXYZ p1 (baseIndex + 1)
                   (x (read h (end_ e))) (y (read h (end_ e))) (/ 100) in
  let c := getEdgeColor (acuteAngleCount e) in
  let c1 := setXYZ colors baseIndex (red c) (green c) (blue c) in
  let c2 := setXYZ c1 (baseIndex + 1) (red c) (green c) (blue c) in
  (p2, c2).

Definition updateEdgeVertices (h : heap) (es : list edge)
           (buffers : list R * list R) : list R * list R :=
  fold_left (updateEdgeVertex h) (indexed es) buffers.

(** [updateCellVertices]: the position buffer with the running
    [vertexIndex]; the coordinates are read from [cell.polygon]. *)
Definition updateCellVertex (st : list R * nat) (pt : point) : list R * nat :=
  (setXYZ (fst st) (snd st) (fst pt) (snd pt) 0, S (snd st)).

Definition updateCell (st : list R * nat) (c : cell) : list R * nat :=
  match polygon c with
  | None => st
  | Some pts =>
      if Nat.ltb (List.length pts) 3 then st
      else fold_left updateCellVertex pts st
  end.

Definition updateCellVertices (cells : list cell) (positions : list R) : list R :=
  fst (fold_left updateCell cells (positions, 0%nat)).

End VoronoiMesh.

(** ** EdgeAnalyzer: acute-angle analysis *)

Module EdgeAnalyzer.

Definition tolerance : R := / 1000000.

Definition pointsEqual (p1 p2 : vertex) (tol : R) : bool :=
  Rltb (Rabs (x p1 - x p2)) tol && Rltb (Rabs (y p1 - y p2)) tol.

(** Returns the endpoint object of [edge1] that is shared, or nothing. *)
Definition findSharedVertex (h : heap) (edge1 edge2 : edge) : option vref :=
  if pointsEqual (read h (start edge1)) (read h (start edge2)) tolerance
  then Some (start edge1)
  else if pointsEqual (read h (start edge1)) (read h (end_ edge2)) tolerance
  then Some (start edge1)
  else if pointsEqual (read h (end_ edge1)) (read h (start edge2)) tolerance
  then Some (end_ edge1)
  else if pointsEqual (read h (end_ edge1)) (read h (end_ edge2)) tolerance
  then Some (end_ edge1)
  else None.

Definition getDirectionFromVertex (h : heap) (e : edge) (sharedVertex : vref)
  : vertex :=
  if pointsEqual (read h (start e)) (read h sharedVertex) tolerance
  then mkVertex (x (read h (end_ e)) - x (read h (start e)))
                (y (read h (end_ e)) - y (read h (start e)))
  else mkVertex (x (read h (start e)) - x (read h (end_ e)))
                (y (read h (start e)) - y (read h (end_ e))).

Definition calculateAngleBetweenEdges (h : heap) (edge1 edge2 : edge) : R :=
  match findSharedVertex h edge1 edge2 with
  | None => 180
  | Some sharedVertex =>
      let vector1 := getDirectionFromVertex h edge1 sharedVertex in
      let vector2 := getDirectionFromVertex h edge2 sharedVertex in
      let dot := x vector1 * x vector2 + y vector1 * y vector2 in
      let mag1 := sqrt (x vector1 * x vector1 + y vector1 * y vector1) in
      let mag2 := sqrt (x vector2 * x vector2 + y vector2 * y vector2) in
      if Reqb mag1 0 || Reqb mag2 0 then 0
      else
        let cosAngle := dot / (mag1 * mag2) in
        let clampedCos := Rmax (-1) (Rmin 1 cosAngle) in
        let angleRadians := acos clampedCos in
        angleRadians * (180 / PI)
  end.

Definition isAcuteAngle (angleDegrees : R) : bool := Rltb angleDegrees 90.

Definition resetEdgeAnalysis (edges : list edge) : list edge :=
  map (fun e => set_expandValue 0 (set_acuteAngleCount 0 e)) edges.

Record analysisResults : Type := mkResults {
  totalEdges : nat;
  acuteEdgeCount : nat;
  expandingEdgeCount : nat;
  shrinkingEdgeCount : nat
}.

(** The inner loop: [edges[connectedEdgeIndex]] is [undefined] for an
    index outside the array, whose fields cannot be read. *)
Definition countAcuteConnections (h : heap) (edges : list edge) (e : edge)
  : result nat :=
  foldM (fun acuteConnectionCount connectedEdgeIndex =>
           connectedEdge <- defined (nth_error edges connectedEdgeIndex) ;;
           let angle := calculateAngleBetweenEdges h e connectedEdge in
           Ok (if isAcuteAngle angle
               then S acuteConnectionCount else acuteConnectionCount))
        (connectedEdges e) 0%nat.

(** The array [edges] with the counts written so far, and the three
    counters of [analyzeAcuteAngles]. *)
Record analysisState : Type := mkAnalysis {
  analysed : list edge;
  acuteSoFar : nat;
  expandingSoFar : nat;
  shrinkingSoFar : nat
}.

(** Body of the outer loop, for the index [i]. *)
Definition analyzeEdge (h : heap) (st : analysisState) (i : nat)
  : result analysisState :=
  edge <- defined (nth_error (analysed st) i) ;;
  acuteConnectionCount <- countAcuteConnections h (analysed st) edge ;;
  let written :=
    VoronoiMesh.update_nth i (set_acuteAngleCount acuteConnectionCount)
                           (analysed st) in
  Ok (if Nat.ltb 0 acuteConnectionCount
      then mkAnalysis written (S (acuteSoFar st)) (S (expandingSoFar st))
                      (shrinkingSoFar st)
      else mkAnalysis written (acuteSoFar st) (expandingSoFar st)
                      (S (shrinkingSoFar st))).

Definition analyzeAcuteAngles (h : heap) (edges : list edge)
  : result (list edge * analysisResults) :=
  let edges0 := resetEdgeAnalysis edges in
  st <- foldM (analyzeEdge h) (seq 0 (List.length edges0))
              (mkAnalysis edges0 0 0 0) ;;
  Ok (analysed st,
      mkResults (List.length (analysed st)) (acuteSoFar st)
                (expandingSoFar st) (shrinkingSoFar st)).

(** One iteration of the loop of [calculateEdgeValues]: the edge with its
    [expandValue] written, and the record pushed on [edgeValues]. *)
Definition edgeValueOf (changeRate : R) (e : edge) : edge * edgeValue :=
  let value :=
    if Nat.ltb 0 (acuteAngleCount e)
    then changeRate * INR (acuteAngleCount e)
    else - changeRate in
  (set_expandValue value e,
   mkEdgeValue (id e) value (if Rltb 0 value then expand else shrink)).

Definition calculateEdgeValues (edges : list edge) (changeRate : R)
  : list edge * list edgeValue :=
  (map (fun e => fst (edgeValueOf changeRate e)) edges,
   map (fun e => snd (edgeValueOf changeRate e)) edges).


(** [getDetailedStatistics]: the object [acuteConnections] is a map from a
    count to the number of edges that have it; the average is a division
    by the number of edges. *)
Record detailedStatistics : Type := mkStatistics {
  statTotalEdges : nat;
  acuteConnections : list (nat * nat);
  averageAcuteConnections : result R;
  maxAcuteConnections : nat;
  expandingEdges : nat;
  shrinkingEdges : nat
}.

(** What the loop of [getDetailedStatistics] carries: [stats] and
    [totalAcuteConnections]. *)
Record statisticsState : Type := mkStatState {
  histogram : list (nat * nat);
  maxSoFar : nat;
  expandingCount : nat;
  shrinkingCount : nat;
  totalAcuteConnections : nat
}.

Definition increment (k : nat) (m : list (nat * nat)) : list (nat * nat) :=
  map_set Nat.eq_dec k
          (match map_get Nat.eq_dec k m with Some n => n | None => 0 end + 1)%nat
          m.

Definition statisticsStep (st : statisticsState) (e : edge) : statisticsState :=
  let count := acuteAngleCount e in
  let total := (totalAcuteConnections st + count)%nat in
  let mx := if Nat.ltb (maxSoFar st) count then count else maxSoFar st in
  if Nat.ltb 0 count
  then mkStatState (increment count (histogram st)) mx
                   (S (expandingCount st)) (shrinkingCount st) total
  else mkStatState (increment 0 (histogram st)) mx
                   (expandingCount st) (S (shrinkingCount st)) total.

Definition getDetailedStatistics (edges : list edge) : detailedStatistics :=
  let st := fold_left statisticsStep edges (mkStatState [] 0 0 0 0) in
  mkStatistics (List.length edges) (histogram st)
               (divide (INR (totalAcuteConnections st)) (INR (List.length edges)))
               (maxSoFar st) (expandingCount st) (shrinkingCount st).

End EdgeAnalyzer.

(** ** MeshEvolver: spring-damper integration *)

Module MeshEvolver.

Record config : Type := mkConfig {
  springConstant : R;
  dampingFactor : R;
  timeStep : R
}.

(** The values the constructor sets. *)
Definition defaultConfig : config := mkConfig (3 / 10) (85 / 100) (1 / 10).

(** The string [getVertexKey] returns, as its two printed numbers. *)
Definition vertexKey : Type := (fixed6 * fixed6)%type.

Definition vertexKey_eq_dec : forall a b : vertexKey, {a = b} + {a <> b}.
Proof. decide equality; apply fixed6_eq_dec. Defined.

Definition getVertexKey (v : vertex) : vertexKey :=
  (toFixed6 (x v), toFixed6 (y v)).

Definition wrapCoordinate (coord min max : R) : R :=
  let range := max - min in
  if Rltb coord min then coord + range
  else if Rltb max coord then coord - range
  else coord.

Record force : Type := mkForce { force_x : R; force_y : R; force_vertex : vref }.
Record velocity : Type := mkVelocity { velocity_x : R; velocity_y : R }.

Definition forces : Type := list (vertexKey * force).
Definition velocities : Type := list (vertexKey * velocity).

Definition updateRestLengths (edges : list edge) (edgeValues : list edgeValue)
  : list edge :=
  let valueMap :=
    fold_left (fun m ev => map_set Nat.eq_dec (edgeId ev) (value ev) m)
              edgeValues [] in
  map (fun e =>
         let evolutionValue :=
           match map_get Nat.eq_dec (id e) valueMap with
           | Some v => v
           | None => 0
           end in
         let e1 :=
           if falsy (originalLength e)
           then set_originalLength (Some (length e)) e
           else e in
         let factor := 1 + evolutionValue / 100 in
         match originalLength e1 with
         | Some original => set_targetLength (Some (original * factor)) e1
         | None => e1   (* not reached: [originalLength] is set by now *)
         end)
      edges.

(** Body of the first loop of [applySpringForcesToEdges]. *)
Definition initStep (h : heap) (vertexForces : forces) (e : edge) : forces :=
  let startKey := getVertexKey (read h (start e)) in
  let endKey := getVertexKey (read h (end_ e)) in
  let vf1 :=
    if map_has vertexKey_eq_dec startKey vertexForces then vertexForces
    else map_set vertexKey_eq_dec startKey (mkForce 0 0 (start e)) vertexForces in
  if map_has vertexKey_eq_dec endKey vf1 then vf1
  else map_set vertexKey_eq_dec endKey (mkForce 0 0 (end_ e)) vf1.

Definition initForces (h : heap) (edges : list edge) : forces :=
  fold_left (initStep h) edges [].

(** Body of the second loop.  [startForce] and [endForce] are one object
    when the two keys are equal: the second update reads what the first
    one wrote. *)
Definition addEdgeForce (cfg : config) (h : heap) (vertexForces : forces)
           (e : edge) : result forces :=
  let startKey := getVertexKey (read h (start e)) in
  let endKey := getVertexKey (read h (end_ e)) in
  let dx := x (read h (end_ e)) - x (read h (start e)) in
  let dy := y (read h (end_ e)) - y (read h (start e)) in
  let currentLength := sqrt (dx * dx + dy * dy) in
  if Reqb currentLength 0 then Ok vertexForces
  else
    let targetLength := or_else (targetLength e) (length e) in
    let forceMagnitude := springConstant cfg * (currentLength - targetLength) in
    dirX <- divide dx currentLength ;;
    dirY <- divide dy currentLength ;;
    let forceX := dirX * forceMagnitude in
    let forceY := dirY * forceMagnitude in
    startForce <- defined (map_get vertexKey_eq_dec startKey vertexForces) ;;
    _ <- defined (map_get vertexKey_eq_dec endKey vertexForces) ;;
    let vf1 :=
      map_set vertexKey_eq_dec startKey
              (mkForce (force_x startForce + forceX) (force_y startForce + forceY)
                       (force_vertex startForce))
              vertexForces in
    endForce <- defined (map_get vertexKey_eq_dec endKey vf1) ;;
    Ok (map_set vertexKey_eq_dec endKey
                (mkForce (force_x endForce - forceX) (force_y endForce - forceY)
                         (force_vertex endForce))
                vf1).

(** Body of the loop of [updateVertexPositions]. *)
Definition moveVertex (cfg : config) (st : velocities * heap)
           (entry : vertexKey * force) : result (velocities * heap) :=
  let (vertexVelocities, h) := st in
  let (key, f) := entry in
  let vertex := force_vertex f in
  let vv1 :=
    if map_has vertexKey_eq_dec key vertexVelocities then vertexVelocities
    else map_set vertexKey_eq_dec key (mkVelocity 0 0) vertexVelocities in
  v <- defined (map_get vertexKey_eq_dec key vv1) ;;
  let v1 := mkVelocity (velocity_x v + force_x f * timeStep cfg)
                       (velocity_y v + force_y f * timeStep cfg) in
  let v2 := mkVelocity (velocity_x v1 * dampingFactor cfg)
                       (velocity_y v1 * dampingFactor cfg) in
  let moved := mkVertex (x (read h vertex) + velocity_x v2 * timeStep cfg)
                        (y (read h vertex) + velocity_y v2 * timeStep cfg) in
  let wrapped := mkVertex (wrapCoordinate (x moved) (-8) 8)
                          (wrapCoordinate (y moved) (-6) 6) in
  Ok (map_set vertexKey_eq_dec key v2 vv1, write h vertex wrapped).

Definition updateVertexPositions (cfg : config) (vertexVelocities : velocities)
           (h : heap) (vertexForces : forces) : result (velocities * heap) :=
  foldM (moveVertex cfg) vertexForces (vertexVelocities, h).

(** Last loop of [applySpringForcesToEdges]. *)
Definition refreshLength (h : heap) (e : edge) : edge :=
  let dx := x (read h (end_ e)) - x (read h (start e)) in
  let dy := y (read h (end_ e)) - y (read h (start e)) in
  set_length (sqrt (dx * dx + dy * dy)) e.

Definition applySpringForcesToEdges (cfg : config)
           (vertexVelocities : velocities) (h : heap) (edges : list edge)
  : result (velocities * heap * list edge) :=
  vertexForces <- foldM (addEdgeForce cfg h) edges (initForces h edges) ;;
  moved <- updateVertexPositions cfg vertexVelocities h vertexForces ;;
  Ok (fst moved, snd moved, map (refreshLength (snd moved)) edges).

(** [voronoiMesh.getEdgeData()] is [this.edges]; [voronoiMesh.updateMesh()]
    copies coordinates into the render buffers and changes no edge. *)
Definition applyEdgeValues (cfg : config) (vertexVelocities : velocities)
           (h : heap) (edges : list edge) (edgeValues : list edgeValue)
  : result (velocities * heap * list edge) :=
  applySpringForcesToEdges cfg vertexVelocities h
                           (updateRestLengths edges edgeValues).

End MeshEvolver.

(** ** The application: one generation, start and pause *)

Module App.

(** The four numbers [updateInfoDisplay] writes into the page. *)
Record infoDisplay : Type := mkDisplay {
  shownGeneration : nat;
  shownAcuteEdges : nat;
  shownExpandingEdges : nat;
  shownShrinkingEdges : nat
}.

(** The fields of [AcuteEdgeVoronoiApp] the evolution reads or writes: its
    own, the edges and endpoint objects of its [voronoiMesh], and the
    configuration and velocity store of its [meshEvolver]. *)
Record app : Type := mkApp {
  changeRate : R;
  generation : nat;
  isEvolutionRunning : bool;
  evolutionTimer : option positive;
  meshEdges : list edge;
  meshObjects : heap;
  evolverConfig : MeshEvolver.config;
  vertexVelocities : MeshEvolver.velocities;
  display : infoDisplay
}.

(** [evolveOneGeneration]: analysis, values, evolver pass, display.  The
    debug information and the redraw change none of these fields. *)
Definition evolveOneGeneration (a : app) : result app :=
  let generation' := S (generation a) in
  analysis <- EdgeAnalyzer.analyzeAcuteAngles (meshObjects a) (meshEdges a) ;;
  let (edgeData, analysisResults) := analysis in
  let (edgeData', edgeValues) :=
    EdgeAnalyzer.calculateEdgeValues edgeData (changeRate a) in
  evolved <- MeshEvolver.applyEdgeValues (evolverConfig a) (vertexVelocities a)
                                         (meshObjects a) edgeData' edgeValues ;;
  Ok (mkApp (changeRate a) generation' (isEvolutionRunning a)
            (evolutionTimer a) (snd evolved) (snd (fst evolved))
            (evolverConfig a) (fst (fst evolved))
            (mkDisplay generation'
                       (EdgeAnalyzer.acuteEdgeCount analysisResults)
                       (EdgeAnalyzer.expandingEdgeCount analysisResults)
                       (EdgeAnalyzer.shrinkingEdgeCount analysisResults))).

(** The browser's table of intervals: the next handle it will give out (a
    positive integer) and the handles that are live. *)
Record timers : Type := mkTimers { nextHandle : positive; live : list positive }.

Definition setInterval (t : timers) : timers * positive :=
  (mkTimers (Pos.succ (nextHandle t)) (nextHandle t :: live t), nextHandle t).

Definition clearInterval (t : timers) (handle : positive) : timers :=
  mkTimers (nextHandle t) (remove Pos.eq_dec handle (live t)).

Definition setRunning (running : bool) (timer : option positive) (a : app) : app :=
  mkApp (changeRate a) (generation a) running timer (meshEdges a)
        (meshObjects a) (evolverConfig a) (vertexVelocities a) (display a).

Definition startEvolution (st : app * timers) : app * timers :=
  let (a, t) := st in
  if isEvolutionRunning a then st
  else
    let (t', handle) := setInterval t in
    (setRunning true (Some handle) a, t').

Definition pauseEvolution (st : app * timers) : app * timers :=
  let (a, t) := st in
  if negb (isEvolutionRunning a) then st
  else
    match evolutionTimer a with
    | Some handle => (setRunning false None a, clearInterval t handle)
    | None => (setRunning false None a, t)
    end.

Inductive action : Type := Start | Pause.

Definition perform (st : app * timers) (act : action) : app * timers :=
  match act with
  | Start => startEvolution st
  | Pause => pauseEvolution st
  end.

End App.

(** ** The angle as the specification words it

    These definitions follow the text of the specification; the code is
    compared with them below. *)

Definition clamp (c lo hi : R) : R := Rmax lo (Rmin hi c).
Definition dot (d1 d2 : vertex) : R := x d1 * x d2 + y d1 * y d2.
Definition magnitude (d : vertex) : R := sqrt (x d * x d + y d * y d).

(** [acos(clamp(dot(d1,d2)/(|d1||d2|), -1, 1))] in degrees. *)
Definition spec_angle (d1 d2 : vertex) : R :=
  acos (clamp (dot d1 d2 / (magnitude d1 * magnitude d2)) (-1) 1) * (180 / PI).

(** ** Sample data *)

(** An edge object as [extractEdgesFromCells] creates it. *)
Definition newEdge (i : nat) (s e : vref) (len : R) : edge :=
  mkEdge i s e len [] [] 0%nat 0 None None.

(** Two edges leaving the point (0,0): to (1,0) and to (0,1). *)
Definition cornerHeap : heap :=
  heap_of [mkVertex 0 0; mkVertex 1 0; mkVertex 0 0; mkVertex 0 1].
Definition cornerEdge1 : edge := newEdge 0%nat 0%nat 1%nat 1.
Definition cornerEdge2 : edge := newEdge 1%nat 2%nat 3%nat 1.

(** A horizontal edge on the top side of the domain, from (0,6) to (2,6),
    and the value [calculateEdgeValues] gives it at [changeRate = 5] when
    it has no acute connection. *)
Definition topHeap : heap := heap_of [mkVertex 0 6; mkVertex 2 6].
Definition topEdge : edge := newEdge 0%nat 0%nat 1%nat 2.
Definition shrinkValues : list edgeValue := [mkEdgeValue 0%nat (-5) shrink].

(** A triangular cell as a closed polygon (the first point repeated at
    the end), and two triangles that share the side from (1,0) to (0,1),
    which they traverse in opposite directions. *)
Definition closedTriangle : list cell :=
  [mkCell 0 (Some [(0, 0); (1, 0); (0, 1); (0, 0)]) (/ 3, / 3)].
Definition twoTriangles : list cell :=
  [mkCell 0 (Some [(0, 0); (1, 0); (0, 1)]) (/ 3, / 3);
   mkCell 1 (Some [(1, 0); (1, 1); (0, 1)]) (2 / 3, 2 / 3)].

(** ** Reading aids for the statements *)

(** The value [valueMap.get(i) || 0] resolves to: the value of the last
    record of [edgeValues] whose [edgeId] is [i], and 0 without one. *)
Definition passedValue (i : nat) (edgeValues : list edgeValue) : R :=
  match fold_left (fun acc ev =>
                     if Nat.eq_dec i (edgeId ev) then Some (value ev) else acc)
                  edgeValues None with
  | Some v => v
  | None => 0
  end.

(** The distance between the endpoint objects of an edge, as every loop of
    the evolver computes it from the heap. *)
Definition currentLength (h : heap) (e : edge) : R :=
  let dx := x (read h (end_ e)) - x (read h (start e)) in
  let dy := y (read h (end_ e)) - y (read h (start e)) in
  sqrt (dx * dx + dy * dy).

(** Both endpoint keys of the edge have an accumulator. *)
Definition keysPresent (h : heap) (vf : MeshEvolver.forces) (e : edge) : Prop :=
  map_get MeshEvolver.vertexKey_eq_dec
          (MeshEvolver.getVertexKey (read h (start e))) vf <> None /\
  map_get MeshEvolver.vertexKey_eq_dec
          (MeshEvolver.getVertexKey (read h (end_ e))) vf <> None.

(** The reference names an endpoint object of one of the edges. *)
Definition endpointOf (edges : list edge) (r : vref) : Prop :=
  exists e, In e edges /\ (r = start e \/ r = end_ e).

(** The keys of the accumulators with the vertex object each one names,
    in insertion order. *)
Definition shape (vf : MeshEvolver.forces) : list (MeshEvolver.vertexKey * vref) :=
  map (fun kv => (fst kv, MeshEvolver.force_vertex (snd kv))) vf.

(** The velocity an integration step computes from the stored velocity
    and the accumulated force. *)
Definition stepVelocity (cfg : MeshEvolver.config) (v0 : MeshEvolver.velocity)
           (f : MeshEvolver.force) : MeshEvolver.velocity :=
  MeshEvolver.mkVelocity
    ((MeshEvolver.velocity_x v0 + MeshEvolver.force_x f * MeshEvolver.timeStep cfg)
     * MeshEvolver.dampingFactor cfg)
    ((MeshEvolver.velocity_y v0 + MeshEvolver.force_y f * MeshEvolver.timeStep cfg)
     * MeshEvolver.dampingFactor cfg).

(** The velocity a step starts from for a key: the stored one, or zero. *)
Definition startingVelocity (k : MeshEvolver.vertexKey)
           (vv : MeshEvolver.velocities) : MeshEvolver.velocity :=
  match map_get MeshEvolver.vertexKey_eq_dec k vv with
  | Some v => v
  | None => MeshEvolver.mkVelocity 0 0
  end.

(** The grid key of the start ([true]) or end ([false]) of an edge. *)
Definition endpointGridKey (h : heap) (e : edge) (isStart : bool)
  : VoronoiMesh.gridKey :=
  VoronoiMesh.getGridKey (read h (if isStart then start e else end_ e)).

(** The key of an edge, printed from its endpoint objects. *)
Definition coords (v : vertex) : point := (x v, y v).

Definition edgeKeyOf (h : heap) (e : edge) : VoronoiMesh.edgeKey :=
  VoronoiMesh.createEdgeKey (coords (read h (start e)))
                            (coords (read h (end_ e))).

Definition keysOf (st : VoronoiMesh.extraction) : list VoronoiMesh.edgeKey :=
  map (edgeKeyOf (VoronoiMesh.objects st)) (VoronoiMesh.edges st).

(** Every consecutive pair of every polygon with the index of its cell,
    in the order the two loops of [extractEdgesFromCells] visit them. *)
Definition allSegments (cells : list cell) : list (nat * (point * point)) :=
  flat_map (fun ic : nat * cell =>
              match polygon (snd ic) with
              | None => []
              | Some pts => map (pair (fst ic)) (VoronoiMesh.segments pts)
              end)
           (VoronoiMesh.indexed cells).

(** The body of the inner loop, on a pair tagged with its cell index. *)
Definition addIndexed (st : VoronoiMesh.extraction)
           (p : nat * (point * point)) : VoronoiMesh.extraction :=
  VoronoiMesh.addSegment (fst p) st (snd p).

(** The states [extractEdgesFromCells] goes through: [edgeMap] maps the
    key of the edge at each position to that position, the keys are
    distinct, and the endpoint objects are allocated. *)
Definition wellFormed (st : VoronoiMesh.extraction) : Prop :=
  VoronoiMesh.edgeMap st =
    combine (keysOf st) (seq 0 (List.length (VoronoiMesh.edges st))) /\
  NoDup (keysOf st) /\
  Forall (fun e => (start e < next (VoronoiMesh.objects st))%nat /\
                   (end_ e < next (VoronoiMesh.objects st))%nat)
         (VoronoiMesh.edges st).

(** The cells, one for each pair, whose pairs print the key [k]. *)
Definition pairHasKey (k : VoronoiMesh.edgeKey) (p : nat * (point * point)) : bool :=
  if VoronoiMesh.edgeKey_eq_dec
       (VoronoiMesh.createEdgeKey (fst (snd p)) (snd (snd p))) k
  then true else false.

Definition cellsWithKey (k : VoronoiMesh.edgeKey)
           (l : list (nat * (point * point))) : list nat :=
  map fst (filter (pairHasKey k) l).

(** The start ([true]) or end ([false]) object of an edge. *)
Definition endpoint (e : edge) (isStart : bool) : vref :=
  if isStart then start e else end_ e.

(** The number of acute connections of [e] in [edges]: the entries of
    [connectedEdges e] that name an edge at an acute angle to [e]. *)
Definition acuteCountOf (h : heap) (edges : list edge) (e : edge) : nat :=
  List.length
    (filter (fun j =>
               match nth_error edges j with
               | Some c =>
                   EdgeAnalyzer.isAcuteAngle
                     (EdgeAnalyzer.calculateAngleBetweenEdges h e c)
               | None => false
               end)
            (connectedEdges e)).

(** Every index the edge lists is below [n]. *)
Definition indicesInRange (n : nat) (e : edge) : bool :=
  forallb (fun j => Nat.ltb j n) (connectedEdges e).

(** The edge as the analysis leaves it. *)
Definition analysedEdge (h : heap) (edges : list edge) (e : edge) : edge :=
  set_acuteAngleCount (acuteCountOf h edges e)
                      (set_expandValue 0 (set_acuteAngleCount 0 e)).

(** The number an object used as a histogram holds for a count: the
    property's value, or 0 when the property is not there. *)
Definition histogramAt (c : nat) (m : list (nat * nat)) : nat :=
  match map_get Nat.eq_dec c m with Some n => n | None => 0%nat end.

(** The sum of the accumulated forces, along x and along y. *)
Definition totalForceX (vf : MeshEvolver.forces) : R :=
  fold_right Rplus 0 (map (fun kv => MeshEvolver.force_x (snd kv)) vf).
Definition totalForceY (vf : MeshEvolver.forces) : R :=
  fold_right Rplus 0 (map (fun kv => MeshEvolver.force_y (snd kv)) vf).

(** The edge has the length the spring force pulls it to. *)
Definition atRest (h : heap) (e : edge) : Prop :=
  currentLength h e = or_else (targetLength e) (length e).

(** The point lies in the closed domain of the periodic wrap. *)
Definition inDomain (v : vertex) : Prop :=
  -8 <= x v <= 8 /\ -6 <= y v <= 6.

(** Every velocity the store holds is zero. *)
Definition storeAtRest (vv : MeshEvolver.velocities) : Prop :=
  forall k v, map_get MeshEvolver.vertexKey_eq_dec k vv = Some v ->
              v = MeshEvolver.mkVelocity 0 0.

(** What the interval of [startEvolution] does: a call of
    [evolveOneGeneration] at every tick, here [n] ticks. *)
Fixpoint generations (n : nat) (a : App.app) : result App.app :=
  match n with
  | O => Ok a
  | S n' => a' <- App.evolveOneGeneration a ;; generations n' a'
  end.

(** The second edge is the first one with the same identity, endpoint
    objects and neighbours. *)
Definition sameTopology (e e' : edge) : Prop :=
  id e' = id e /\ start e' = start e /\ end_ e' = end_ e /\
  connectedEdges e' = connectedEdges e /\ connectedCells e' = connectedCells e.

(** The intervals the application has running, as its own fields see it. *)
Definition timerOf (a : App.app) : list positive :=
  match App.evolutionTimer a with Some handle => [handle] | None => [] end.

(** The application as its constructor leaves it, on the two edges that
    leave (0,0) and list each other, and the browser without intervals. *)
Definition cornerApp : App.app :=
  App.mkApp 5 0 false None
            [set_connectedEdges [1%nat] cornerEdge1;
             set_connectedEdges [0%nat] cornerEdge2]
            cornerHeap MeshEvolver.defaultConfig [] (App.mkDisplay 0 0 0 0).

Definition noTimers : App.timers := App.mkTimers 1 [].

(** The polygon points the cell mesh draws: those of the cells with at
    least three points, in the order of the cells. *)
Definition drawnPoints (cells : list cell) : list point :=
  flat_map (fun c => match polygon c with
                     | None => []
                     | Some pts => if Nat.ltb (List.length pts) 3 then [] else pts
                     end)
           cells.



(** An edge shorter than the tolerance of [pointsEqual], from (0,0) to
    (0.0000009,0), and an edge that goes on along the same line, from
    (0.0000015,0) to (1,0). *)
Definition shortHeap : heap :=
  heap_of [mkVertex 0 0; mkVertex (9 / 10000000) 0;
           mkVertex (15 / 10000000) 0; mkVertex 1 0].
Definition shortEdge : edge := newEdge 0%nat 0%nat 1%nat (9 / 10000000).
Definition longEdge : edge := newEdge 1%nat 2%nat 3%nat (1 - 15 / 10000000).

(** The vector from the point [p] to the point [q]. *)
Definition fromTo (p q : vertex) : vertex := mkVertex (x q - x p) (y q - y p).

(** * Properties *)

(** ** Comparisons *)

Lemma Rltb_true : forall a b, a < b -> Rltb a b = true.
Proof. intros a b H; unfold Rltb; destruct (Rlt_dec a b); [reflexivity | contradiction]. Qed.

Lemma Rltb_false : forall a b, b <= a -> Rltb a b = false.
Proof. intros a b H; unfold Rltb; destruct (Rlt_dec a b); [lra | reflexivity]. Qed.

Lemma Rltb_spec : forall a b, Rltb a b = true <-> a < b.
Proof.
  intros a b; unfold Rltb; destruct (Rlt_dec a b); split; intro H;
    try assumption; try reflexivity; try discriminate; contradiction.
Qed.

Lemma Reqb_true : forall a b, a = b -> Reqb a b = true.
Proof. intros a b H; unfold Reqb; destruct (Req_dec_T a b); [reflexivity | contradiction]. Qed.

Lemma Reqb_false : forall a b, a <> b -> Reqb a b = false.
Proof. intros a b H; unfold Reqb; destruct (Req_dec_T a b); [contradiction | reflexivity]. Qed.

Lemma Reqb_spec : forall a b, Reqb a b = true <-> a = b.
Proof.
  intros a b; unfold Reqb; destruct (Req_dec_T a b); split; intro H;
    try assumption; try reflexivity; try discriminate; contradiction.
Qed.

(** ** Map lemmas *)

Section JsMapFacts.
Context {K V : Type}.
Variable K_eq_dec : forall a b : K, {a = b} + {a <> b}.

Lemma map_get_set_same : forall k (v : V) m, map_get K_eq_dec k (map_set K_eq_dec k v m) = Some v.
Proof.
  intros k v m; induction m as [|[k' v'] m IH]; simpl.
  - destruct (K_eq_dec k k); congruence.
  - destruct (K_eq_dec k k') as [E|N]; simpl.
    + destruct (K_eq_dec k k'); congruence.
    + destruct (K_eq_dec k k'); congruence.
Qed.

Lemma map_get_set_other : forall k k' (v : V) m,
  k <> k' -> map_get K_eq_dec k (map_set K_eq_dec k' v m) = map_get K_eq_dec k m.
Proof.
  intros k k' v m N; induction m as [|[k0 v0] m IH]; simpl.
  - destruct (K_eq_dec k k'); congruence.
  - destruct (K_eq_dec k' k0) as [E|N0]; simpl.
    + subst k0. destruct (K_eq_dec k k'); congruence.
    + destruct (K_eq_dec k k0); congruence.
Qed.

Lemma map_set_keys_present : forall k (v : V) m,
  map_get K_eq_dec k m <> None -> map fst (map_set K_eq_dec k v m) = map fst m.
Proof.
  intros k v m; induction m as [|[k0 v0] m IH]; simpl; intro H.
  - congruence.
  - destruct (K_eq_dec k k0) as [E|N]; simpl; [reflexivity|].
    f_equal. apply IH. exact H.
Qed.

Lemma map_set_keys_absent : forall k (v : V) m,
  map_get K_eq_dec k m = None -> map fst (map_set K_eq_dec k v m) = map fst m ++ [k].
Proof.
  intros k v m; induction m as [|[k0 v0] m IH]; simpl; intro H.
  - reflexivity.
  - destruct (K_eq_dec k k0) as [E|N]; simpl; [discriminate|].
    f_equal. apply IH. exact H.
Qed.

Lemma map_get_None_keys : forall k (m : list (K * V)),
  map_get K_eq_dec k m = None <-> ~ In k (map fst m).
Proof.
  intros k m; induction m as [|[k0 v0] m IH]; simpl.
  - split; [intros _ [] | reflexivity].
  - destruct (K_eq_dec k k0) as [E|N].
    + split; [discriminate | intros H; exfalso; apply H; left; congruence].
    + rewrite IH. split; intros H.
      * intros [E|I]; [congruence | contradiction].
      * intros I; apply H; right; exact I.
Qed.
End JsMapFacts.

(** ** EdgeAnalyzer *)

Import EdgeAnalyzer.

Lemma nth_error_map_Some : forall (A B : Type) (f : A -> B) l i a,
  nth_error l i = Some a -> nth_error (map f l) i = Some (f a).
Proof.
  intros A B f l i a H. rewrite nth_error_map, H. reflexivity.
Qed.

(** C2. After [calculateEdgeValues edges changeRate], an edge whose
    [acuteAngleCount] is positive has [expandValue = changeRate *
    acuteAngleCount], and any other edge has [expandValue = - changeRate],
    whatever its list of connected edges is; with [changeRate = 5] a count
    of 3 gives 15 and a count of 0 gives -5.  The record pushed for the edge
    carries the same value under the edge's id. *)
Theorem calculateEdgeValues_expandValue :
  forall edges changeRate i e,
    nth_error edges i = Some e ->
    exists e' ev,
      nth_error (fst (calculateEdgeValues edges changeRate)) i = Some e' /\
      nth_error (snd (calculateEdgeValues edges changeRate)) i = Some ev /\
      acuteAngleCount e' = acuteAngleCount e /\
      connectedEdges e' = connectedEdges e /\
      edgeId ev = id e /\ value ev = expandValue e' /\
      ((0 < acuteAngleCount e)%nat ->
       expandValue e' = changeRate * INR (acuteAngleCount e)) /\
      (~ (0 < acuteAngleCount e)%nat -> expandValue e' = - changeRate) /\
      (changeRate = 5 -> acuteAngleCount e = 3%nat -> expandValue e' = 15) /\
      (changeRate = 5 -> acuteAngleCount e = 0%nat -> expandValue e' = -5).
Proof.
  intros edges changeRate i e H.
  exists (fst (edgeValueOf changeRate e)), (snd (edgeValueOf changeRate e)).
  unfold calculateEdgeValues; simpl fst; simpl snd.
  split; [apply nth_error_map_Some with (f := fun e => fst (edgeValueOf changeRate e)); exact H|].
  split; [apply nth_error_map_Some with (f := fun e => snd (edgeValueOf changeRate e)); exact H|].
  unfold edgeValueOf; simpl.
  repeat split; try reflexivity.
  - intro P. apply Nat.ltb_lt in P. rewrite P. reflexivity.
  - intro P. destruct (Nat.ltb_spec 0 (acuteAngleCount e)) as [L|L];
      [contradiction | reflexivity].
  - intros R5 C3. rewrite C3, R5. simpl. lra.
  - intros R5 C0. rewrite C0, R5. simpl. lra.
Qed.

Lemma calculateEdgeValues_expandValue_witness :
  exists e',
    nth_error (fst (calculateEdgeValues
                      [set_acuteAngleCount 3 cornerEdge1;
                       set_connectedEdges [0%nat] cornerEdge2] 5)) 1 = Some e' /\
    expandValue e' = -5.
Proof.
  destruct (calculateEdgeValues_expandValue
              [set_acuteAngleCount 3 cornerEdge1;
               set_connectedEdges [0%nat] cornerEdge2] 5 1
              (set_connectedEdges [0%nat] cornerEdge2) eq_refl)
    as (e' & ev & H1 & _ & _ & _ & _ & _ & _ & _ & _ & H0).
  exists e'. split; [exact H1 | apply H0; reflexivity].
Defined.

Lemma magnitude_unit_x : magnitude (mkVertex 1 0) = 1.
Proof.
  unfold magnitude; simpl. replace (1 * 1 + 0 * 0) with 1 by lra. apply sqrt_1.
Qed.

Lemma degrees_of_half_turn : forall k, PI / k * (180 / PI) = 180 / k.
Proof.
  intro k. pose proof PI_RGT_0 as P. unfold Rdiv.
  destruct (Req_dec_T k 0) as [Z|N].
  - subst k. rewrite Rinv_0. lra.
  - field. split; lra.
Qed.

(** The angle the code computes once a shared vertex is found. *)
Lemma calculateAngle_shared : forall h e1 e2 sv,
  findSharedVertex h e1 e2 = Some sv ->
  calculateAngleBetweenEdges h e1 e2 =
  if Reqb (magnitude (getDirectionFromVertex h e1 sv)) 0
     || Reqb (magnitude (getDirectionFromVertex h e2 sv)) 0
  then 0
  else spec_angle (getDirectionFromVertex h e1 sv) (getDirectionFromVertex h e2 sv).
Proof.
  intros h e1 e2 sv H. unfold calculateAngleBetweenEdges. rewrite H.
  reflexivity.
Qed.

Lemma spec_angle_right : spec_angle (mkVertex 1 0) (mkVertex 0 1) = 90.
Proof.
  unfold spec_angle, dot, clamp; simpl.
  replace (1 * 0 + 0 * 1) with 0 by lra.
  unfold Rdiv at 1. rewrite Rmult_0_l.
  rewrite Rmin_right by lra. rewrite Rmax_right by lra.
  rewrite acos_0. rewrite degrees_of_half_turn. lra.
Qed.

Lemma magnitude_diagonal : magnitude (mkVertex (/ sqrt 2) (/ sqrt 2)) = 1.
Proof.
  unfold magnitude; simpl.
  pose proof sqrt2_neq_0 as N.
  pose proof (sqrt_sqrt 2 ltac:(lra)) as S.
  replace (/ sqrt 2 * / sqrt 2 + / sqrt 2 * / sqrt 2) with 1.
  - apply sqrt_1.
  - rewrite <- Rinv_mult, S. lra.
Qed.

Lemma inv_sqrt2_bounds : 0 < / sqrt 2 < 1.
Proof.
  pose proof (sqrt_lt_R0 2 ltac:(lra)) as P.
  split; [apply Rinv_0_lt_compat; exact P|].
  rewrite <- Rinv_1. apply Rinv_lt_contravar; [lra|].
  rewrite <- sqrt_1 at 1. apply sqrt_lt_1; lra.
Qed.

Lemma spec_angle_diagonal :
  spec_angle (mkVertex 1 0) (mkVertex (/ sqrt 2) (/ sqrt 2)) = 45.
Proof.
  unfold spec_angle. rewrite magnitude_unit_x, magnitude_diagonal.
  unfold dot, clamp; simpl. pose proof inv_sqrt2_bounds as B.
  replace ((1 * / sqrt 2 + 0 * / sqrt 2) / (1 * 1)) with (/ sqrt 2) by (field; apply sqrt2_neq_0).
  rewrite Rmin_right by lra. rewrite Rmax_right by lra.
  rewrite acos_inv_sqrt2. rewrite degrees_of_half_turn. lra.
Qed.

Lemma spec_angle_straight : spec_angle (mkVertex 1 0) (mkVertex (-1) 0) = 180.
Proof.
  unfold spec_angle. rewrite magnitude_unit_x.
  assert (M : magnitude (mkVertex (-1) 0) = 1).
  { unfold magnitude; simpl. replace (-1 * -1 + 0 * 0) with 1 by lra. apply sqrt_1. }
  rewrite M. unfold dot, clamp; simpl.
  replace ((1 * -1 + 0 * 0) / (1 * 1)) with (-1) by lra.
  rewrite Rmin_right by lra. rewrite Rmax_left by lra.
  replace (acos (-1)) with (acos (- (1))) by (f_equal; lra).
  rewrite acos_opp, acos_1. pose proof PI_RGT_0.
  replace (PI - 0) with (PI / 1) by lra. rewrite degrees_of_half_turn. lra.
Qed.

Lemma pointsEqual_same : forall p q,
  x p = x q -> y p = y q -> pointsEqual p q tolerance = true.
Proof.
  intros p q Hx Hy. unfold pointsEqual, tolerance.
  rewrite Hx, Hy. unfold Rminus. rewrite !Rplus_opp_r, Rabs_R0.
  rewrite Rltb_true by lra. reflexivity.
Qed.

Lemma cornerEdges_shared :
  findSharedVertex cornerHeap cornerEdge1 cornerEdge2 = Some 0%nat.
Proof.
  unfold findSharedVertex.
  rewrite pointsEqual_same by reflexivity. reflexivity.
Qed.

Lemma foldM_app : forall (A B : Type) (f : A -> B -> result A) l1 l2 a,
  foldM f (l1 ++ l2) a = (a' <- foldM f l1 a ;; foldM f l2 a').
Proof.
  intros A B f l1 l2. induction l1 as [|b l1 IH]; intro a; simpl.
  - reflexivity.
  - destruct (f a b); simpl; [apply IH | reflexivity].
Qed.

(** ** MeshEvolver: periodic wrap *)

Import MeshEvolver.

Lemma wrapCoordinate_above : forall min max d,
  min <= max -> 0 < d -> wrapCoordinate (max + d) min max = min + d.
Proof.
  intros min max d Hm Hd. unfold wrapCoordinate.
  rewrite Rltb_false by lra. rewrite Rltb_true by lra. lra.
Qed.

Lemma wrapCoordinate_inside : forall min max c,
  min <= c <= max -> wrapCoordinate c min max = c.
Proof.
  intros min max c H. unfold wrapCoordinate.
  rewrite Rltb_false by lra. rewrite Rltb_false by lra. reflexivity.
Qed.

Lemma wrapCoordinate_range : forall min max c,
  min <= max ->
  min - (max - min) <= c <= max + (max - min) ->
  min <= wrapCoordinate c min max <= max.
Proof.
  intros min max c Hm H. unfold wrapCoordinate, Rltb.
  destruct (Rlt_dec c min); [lra|]. destruct (Rlt_dec max c); lra.
Qed.

(** The velocity a step computes from the stored one and the force. *)
Lemma moveVertex_eq : forall cfg vv h key f,
  let v0 := match map_get vertexKey_eq_dec key vv with
            | Some v0 => v0
            | None => mkVelocity 0 0
            end in
  let v2 := mkVelocity
              ((velocity_x v0 + force_x f * timeStep cfg) * dampingFactor cfg)
              ((velocity_y v0 + force_y f * timeStep cfg) * dampingFactor cfg) in
  moveVertex cfg (vv, h) (key, f) =
  Ok (map_set vertexKey_eq_dec key v2
        (if map_has vertexKey_eq_dec key vv then vv
         else map_set vertexKey_eq_dec key (mkVelocity 0 0) vv),
      write h (force_vertex f)
        (mkVertex
           (wrapCoordinate
              (x (read h (force_vertex f)) + velocity_x v2 * timeStep cfg) (-8) 8)
           (wrapCoordinate
              (y (read h (force_vertex f)) + velocity_y v2 * timeStep cfg) (-6) 6))).
Proof.
  intros cfg vv h key f v0 v2. subst v0 v2. unfold moveVertex, map_has.
  destruct (map_get vertexKey_eq_dec key vv) as [v|] eqn:G; cbv iota zeta.
  - rewrite G. reflexivity.
  - rewrite map_get_set_same. reflexivity.
Qed.

Lemma updateVertexPositions_total : forall cfg vf vv h,
  exists vv' h', updateVertexPositions cfg vv h vf = Ok (vv', h').
Proof.
  intros cfg vf. unfold updateVertexPositions.
  induction vf as [|[key f] vf IH]; intros vv h; cbn [foldM].
  - eauto.
  - rewrite moveVertex_eq. cbn [bind]. apply IH.
Qed.

Lemma read_write_same : forall h r v, read (write h r v) r = v.
Proof.
  intros h r v. unfold read, write; simpl.
  destruct (Nat.eq_dec r r); [reflexivity | congruence].
Qed.

Lemma read_write_other : forall h r r' v,
  r' <> r -> read (write h r v) r' = read h r'.
Proof.
  intros h r r' v N. unfold read, write; simpl.
  destruct (Nat.eq_dec r' r); [contradiction | reflexivity].
Qed.

(** ** MeshEvolver: rest lengths *)

Lemma valueMap_get : forall i evs (m : list (nat * R)),
  map_get Nat.eq_dec i
    (fold_left (fun m ev => map_set Nat.eq_dec (edgeId ev) (value ev) m) evs m) =
  fold_left (fun acc ev =>
               if Nat.eq_dec i (edgeId ev) then Some (value ev) else acc)
            evs (map_get Nat.eq_dec i m).
Proof.
  intros i evs. induction evs as [|ev evs IH]; intro m; simpl.
  - reflexivity.
  - rewrite IH. f_equal.
    destruct (Nat.eq_dec i (edgeId ev)) as [E|N].
    + subst i. apply map_get_set_same.
    + apply map_get_set_other. exact N.
Qed.

Lemma passedValue_spec : forall i evs,
  match map_get Nat.eq_dec i
          (fold_left (fun m ev => map_set Nat.eq_dec (edgeId ev) (value ev) m)
                     evs [])
  with Some v => v | None => 0 end = passedValue i evs.
Proof.
  intros i evs. rewrite valueMap_get. reflexivity.
Qed.

Lemma passedValue_fold_calculated : forall changeRate i edges acc,
  ~ In i (map id edges) ->
  fold_left (fun acc ev =>
               if Nat.eq_dec i (edgeId ev) then Some (value ev) else acc)
            (map (fun e => snd (edgeValueOf changeRate e)) edges) acc = acc.
Proof.
  intros changeRate i edges. induction edges as [|e edges IH]; intros acc NI; simpl.
  - reflexivity.
  - simpl in NI. destruct (Nat.eq_dec i (id e)) as [E|N].
    + exfalso. apply NI. left. congruence.
    + apply IH. intro I. apply NI. right. exact I.
Qed.

(** With the records of [calculateEdgeValues] and distinct edge ids, the
    value passed for an edge is the [expandValue] written on it. *)
Lemma passedValue_calculateEdgeValues : forall changeRate edges e,
  NoDup (map id edges) -> In e edges ->
  passedValue (id e) (snd (calculateEdgeValues edges changeRate)) =
  expandValue (fst (edgeValueOf changeRate e)).
Proof.
  intros changeRate edges e ND I. unfold passedValue, calculateEdgeValues.
  cbn [snd].
  assert (G : forall acc,
             fold_left (fun acc ev =>
                          if Nat.eq_dec (id e) (edgeId ev) then Some (value ev) else acc)
                       (map (fun e => snd (edgeValueOf changeRate e)) edges) acc =
             Some (expandValue (fst (edgeValueOf changeRate e)))).
  { induction edges as [|e0 edges IH]; intro acc; [destruct I|].
    simpl in ND. inversion ND as [|? ? NI ND']; subst.
    cbn [map fold_left]. destruct I as [E|I].
    - subst e0. rewrite passedValue_fold_calculated by exact NI.
      unfold edgeValueOf. cbn [edgeId snd fst value expandValue set_expandValue].
      destruct (Nat.eq_dec (id e) (id e)) as [_|N]; [reflexivity | congruence].
    - apply IH; assumption. }
  rewrite G. reflexivity.
Qed.

Lemma passedValue_of_calculated : forall edges0 changeRate i e,
  NoDup (map id edges0) ->
  nth_error (fst (calculateEdgeValues edges0 changeRate)) i = Some e ->
  passedValue (id e) (snd (calculateEdgeValues edges0 changeRate)) = expandValue e.
Proof.
  intros edges0 changeRate i e ND H.
  assert (X : exists e0, nth_error edges0 i = Some e0 /\
                         e = fst (edgeValueOf changeRate e0)).
  { unfold calculateEdgeValues in H. cbn [fst] in H.
    rewrite nth_error_map in H.
    destruct (nth_error edges0 i) as [e0|]; [|discriminate].
    exists e0. split; [reflexivity|]. cbn [option_map] in H. congruence. }
  destruct X as (e0 & N0 & E). rewrite E.
  change (id (fst (edgeValueOf changeRate e0))) with (id e0).
  apply passedValue_calculateEdgeValues; [exact ND|].
  eapply nth_error_In; eassumption.
Qed.

Lemma updateRestLengths_nth : forall edges edgeValues i e,
  nth_error edges i = Some e ->
  nth_error (updateRestLengths edges edgeValues) i =
  Some (let e1 := if falsy (originalLength e)
                  then set_originalLength (Some (length e)) e else e in
        match originalLength e1 with
        | Some original =>
            set_targetLength
              (Some (original * (1 + passedValue (id e) edgeValues / 100))) e1
        | None => e1
        end).
Proof.
  intros edges edgeValues i e H. unfold updateRestLengths.
  rewrite nth_error_map, H. cbn [option_map]. rewrite passedValue_spec.
  reflexivity.
Qed.

(** C1, as the code has it.  [updateRestLengths] captures the baseline once:
    an edge whose [originalLength] is still absent (or 0) gets its current
    [length] as [originalLength]; an edge whose [originalLength] is already
    set keeps it, whatever its current length.  Then [targetLength] is
    [originalLength * (1 + v / 100)], where [v] is the value passed for the
    edge's id (0 when none is passed), which is the edge's [expandValue]
    when the values come from [calculateEdgeValues] over distinct ids. *)
Theorem updateRestLengths_baseline_once :
  forall edges edgeValues i e,
    nth_error edges i = Some e ->
    exists e' original,
      nth_error (updateRestLengths edges edgeValues) i = Some e' /\
      originalLength e' = Some original /\
      (falsy (originalLength e) = true -> original = length e) /\
      (falsy (originalLength e) = false -> originalLength e = Some original) /\
      targetLength e' =
      Some (original * (1 + passedValue (id e) edgeValues / 100)) /\
      (forall edges0 changeRate,
          NoDup (map id edges0) ->
          edges = fst (calculateEdgeValues edges0 changeRate) ->
          edgeValues = snd (calculateEdgeValues edges0 changeRate) ->
          passedValue (id e) edgeValues = expandValue e) /\
      length e' = length e /\ id e' = id e.
Proof.
  intros edges edgeValues i e H.
  pose proof (updateRestLengths_nth edges edgeValues i e H) as U.
  cbv zeta in U.
  assert (L : forall edges0 changeRate,
             NoDup (map id edges0) ->
             edges = fst (calculateEdgeValues edges0 changeRate) ->
             edgeValues = snd (calculateEdgeValues edges0 changeRate) ->
             passedValue (id e) edgeValues = expandValue e).
  { intros edges0 changeRate ND E1 E2. subst edges edgeValues.
    eapply passedValue_of_calculated; eassumption. }
  destruct (falsy (originalLength e)) eqn:F.
  - cbn [originalLength set_originalLength] in U.
    eexists; exists (length e). split; [exact U|].
    repeat split; try reflexivity; try discriminate; exact L.
  - destruct (originalLength e) as [o|] eqn:O; [|discriminate].
    eexists; exists o. split; [exact U|].
    cbn [originalLength set_targetLength targetLength length id].
    repeat split; try reflexivity; try discriminate; try assumption.
Qed.

Lemma updateRestLengths_baseline_once_witness :
  exists e',
    nth_error (updateRestLengths [topEdge] shrinkValues) 0 = Some e' /\
    originalLength e' = Some 2.
Proof.
  destruct (updateRestLengths_baseline_once [topEdge] shrinkValues 0 topEdge eq_refl)
    as (e' & original & H1 & H2 & H3 & _).
  exists e'. split; [exact H1|].
  rewrite H2. f_equal. apply H3. reflexivity.
Defined.

(** ** MeshEvolver: force accumulation *)

Section ForceMaps.
Context {V : Type}.
Variable P : vertexKey * V -> Prop.

Lemma map_set_Forall : forall k v (m : list (vertexKey * V)),
  Forall P m -> P (k, v) -> Forall P (map_set vertexKey_eq_dec k v m).
Proof.
  intros k v m F Hv. induction m as [|[k0 v0] m IH]; simpl.
  - constructor; [exact Hv | constructor].
  - inversion F as [|? ? H0 F']; subst.
    destruct (vertexKey_eq_dec k k0).
    + subst k0. constructor; [exact Hv | exact F'].
    + constructor; [exact H0 | apply IH; exact F'].
Qed.

Lemma map_get_Forall : forall k v (m : list (vertexKey * V)),
  Forall P m -> map_get vertexKey_eq_dec k m = Some v -> P (k, v).
Proof.
  intros k v m F. induction m as [|[k0 v0] m IH]; simpl; [discriminate|].
  inversion F as [|? ? H0 F']; subst.
  destruct (vertexKey_eq_dec k k0).
  - intro E. inversion E; subst. exact H0.
  - apply IH. exact F'.
Qed.

Lemma map_get_In : forall k v (m : list (vertexKey * V)),
  NoDup (map fst m) -> In (k, v) m -> map_get vertexKey_eq_dec k m = Some v.
Proof.
  intros k v m. induction m as [|[k0 v0] m IH]; simpl; intros ND I; [destruct I|].
  inversion ND as [|? ? NI ND']; subst.
  destruct I as [E|I].
  - inversion E; subst. destruct (vertexKey_eq_dec k k); congruence.
  - destruct (vertexKey_eq_dec k k0) as [E|N].
    + subst k0. exfalso. apply NI. apply (in_map fst) in I. exact I.
    + apply IH; assumption.
Qed.

Lemma map_set_NoDup : forall k v (m : list (vertexKey * V)),
  NoDup (map fst m) -> NoDup (map fst (map_set vertexKey_eq_dec k v m)).
Proof.
  intros k v m ND.
  destruct (map_get vertexKey_eq_dec k m) eqn:G.
  - rewrite map_set_keys_present by congruence. exact ND.
  - rewrite map_set_keys_absent by exact G.
    apply NoDup_app; [exact ND | repeat constructor; intros [] |].
    intros a Ia [E|[]]. subst a.
    apply (map_get_None_keys vertexKey_eq_dec k m) in G. contradiction.
Qed.
End ForceMaps.

Lemma map_get_set_present : forall (V : Type) k k' (v : V) m,
  map_get vertexKey_eq_dec k m <> None ->
  map_get vertexKey_eq_dec k (map_set vertexKey_eq_dec k' v m) <> None.
Proof.
  intros V k k' v m H. destruct (vertexKey_eq_dec k k') as [E|N].
  - subst k'. rewrite map_get_set_same. discriminate.
  - rewrite map_get_set_other by exact N. exact H.
Qed.

Lemma initForces_fold : forall h edges,
  initForces h edges = fold_left (initStep h) edges [].
Proof. reflexivity. Qed.

Lemma initStep_keeps : forall h vf e k,
  map_get vertexKey_eq_dec k vf <> None ->
  map_get vertexKey_eq_dec k (initStep h vf e) <> None.
Proof.
  intros h vf e k H. unfold initStep. cbv zeta.
  repeat match goal with
         | |- context [if ?b then _ else _] => destruct b
         end; repeat apply map_get_set_present; exact H.
Qed.

Lemma map_has_true : forall (V : Type) k (m : list (vertexKey * V)),
  map_has vertexKey_eq_dec k m = true -> map_get vertexKey_eq_dec k m <> None.
Proof.
  intros V k m. unfold map_has.
  destruct (map_get vertexKey_eq_dec k m); [discriminate | discriminate].
Qed.

Lemma initStep_adds : forall h vf e, keysPresent h (initStep h vf e) e.
Proof.
  intros h vf e. unfold keysPresent, initStep. cbv zeta.
  set (kS := getVertexKey (read h (start e))).
  set (kE := getVertexKey (read h (end_ e))).
  set (vf1 := if map_has vertexKey_eq_dec kS vf then vf
              else map_set vertexKey_eq_dec kS (mkForce 0 0 (start e)) vf).
  assert (A : map_get vertexKey_eq_dec kS vf1 <> None).
  { subst vf1. destruct (map_has vertexKey_eq_dec kS vf) eqn:S.
    - apply map_has_true. exact S.
    - rewrite map_get_set_same. discriminate. }
  destruct (map_has vertexKey_eq_dec kE vf1) eqn:E.
  - split; [exact A | apply map_has_true; exact E].
  - split; [apply map_get_set_present; exact A|].
    rewrite map_get_set_same. discriminate.
Qed.

Lemma initStep_entries : forall h vf e (P : vertexKey * force -> Prop),
  Forall P vf ->
  P (getVertexKey (read h (start e)), mkForce 0 0 (start e)) ->
  P (getVertexKey (read h (end_ e)), mkForce 0 0 (end_ e)) ->
  Forall P (initStep h vf e).
Proof.
  intros h vf e P F Ps Pe. unfold initStep. cbv zeta.
  repeat match goal with
         | |- context [if ?b then _ else _] => destruct b
         end;
    repeat (apply map_set_Forall; [|assumption]); exact F.
Qed.

Lemma initStep_NoDup : forall h vf e,
  NoDup (map fst vf) -> NoDup (map fst (initStep h vf e)).
Proof.
  intros h vf e ND. unfold initStep. cbv zeta.
  repeat match goal with
         | |- context [if ?b then _ else _] => destruct b
         end;
    repeat apply map_set_NoDup; exact ND.
Qed.

Lemma initForces_invariant : forall h edges vf0,
  let vf := fold_left (initStep h) edges vf0 in
  (forall k, map_get vertexKey_eq_dec k vf0 <> None ->
             map_get vertexKey_eq_dec k vf <> None) /\
  (forall e, In e edges -> keysPresent h vf e) /\
  (NoDup (map fst vf0) -> NoDup (map fst vf)) /\
  (forall P : vertexKey * force -> Prop,
      Forall P vf0 ->
      (forall e, In e edges ->
                 P (getVertexKey (read h (start e)), mkForce 0 0 (start e)) /\
                 P (getVertexKey (read h (end_ e)), mkForce 0 0 (end_ e))) ->
      Forall P vf).
Proof.
  intros h edges. induction edges as [|e edges IH]; intro vf0; cbn [fold_left].
  - split; [|split; [|split]]; auto. intros e [].
  - destruct (IH (initStep h vf0 e)) as (K & P & N & V).
    split; [|split; [|split]].
    + intros k H. apply K. apply initStep_keeps. exact H.
    + intros e' [E|I].
      * subst e'. pose proof (initStep_adds h vf0 e) as [A B].
        split; apply K; assumption.
      * apply P. exact I.
    + intro ND. apply N. apply initStep_NoDup. exact ND.
    + intros Q F A. apply V.
      * apply initStep_entries; [exact F | apply A; left; reflexivity
                                | apply A; left; reflexivity].
      * intros e' I. apply A. right. exact I.
Qed.

Lemma divide_Ok : forall a b, b <> 0 -> divide a b = Ok (a / b).
Proof.
  intros a b N. unfold divide.
  destruct (Req_dec_T b 0); [contradiction | reflexivity].
Qed.

Lemma addEdgeForce_zero : forall cfg h vf e,
  currentLength h e = 0 -> addEdgeForce cfg h vf e = Ok vf.
Proof.
  intros cfg h vf e Z. unfold addEdgeForce. cbv zeta.
  unfold currentLength in Z. cbv zeta in Z. rewrite Z.
  rewrite Reqb_true by reflexivity. reflexivity.
Qed.

Lemma addEdgeForce_no_division_by_zero : forall cfg h vf e,
  addEdgeForce cfg h vf e <> Err DivisionByZero.
Proof.
  intros cfg h vf e. unfold addEdgeForce. cbv zeta.
  match goal with |- context [Reqb ?l 0] => destruct (Reqb l 0) eqn:Z end;
    [discriminate|].
  assert (N : forall a b, Reqb a b = false -> a <> b).
  { intros a b F E. rewrite (Reqb_true _ _ E) in F. discriminate. }
  apply N in Z. rewrite !divide_Ok by exact Z. cbn [bind].
  repeat match goal with
         | |- context [defined ?o] => destruct o; cbn [defined bind]
         end; discriminate.
Qed.

Lemma shape_map_set : forall k v v0 (m : forces),
  map_get vertexKey_eq_dec k m = Some v0 ->
  force_vertex v = force_vertex v0 ->
  shape (map_set vertexKey_eq_dec k v m) = shape m.
Proof.
  intros k v v0 m. unfold shape.
  induction m as [|[k1 v1] m IH]; simpl; intros G E; [discriminate|].
  destruct (vertexKey_eq_dec k k1) as [K|K]; simpl.
  - inversion G; subst. rewrite E. reflexivity.
  - f_equal. apply IH; assumption.
Qed.

Lemma shape_keys : forall vf, map fst (shape vf) = map fst vf.
Proof.
  intro vf. unfold shape. rewrite map_map. reflexivity.
Qed.

Lemma shape_present : forall vf vf' k,
  shape vf' = shape vf ->
  map_get vertexKey_eq_dec k vf <> None ->
  map_get vertexKey_eq_dec k vf' <> None.
Proof.
  intros vf vf' k S H G. apply H.
  apply (map_get_None_keys vertexKey_eq_dec k vf).
  apply (map_get_None_keys vertexKey_eq_dec k vf') in G.
  rewrite <- shape_keys, <- S, shape_keys. exact G.
Qed.

(** With both keys of the edge present, the loop body succeeds and leaves
    the keys and the vertex of every accumulator as they were. *)
Lemma addEdgeForce_shape : forall cfg h vf e,
  keysPresent h vf e ->
  exists vf', addEdgeForce cfg h vf e = Ok vf' /\ shape vf' = shape vf.
Proof.
  intros cfg h vf e [PS PE]. unfold addEdgeForce. cbv zeta.
  match goal with |- context [Reqb ?l 0] => destruct (Reqb l 0) eqn:Z end.
  - exists vf. auto.
  - assert (N : forall a b, Reqb a b = false -> a <> b).
    { intros a b F E. rewrite (Reqb_true _ _ E) in F. discriminate. }
    apply N in Z. rewrite !divide_Ok by exact Z. cbn [bind].
    destruct (map_get vertexKey_eq_dec (getVertexKey (read h (start e))) vf)
      as [sf|] eqn:GS; [|congruence].
    destruct (map_get vertexKey_eq_dec (getVertexKey (read h (end_ e))) vf)
      as [ef|] eqn:GE; [|congruence].
    cbn [defined bind].
    match goal with
    | |- context [defined (map_get vertexKey_eq_dec ?k ?m)] =>
        destruct (map_get vertexKey_eq_dec k m) as [ef'|] eqn:GE'
    end.
    + cbn [defined bind]. eexists. split; [reflexivity|].
      rewrite (shape_map_set _ _ ef') by (exact GE' || reflexivity).
      apply (shape_map_set _ _ sf); [exact GS | reflexivity].
    + exfalso. revert GE'. apply map_get_set_present. rewrite GE. discriminate.
Qed.

Lemma accumulate_total : forall cfg h edges vf,
  (forall e, In e edges -> keysPresent h vf e) ->
  exists vf',
    foldM (addEdgeForce cfg h) edges vf = Ok vf' /\ shape vf' = shape vf.
Proof.
  intros cfg h edges. induction edges as [|e edges IH]; intros vf P; cbn [foldM].
  - exists vf. auto.
  - destruct (addEdgeForce_shape cfg h vf e (P e (or_introl eq_refl)))
      as (vf1 & A & S).
    rewrite A. cbn [bind].
    destruct (IH vf1) as (vf' & B & S').
    + intros e' I. destruct (P e' (or_intror I)) as [PS PE].
      split; eapply shape_present; eassumption.
    + exists vf'. split; [exact B | congruence].
Qed.

Lemma updateVertexPositions_frame : forall cfg vf vv h vv' h',
  updateVertexPositions cfg vv h vf = Ok (vv', h') ->
  forall r, Forall (fun kv => force_vertex (snd kv) <> r) vf ->
            read h' r = read h r.
Proof.
  intros cfg vf. unfold updateVertexPositions.
  induction vf as [|[k f] vf IH]; intros vv h vv' h' H r F; cbn [foldM] in H.
  - inversion H; subst. reflexivity.
  - rewrite moveVertex_eq in H. cbn [bind] in H.
    inversion F as [|? ? N F']; subst. cbn [snd] in N.
    rewrite (IH _ _ _ _ H r F'). apply read_write_other. congruence.
Qed.

(** The three stages of [applySpringForcesToEdges] all succeed; the
    accumulators have distinct keys, and each one names an endpoint object
    of an edge under the key of that object's position before the move. *)
Lemma applySpringForcesToEdges_stages : forall cfg vv h edges,
  exists vf vv' h',
    foldM (addEdgeForce cfg h) edges (initForces h edges) = Ok vf /\
    NoDup (map fst vf) /\
    Forall (fun kr => fst kr = getVertexKey (read h (snd kr)) /\
                      endpointOf edges (snd kr)) (shape vf) /\
    updateVertexPositions cfg vv h vf = Ok (vv', h') /\
    applySpringForcesToEdges cfg vv h edges =
    Ok (vv', h', map (refreshLength h') edges).
Proof.
  intros cfg vv h edges.
  destruct (initForces_invariant h edges []) as (_ & P & N & V).
  destruct (accumulate_total cfg h edges (initForces h edges) P)
    as (vf & A & S).
  destruct (updateVertexPositions_total cfg vf vv h) as (vv' & h' & U).
  exists vf, vv', h'. split; [exact A|]. split; [|split; [|split; [exact U|]]].
  - rewrite <- shape_keys, S, shape_keys. apply N. constructor.
  - rewrite S. unfold shape. apply Forall_map.
    apply (V (fun kv => fst kv = getVertexKey (read h (force_vertex (snd kv))) /\
                        endpointOf edges (force_vertex (snd kv)))); [constructor|].
    intros e I. cbn [fst snd force_vertex].
    split; (split; [reflexivity | exists e; auto]).
  - unfold applySpringForcesToEdges. rewrite A. cbn [bind]. rewrite U.
    reflexivity.
Qed.

(** C9. An edge whose current length is zero leaves every force
    accumulator as it was; the loop body never divides by zero, because the
    only denominator is the current length and the body is left before the
    division when that is zero; and the whole of
    [applySpringForcesToEdges] runs to its end on every input. *)
Theorem zero_length_edge_contributes_no_force :
  forall cfg vv h edges,
    (forall vf e, currentLength h e = 0 -> addEdgeForce cfg h vf e = Ok vf) /\
    (forall vf e, addEdgeForce cfg h vf e <> Err DivisionByZero) /\
    (exists r, applySpringForcesToEdges cfg vv h edges = Ok r).
Proof.
  intros cfg vv h edges. split; [|split].
  - intros vf e. apply addEdgeForce_zero.
  - intros vf e. apply addEdgeForce_no_division_by_zero.
  - destruct (applySpringForcesToEdges_stages cfg vv h edges)
      as (vf & vv' & h' & _ & _ & _ & _ & R).
    eexists. exact R.
Qed.

Lemma zero_length_edge_contributes_no_force_witness :
  addEdgeForce defaultConfig (heap_of [mkVertex 1 1; mkVertex 1 1])
               [] (newEdge 0%nat 0%nat 1%nat 0) = Ok [].
Proof.
  destruct (zero_length_edge_contributes_no_force
              defaultConfig [] (heap_of [mkVertex 1 1; mkVertex 1 1]) [])
    as (Z & _ & _).
  apply Z. unfold currentLength. simpl.
  replace ((1 - 1) * (1 - 1) + (1 - 1) * (1 - 1)) with 0 by lra.
  apply sqrt_0.
Defined.

Lemma updateRestLengths_frame : forall edges edgeValues i e,
  nth_error edges i = Some e ->
  exists e',
    nth_error (updateRestLengths edges edgeValues) i = Some e' /\
    id e' = id e /\ start e' = start e /\ end_ e' = end_ e /\
    connectedEdges e' = connectedEdges e /\
    connectedCells e' = connectedCells e /\
    acuteAngleCount e' = acuteAngleCount e /\
    expandValue e' = expandValue e.
Proof.
  intros edges edgeValues i e H.
  rewrite (updateRestLengths_nth edges edgeValues i e H). cbv zeta.
  eexists. split; [reflexivity|].
  destruct (falsy (originalLength e));
    [cbn [originalLength set_originalLength]
    | destruct (originalLength e)]; repeat split.
Qed.

Lemma updateRestLengths_endpoints : forall edges edgeValues r,
  endpointOf (updateRestLengths edges edgeValues) r -> endpointOf edges r.
Proof.
  intros edges edgeValues r (e' & I & E).
  apply In_nth_error in I. destruct I as (i & N).
  destruct (nth_error edges i) as [e|] eqn:NE.
  - destruct (updateRestLengths_frame edges edgeValues i e NE)
      as (e2 & N2 & _ & S & T & _).
    rewrite N in N2. inversion N2; subst e2.
    exists e. split; [eapply nth_error_In; eassumption|].
    rewrite <- S, <- T. exact E.
  - exfalso. unfold updateRestLengths in N.
    rewrite nth_error_map, NE in N. discriminate.
Qed.

(** C10. A pass over the edges succeeds and yields as many edges as it was
    given; the edge at each position keeps its [id], its endpoint objects,
    [connectedEdges], [connectedCells], [acuteAngleCount] and
    [expandValue]; and the only objects of the heap whose coordinates may
    have changed are endpoints of the given edges. *)
Theorem applyEdgeValues_frame :
  forall cfg vv h edges edgeValues,
    exists vv' h' edges',
      applyEdgeValues cfg vv h edges edgeValues = Ok (vv', h', edges') /\
      List.length edges' = List.length edges /\
      (forall i e,
          nth_error edges i = Some e ->
          exists e',
            nth_error edges' i = Some e' /\
            id e' = id e /\ start e' = start e /\ end_ e' = end_ e /\
            connectedEdges e' = connectedEdges e /\
            connectedCells e' = connectedCells e /\
            acuteAngleCount e' = acuteAngleCount e /\
            expandValue e' = expandValue e) /\
      (forall r, ~ endpointOf edges r -> read h' r = read h r).
Proof.
  intros cfg vv h edges edgeValues. unfold applyEdgeValues.
  destruct (applySpringForcesToEdges_stages cfg vv h
              (updateRestLengths edges edgeValues))
    as (vf & vv' & h' & _ & _ & F & U & R).
  exists vv', h', (map (refreshLength h') (updateRestLengths edges edgeValues)).
  split; [exact R|]. split; [|split].
  - unfold updateRestLengths. rewrite !length_map. reflexivity.
  - intros i e H.
    destruct (updateRestLengths_frame edges edgeValues i e H)
      as (e1 & N1 & P).
    exists (refreshLength h' e1). split; [|exact P].
    rewrite nth_error_map, N1. reflexivity.
  - intros r NE. eapply updateVertexPositions_frame; [exact U|].
    unfold shape in F. rewrite Forall_map in F.
    eapply Forall_impl; [|exact F].
    intros [k f] [_ E] C. cbn [fst snd] in *. apply NE.
    apply updateRestLengths_endpoints with (edgeValues := edgeValues).
    rewrite <- C. exact E.
Qed.

Lemma applyEdgeValues_frame_witness :
  exists vv' h' edges',
    applyEdgeValues defaultConfig [] topHeap [topEdge] shrinkValues =
    Ok (vv', h', edges') /\
    List.length edges' = 1%nat /\
    read h' 2%nat = read topHeap 2%nat.
Proof.
  destruct (applyEdgeValues_frame defaultConfig [] topHeap [topEdge] shrinkValues)
    as (vv' & h' & edges' & A & L & _ & F).
  exists vv', h', edges'. split; [exact A|]. split; [exact L|].
  apply F. intros (e & [E|[]] & [S|S]); subst e; discriminate S.
Defined.

(** ** MeshEvolver: the velocity store *)

Lemma moveVertex_velocities : forall cfg vv h k f vv1 h1,
  moveVertex cfg (vv, h) (k, f) = Ok (vv1, h1) ->
  map_get vertexKey_eq_dec k vv1 = Some (stepVelocity cfg (startingVelocity k vv) f) /\
  (forall k', k' <> k ->
              map_get vertexKey_eq_dec k' vv1 = map_get vertexKey_eq_dec k' vv).
Proof.
  intros cfg vv h k f vv1 h1 H. rewrite moveVertex_eq in H.
  inversion H; subst vv1 h1; clear H. split.
  - rewrite map_get_set_same. reflexivity.
  - intros k' N. rewrite map_get_set_other by exact N.
    destruct (map_has vertexKey_eq_dec k vv); [reflexivity|].
    apply map_get_set_other. exact N.
Qed.

Lemma updateVertexPositions_velocities : forall cfg vf vv h vv' h',
  NoDup (map fst vf) ->
  updateVertexPositions cfg vv h vf = Ok (vv', h') ->
  (forall k f, In (k, f) vf ->
               map_get vertexKey_eq_dec k vv' =
               Some (stepVelocity cfg (startingVelocity k vv) f)) /\
  (forall k, ~ In k (map fst vf) ->
             map_get vertexKey_eq_dec k vv' = map_get vertexKey_eq_dec k vv).
Proof.
  intros cfg vf. unfold updateVertexPositions.
  induction vf as [|[k0 f0] vf IH]; intros vv h vv' h' ND H; cbn [foldM] in H.
  - inversion H; subst. split; [intros k f [] | reflexivity].
  - destruct (moveVertex cfg (vv, h) (k0, f0)) as [[vv1 h1]|] eqn:M;
      cbn [bind] in H; [|discriminate].
    destruct (moveVertex_velocities _ _ _ _ _ _ _ M) as [Same Other].
    cbn [map fst] in ND. inversion ND as [|? ? NI ND']; subst.
    destruct (IH vv1 h1 vv' h' ND' H) as [In' Out']. split.
    + intros k f [E|I].
      * inversion E; subst. rewrite Out' by exact NI. exact Same.
      * rewrite (In' k f I). unfold startingVelocity.
        rewrite Other; [reflexivity|].
        intro E. subst k0. apply NI. apply (in_map fst) in I. exact I.
    + intros k NI'. cbn [map fst] in NI'.
      rewrite Out' by (intro I; apply NI'; right; exact I).
      apply Other. intro E. apply NI'. left. congruence.
Qed.

(** C3, as the code has it.  The velocity store is keyed by position: the
    velocity a step computes for a vertex is stored under the key printed
    from the position the vertex had before the move, and starts from
    whatever the store held under that key.  The next step looks the vertex
    up under the key of its new position: it finds the velocity computed for
    it when the key is unchanged, and starts from zero when the new key is
    one that neither this step nor the store has seen. *)
Theorem velocity_store_keyed_by_position :
  forall cfg vv h edges,
    exists vf vv' h' edges',
      foldM (addEdgeForce cfg h) edges (initForces h edges) = Ok vf /\
      applySpringForcesToEdges cfg vv h edges = Ok (vv', h', edges') /\
      (forall k f,
          In (k, f) vf ->
          let computed := stepVelocity cfg (startingVelocity k vv) f in
          let k' := getVertexKey (read h' (force_vertex f)) in
          k = getVertexKey (read h (force_vertex f)) /\
          map_get vertexKey_eq_dec k vv' = Some computed /\
          (k' = k -> startingVelocity k' vv' = computed) /\
          (~ In k' (map fst vf) -> map_get vertexKey_eq_dec k' vv = None ->
           startingVelocity k' vv' = mkVelocity 0 0)) /\
      (forall k, ~ In k (map fst vf) ->
                 map_get vertexKey_eq_dec k vv' = map_get vertexKey_eq_dec k vv).
Proof.
  intros cfg vv h edges.
  destruct (applySpringForcesToEdges_stages cfg vv h edges)
    as (vf & vv' & h' & A & ND & F & U & R).
  destruct (updateVertexPositions_velocities cfg vf vv h vv' h' ND U)
    as [Inside Outside].
  exists vf, vv', h', (map (refreshLength h') edges).
  split; [exact A|]. split; [exact R|]. split; [|exact Outside].
  intros k f I computed k'.
  unfold shape in F. rewrite Forall_map in F. rewrite Forall_forall in F.
  destruct (F (k, f) I) as [K _]. cbn [fst snd] in K.
  split; [exact K|]. split; [apply Inside; exact I|]. split.
  - intro E. unfold startingVelocity. rewrite E, (Inside k f I). reflexivity.
  - intros NI G. unfold startingVelocity. rewrite (Outside k' NI), G.
    reflexivity.
Qed.

Lemma velocity_store_keyed_by_position_witness :
  exists vf vv' h' edges',
    foldM (addEdgeForce defaultConfig topHeap) [topEdge]
          (initForces topHeap [topEdge]) = Ok vf /\
    applySpringForcesToEdges defaultConfig [] topHeap [topEdge] =
    Ok (vv', h', edges') /\
    forall k f, In (k, f) vf ->
                map_get vertexKey_eq_dec k vv' =
                Some (stepVelocity defaultConfig (startingVelocity k []) f).
Proof.
  destruct (velocity_store_keyed_by_position defaultConfig [] topHeap [topEdge])
    as (vf & vv' & h' & edges' & A & R & Inside & _).
  exists vf, vv', h', edges'. split; [exact A|]. split; [exact R|].
  intros k f I. apply (Inside k f I).
Defined.

(** ** MeshEvolver: a pass over one edge *)

Ltac decide_keys :=
  repeat match goal with
         | |- context [vertexKey_eq_dec ?a ?b] =>
             destruct (vertexKey_eq_dec a b);
             [try (exfalso; congruence) | try (exfalso; congruence)]
         end.

Lemma applySpringForces_single_raw : forall cfg h e,
  let s := read h (start e) in
  let t := read h (end_ e) in
  let kS := getVertexKey s in
  let kE := getVertexKey t in
  let dx := x t - x s in
  let dy := y t - y s in
  let L := sqrt (dx * dx + dy * dy) in
  let m := springConstant cfg * (L - or_else (targetLength e) (length e)) in
  let fx := dx / L * m in
  let fy := dy / L * m in
  let vS := mkVelocity ((0 + (0 + fx) * timeStep cfg) * dampingFactor cfg)
                       ((0 + (0 + fy) * timeStep cfg) * dampingFactor cfg) in
  let vE := mkVelocity ((0 + (0 - fx) * timeStep cfg) * dampingFactor cfg)
                       ((0 + (0 - fy) * timeStep cfg) * dampingFactor cfg) in
  let pS := mkVertex (wrapCoordinate (x s + velocity_x vS * timeStep cfg) (-8) 8)
                     (wrapCoordinate (y s + velocity_y vS * timeStep cfg) (-6) 6) in
  let pE := mkVertex (wrapCoordinate (x t + velocity_x vE * timeStep cfg) (-8) 8)
                     (wrapCoordinate (y t + velocity_y vE * timeStep cfg) (-6) 6) in
  let h' := write (write h (start e) pS) (end_ e) pE in
  kS <> kE -> L <> 0 ->
  applySpringForcesToEdges cfg [] h [e] =
  Ok ([(kS, vS); (kE, vE)], h', [refreshLength h' e]).
Proof.
  intros cfg h e s t kS kE dx dy L m fx fy vS vE pS pE h' NK NL.
  assert (NR : start e <> end_ e).
  { intro E. apply NK. unfold kS, kE, s, t. rewrite E. reflexivity. }
  assert (NK' : kE <> kS) by congruence.
  unfold applySpringForcesToEdges.
  assert (I : initForces h [e] =
              [(kS, mkForce 0 0 (start e)); (kE, mkForce 0 0 (end_ e))]).
  { unfold initForces, initStep. cbn [fold_left]. fold s t. fold kS kE.
    unfold map_has. cbn [map_get map_set]. decide_keys. cbn [map_get].
    decide_keys. reflexivity. }
  rewrite I. cbn [foldM].
  assert (F : addEdgeForce cfg h
                [(kS, mkForce 0 0 (start e)); (kE, mkForce 0 0 (end_ e))] e =
              Ok [(kS, mkForce (0 + fx) (0 + fy) (start e));
                  (kE, mkForce (0 - fx) (0 - fy) (end_ e))]).
  { unfold addEdgeForce. fold s t. fold kS kE. fold dx dy. fold L.
    rewrite (Reqb_false _ _ NL). rewrite !divide_Ok by exact NL.
    cbn [bind map_get map_set]. decide_keys.
    cbn [defined bind map_get map_set force_x force_y force_vertex]. decide_keys.
    cbn [defined bind map_get map_set force_x force_y force_vertex]. decide_keys.
    reflexivity. }
  rewrite F. cbn [bind].
  unfold updateVertexPositions. cbn [foldM].
  rewrite moveVertex_eq.
  cbn [bind map_get map_has map_set force_x force_y force_vertex velocity_x velocity_y].
  decide_keys.
  rewrite moveVertex_eq.
  cbn [bind map_get map_has map_set force_x force_y force_vertex velocity_x velocity_y].
  decide_keys.
  unfold map_has. cbn [map_get]. decide_keys. cbn [map_get map_set]. decide_keys.
  cbn [bind map_get map_set force_x force_y force_vertex velocity_x velocity_y fst snd map].
  rewrite (read_write_other h (start e) (end_ e)) by congruence.
  reflexivity.
Qed.

(** One pass over a mesh of a single edge whose endpoints have different
    keys, from an empty velocity store. *)
Lemma applySpringForces_single : forall cfg h e sx sy tx ty L T fx fy,
  read h (start e) = mkVertex sx sy ->
  read h (end_ e) = mkVertex tx ty ->
  getVertexKey (mkVertex sx sy) <> getVertexKey (mkVertex tx ty) ->
  sqrt ((tx - sx) * (tx - sx) + (ty - sy) * (ty - sy)) = L ->
  L <> 0 ->
  or_else (targetLength e) (length e) = T ->
  (tx - sx) / L * (springConstant cfg * (L - T)) = fx ->
  (ty - sy) / L * (springConstant cfg * (L - T)) = fy ->
  let d := timeStep cfg * dampingFactor cfg * timeStep cfg in
  exists vv' h',
    applySpringForcesToEdges cfg [] h [e] = Ok (vv', h', [refreshLength h' e]) /\
    vv' = [(getVertexKey (mkVertex sx sy),
            mkVelocity (fx * timeStep cfg * dampingFactor cfg)
                       (fy * timeStep cfg * dampingFactor cfg));
           (getVertexKey (mkVertex tx ty),
            mkVelocity (- fx * timeStep cfg * dampingFactor cfg)
                       (- fy * timeStep cfg * dampingFactor cfg))] /\
    read h' (start e) = mkVertex (wrapCoordinate (sx + fx * d) (-8) 8)
                                 (wrapCoordinate (sy + fy * d) (-6) 6) /\
    read h' (end_ e) = mkVertex (wrapCoordinate (tx - fx * d) (-8) 8)
                                (wrapCoordinate (ty - fy * d) (-6) 6).
Proof.
  intros cfg h e sx sy tx ty L T fx fy Hs Ht NK HL NL HT Hfx Hfy d.
  pose proof (applySpringForces_single_raw cfg h e) as P. cbv zeta in P.
  rewrite Hs, Ht in P. cbn [x y velocity_x velocity_y] in P.
  rewrite HL, HT, Hfx, Hfy in P. specialize (P NK NL).
  assert (NR : start e <> end_ e).
  { intro E. apply NK. rewrite <- Hs, <- Ht, E. reflexivity. }
  eexists; eexists. split; [exact P|]. split; [|split].
  - repeat first [ring | progress f_equal].
  - rewrite read_write_other by exact NR. rewrite read_write_same.
    subst d. f_equal; f_equal; ring.
  - rewrite read_write_same. subst d. f_equal; f_equal; ring.
Qed.

Lemma toFixed6_nonneg : forall a n,
  0 <= a -> IZR n <= a * 1000000 + / 2 < IZR n + 1 ->
  toFixed6 a = mkFixed false n.
Proof.
  intros a n P B. unfold toFixed6. destruct (Rlt_dec a 0); [lra|].
  f_equal. apply Zfloor_eq. exact B.
Qed.

Lemma topEdge_rested :
  updateRestLengths [topEdge] shrinkValues =
  [set_targetLength (Some (2 * (1 + -5 / 100)))
                    (set_originalLength (Some 2) topEdge)].
Proof. reflexivity. Qed.

Lemma topEdge_keys_differ :
  getVertexKey (mkVertex 0 6) <> getVertexKey (mkVertex 2 6).
Proof.
  unfold getVertexKey. cbn [x y].
  rewrite (toFixed6_nonneg 0 0) by lra.
  rewrite (toFixed6_nonneg 2 2000000) by lra.
  intro H. inversion H.
Qed.

(** The first generation of the top edge: both endpoints move towards each
    other along the side [y = 6] of the domain. *)
Lemma topEdge_pass :
  exists vv' h' e',
    applyEdgeValues defaultConfig [] topHeap [topEdge] shrinkValues =
    Ok (vv', h', [e']) /\
    vv' = [(getVertexKey (mkVertex 0 6), mkVelocity (255 / 100000) 0);
           (getVertexKey (mkVertex 2 6), mkVelocity (- (255 / 100000)) 0)] /\
    read h' 0%nat = mkVertex (255 / 1000000) 6 /\
    read h' 1%nat = mkVertex (1999745 / 1000000) 6 /\
    id e' = 0%nat /\
    originalLength e' = Some 2 /\
    length e' = 199949 / 100000.
Proof.
  unfold applyEdgeValues. rewrite topEdge_rested.
  set (e1 := set_targetLength (Some (2 * (1 + -5 / 100)))
                              (set_originalLength (Some 2) topEdge)).
  destruct (applySpringForces_single defaultConfig topHeap e1
              0 6 2 6 2 (19 / 10) (3 / 100) 0)
    as (vv' & h' & A & V & RS & RE).
  - reflexivity.
  - reflexivity.
  - exact topEdge_keys_differ.
  - replace ((2 - 0) * (2 - 0) + (6 - 6) * (6 - 6)) with (2 * 2) by lra.
    apply sqrt_square. lra.
  - lra.
  - cbn [e1 targetLength set_targetLength or_else].
    rewrite Reqb_false by lra. lra.
  - cbn [springConstant defaultConfig]. lra.
  - cbn [springConstant defaultConfig]. lra.
  - cbn [e1 start end_ set_targetLength set_originalLength topEdge newEdge] in RS, RE.
    cbn [timeStep dampingFactor defaultConfig] in V, RS, RE.
    rewrite wrapCoordinate_inside in RS by lra.
    rewrite wrapCoordinate_inside in RS by lra.
    rewrite wrapCoordinate_inside in RE by lra.
    rewrite wrapCoordinate_inside in RE by lra.
    exists vv', h', (refreshLength h' e1).
    split; [exact A|]. split; [|split; [|split; [|split; [|split]]]].
    + rewrite V. repeat first [lra | progress f_equal].
    + rewrite RS. f_equal; lra.
    + rewrite RE. f_equal; lra.
    + reflexivity.
    + reflexivity.
    + unfold refreshLength. cbn [length set_length].
      cbn [e1 start end_ set_targetLength set_originalLength topEdge newEdge].
      rewrite RS, RE. cbn [x y].
      replace ((2 - 3 / 100 * (1 / 10 * (85 / 100) * (1 / 10)) -
                (0 + 3 / 100 * (1 / 10 * (85 / 100) * (1 / 10)))) *
               (2 - 3 / 100 * (1 / 10 * (85 / 100) * (1 / 10)) -
                (0 + 3 / 100 * (1 / 10 * (85 / 100) * (1 / 10)))) +
               (6 - 0 * (1 / 10 * (85 / 100) * (1 / 10)) -
                (6 + 0 * (1 / 10 * (85 / 100) * (1 / 10)))) *
               (6 - 0 * (1 / 10 * (85 / 100) * (1 / 10)) -
                (6 + 0 * (1 / 10 * (85 / 100) * (1 / 10)))))
        with (199949 / 100000 * (199949 / 100000)) by field.
      apply sqrt_square. lra.
Qed.

Lemma updateRestLengths_single : forall e edgeValues,
  exists z,
    updateRestLengths [e] edgeValues = [z] /\
    nth_error (updateRestLengths [e] edgeValues) 0 = Some z.
Proof.
  intros e edgeValues. unfold updateRestLengths. cbn [map].
  eexists. split; reflexivity.
Qed.

(** ** Where the code departs from the specification *)

(** C1 fails on the code.  After the first generation the top edge has
    length 1.99949; the second generation keeps the baseline 2 captured in
    the first one instead of taking the current length. *)
Lemma baseline_kept_in_second_generation :
  exists vv' h' e' e'',
    applyEdgeValues defaultConfig [] topHeap [topEdge] shrinkValues =
    Ok (vv', h', [e']) /\
    length e' = 199949 / 100000 /\
    updateRestLengths [e'] shrinkValues = [e''] /\
    originalLength e'' = Some 2 /\
    originalLength e'' <> Some (length e').
Proof.
  destruct topEdge_pass as (vv' & h' & e' & A & _ & _ & _ & I & O & L).
  pose proof (updateRestLengths_nth [e'] shrinkValues 0 e' eq_refl) as U.
  cbv zeta in U. rewrite O in U. cbn [falsy] in U.
  rewrite Reqb_false in U by lra. rewrite O in U.
  destruct (updateRestLengths_single e' shrinkValues) as (z & Z1 & Z2).
  rewrite U in Z2. injection Z2 as Z2. subst z.
  exists vv', h', e'. eexists.
  split; [exact A|]. split; [exact L|]. split; [exact Z1|].
  cbn [originalLength set_targetLength]. split; [exact O|].
  rewrite O, L. intro E. inversion E. lra.
Qed.

Lemma toFixed6_small : toFixed6 (255 / 1000000) = mkFixed false 255.
Proof. apply toFixed6_nonneg; lra. Qed.

(** C3 fails on the code.  The first generation computes the velocity
    (0.00255, 0) for the start vertex of the top edge and stores it under
    the key of (0, 6); the vertex moves to (0.000255, 6), whose key is not
    in the store, so the next generation starts it from zero. *)
Lemma velocity_lost_when_vertex_moves :
  exists vv' h' es',
    applyEdgeValues defaultConfig [] topHeap [topEdge] shrinkValues =
    Ok (vv', h', es') /\
    map_get vertexKey_eq_dec (getVertexKey (read topHeap 0%nat)) vv' =
    Some (mkVelocity (255 / 100000) 0) /\
    read h' 0%nat = mkVertex (255 / 1000000) 6 /\
    map_get vertexKey_eq_dec (getVertexKey (read h' 0%nat)) vv' = None /\
    startingVelocity (getVertexKey (read h' 0%nat)) vv' = mkVelocity 0 0 /\
    startingVelocity (getVertexKey (read h' 0%nat)) vv' <>
    mkVelocity (255 / 100000) 0.
Proof.
  destruct topEdge_pass as (vv' & h' & e' & A & V & RS & _).
  assert (G : map_get vertexKey_eq_dec (getVertexKey (read h' 0%nat)) vv' = None).
  { rewrite RS, V. unfold getVertexKey. cbn [x y map_get].
    rewrite toFixed6_small.
    rewrite (toFixed6_nonneg 0 0) by lra.
    rewrite (toFixed6_nonneg 2 2000000) by lra.
    repeat match goal with
           | |- context [vertexKey_eq_dec ?a ?b] =>
               destruct (vertexKey_eq_dec a b) as [E|_]; [inversion E|]
           end.
    reflexivity. }
  exists vv', h', [e'].
  split; [exact A|]. split; [|split; [exact RS|split; [exact G|]]].
  - rewrite V. change (read topHeap 0%nat) with (mkVertex 0 6).
    cbn [map_get].
    destruct (vertexKey_eq_dec (getVertexKey (mkVertex 0 6))
                               (getVertexKey (mkVertex 0 6))); congruence.
  - unfold startingVelocity. rewrite G. split; [reflexivity|].
    intro E. inversion E. lra.
Qed.

(** C8 fails on the code.  The endpoints of the top edge stay on the side
    [y = 6]: [wrapCoordinate] leaves a coordinate equal to [max] where it
    is, outside the half-open interval.  And the extent is added or
    subtracted once only: a coordinate more than one extent away stays
    outside the domain. *)
Lemma wrap_keeps_vertex_on_upper_bound :
  exists vv' h' es',
    applyEdgeValues defaultConfig [] topHeap [topEdge] shrinkValues =
    Ok (vv', h', es') /\
    y (read h' 0%nat) = 6 /\
    ~ (-6 <= y (read h' 0%nat) < 6) /\
    wrapCoordinate 6 (-6) 6 = 6 /\
    wrapCoordinate 30 (-8) 8 = 14.
Proof.
  destruct topEdge_pass as (vv' & h' & e' & A & _ & RS & _).
  exists vv', h', [e'].
  split; [exact A|]. rewrite RS. cbn [y].
  split; [reflexivity|]. split; [lra|].
  split; [apply wrapCoordinate_inside; lra|].
  unfold wrapCoordinate. rewrite Rltb_false by lra. rewrite Rltb_true by lra.
  lra.
Qed.

Lemma Rabs_le_bounds : forall a b, Rabs a <= b -> - b <= a <= b.
Proof.
  intros a b H. pose proof (RRle_abs a) as P. pose proof (RRle_abs (- a)) as N.
  rewrite Rabs_Ropp in N. lra.
Qed.

(** Each accumulator names an object of its own: the key of an
    accumulator is printed from the object it names. *)
Lemma NoDup_map_through : forall (A B C : Type) (f : A -> B) (g : A -> C)
                                 (phi : C -> B) (l : list A),
  (forall a, In a l -> f a = phi (g a)) ->
  NoDup (map f l) -> NoDup (map g l).
Proof.
  intros A B C f g phi l. induction l as [|a l IH]; intros E ND; cbn [map].
  - constructor.
  - cbn [map] in ND. inversion ND as [|? ? NI ND']; subst. constructor.
    + intro I. apply NI. apply in_map_iff in I. destruct I as (a' & Eg & Ia').
      apply in_map_iff. exists a'. split; [|exact Ia'].
      rewrite (E a' (or_intror Ia')), (E a (or_introl eq_refl)), Eg. reflexivity.
    + apply IH; [|exact ND']. intros a' Ia'. apply E. right. exact Ia'.
Qed.

(** The position an integration step leaves an object at: the wrap of
    the old coordinate plus the new velocity times the time step. *)
Lemma updateVertexPositions_positions : forall cfg vf vv h vv' h',
  NoDup (map fst vf) ->
  NoDup (map (fun kv : vertexKey * force => force_vertex (snd kv)) vf) ->
  updateVertexPositions cfg vv h vf = Ok (vv', h') ->
  forall k f,
    In (k, f) vf ->
    read h' (force_vertex f) =
    mkVertex
      (wrapCoordinate
         (x (read h (force_vertex f)) +
          velocity_x (stepVelocity cfg (startingVelocity k vv) f) * timeStep cfg)
         (-8) 8)
      (wrapCoordinate
         (y (read h (force_vertex f)) +
          velocity_y (stepVelocity cfg (startingVelocity k vv) f) * timeStep cfg)
         (-6) 6).
Proof.
  intros cfg vf. induction vf as [|[k0 f0] vf IH];
    intros vv h vv' h' NK NO U k f I; [destruct I|].
  cbn [map fst snd] in NK, NO.
  inversion NK as [|? ? NIk NK']; subst. inversion NO as [|? ? NIo NO']; subst.
  unfold updateVertexPositions in U. cbn [foldM] in U.
  destruct (moveVertex cfg (vv, h) (k0, f0)) as [[vv1 h1]|] eqn:M;
    cbn [bind] in U; [|discriminate].
  destruct (moveVertex_velocities _ _ _ _ _ _ _ M) as [_ Other].
  rewrite moveVertex_eq in M. injection M as Ev Eh.
  destruct I as [E|I].
  - injection E as Ek Ef. subst k0 f0.
    rewrite (updateVertexPositions_frame cfg vf vv1 h1 vv' h' U (force_vertex f)).
    + rewrite <- Eh. rewrite read_write_same. reflexivity.
    + apply Forall_forall. intros kv Ikv C. apply NIo.
      apply in_map_iff. exists kv. split; [exact C | exact Ikv].
  - rewrite (IH vv1 h1 vv' h' NK' NO' U k f I).
    assert (Nr : force_vertex f <> force_vertex f0).
    { intro C. apply NIo. apply in_map_iff. exists (k, f).
      split; [exact C | exact I]. }
    assert (Nk : k <> k0).
    { intro C. subst k0. apply NIk. apply (in_map fst) in I. exact I. }
    rewrite <- Eh at 1 2. rewrite !read_write_other by exact Nr.
    unfold startingVelocity. rewrite (Other k Nk). reflexivity.
Qed.

(** C8, as the code has it.  A coordinate above [max] goes down by the
    extent of the domain, so [max + d] becomes [min + d]; a coordinate of
    the closed interval from [min] to [max] is left as it is, so wrapping
    twice is wrapping once there; a coordinate within one extent of the
    domain is taken into the closed interval.  After the integration of a
    pass, every object an accumulator names stands at the wrap of its old
    coordinate plus its new velocity times the time step, with the bounds
    -8, 8 for x and -6, 6 for y, so that an object of the domain that moves
    by no more than one extent is in the closed domain again; every other
    object is where it was. *)
Theorem wrapCoordinate_closed_interval :
  forall min max,
    min <= max ->
    (forall d, 0 < d -> wrapCoordinate (max + d) min max = min + d) /\
    (forall c, min <= c <= max -> wrapCoordinate c min max = c) /\
    (forall c, min <= c <= max ->
               wrapCoordinate (wrapCoordinate c min max) min max =
               wrapCoordinate c min max) /\
    (forall c, min - (max - min) <= c <= max + (max - min) ->
               min <= wrapCoordinate c min max <= max) /\
    (forall cfg vv h edges,
        exists vf vv' h' edges',
          foldM (addEdgeForce cfg h) edges (initForces h edges) = Ok vf /\
          applySpringForcesToEdges cfg vv h edges = Ok (vv', h', edges') /\
          (forall k f,
              In (k, f) vf ->
              let r := force_vertex f in
              let v := stepVelocity cfg (startingVelocity k vv) f in
              read h' r =
              mkVertex
                (wrapCoordinate (x (read h r) + velocity_x v * timeStep cfg) (-8) 8)
                (wrapCoordinate (y (read h r) + velocity_y v * timeStep cfg) (-6) 6) /\
              (inDomain (read h r) ->
               Rabs (velocity_x v * timeStep cfg) <= 16 ->
               Rabs (velocity_y v * timeStep cfg) <= 12 ->
               inDomain (read h' r))) /\
          (forall r, (forall k f, In (k, f) vf -> force_vertex f <> r) ->
                     read h' r = read h r)).
Proof.
  intros min max Hm. split; [|split; [|split; [|split]]].
  - intros d Hd. apply wrapCoordinate_above; assumption.
  - intros c Hc. apply wrapCoordinate_inside. exact Hc.
  - intros c Hc. rewrite (wrapCoordinate_inside min max c Hc).
    apply wrapCoordinate_inside. exact Hc.
  - intros c Hc. apply wrapCoordinate_range; assumption.
  - intros cfg vv h edges.
    destruct (applySpringForcesToEdges_stages cfg vv h edges)
      as (vf & vv' & h' & A & ND & F & U & R).
    exists vf, vv', h', (map (refreshLength h') edges).
    split; [exact A|]. split; [exact R|].
    assert (NO : NoDup (map (fun kv : vertexKey * force => force_vertex (snd kv)) vf)).
    { apply (NoDup_map_through _ _ _ fst
               (fun kv : vertexKey * force => force_vertex (snd kv))
               (fun r => getVertexKey (read h r))); [|exact ND].
      intros kv I. unfold shape in F. rewrite Forall_map, Forall_forall in F.
      apply (F kv I). }
    split.
    + intros k f I r v.
      pose proof (updateVertexPositions_positions cfg vf vv h vv' h' ND NO U k f I)
        as P.
      fold r v in P. split; [exact P|].
      intros [Dx Dy] Vx Vy. rewrite P. unfold inDomain. cbn [x y].
      apply Rabs_le_bounds in Vx. apply Rabs_le_bounds in Vy.
      split; apply wrapCoordinate_range; lra.
    + intros r NR. apply (updateVertexPositions_frame cfg vf vv h vv' h' U).
      apply Forall_forall. intros [k f] I. cbn [snd]. apply (NR k f I).
Qed.

Lemma wrapCoordinate_closed_interval_witness :
  wrapCoordinate (8 + 1 / 2) (-8) 8 = -8 + 1 / 2 /\
  wrapCoordinate 3 (-8) 8 = 3 /\
  exists vf vv' h' edges',
    foldM (addEdgeForce defaultConfig topHeap) [topEdge]
          (initForces topHeap [topEdge]) = Ok vf /\
    applySpringForcesToEdges defaultConfig [] topHeap [topEdge] =
    Ok (vv', h', edges') /\
    read h' 2%nat = read topHeap 2%nat.
Proof.
  destruct (wrapCoordinate_closed_interval (-8) 8 ltac:(lra))
    as (Above & Inside & _ & _ & Pass).
  split; [apply Above; lra|]. split; [apply Inside; lra|].
  destruct (Pass defaultConfig [] topHeap [topEdge])
    as (vf & vv' & h' & edges' & A & R & _ & Frame).
  exists vf, vv', h', edges'. split; [exact A|]. split; [exact R|].
  apply Frame. intros k f I C.
  destruct (applySpringForcesToEdges_stages defaultConfig [] topHeap [topEdge])
    as (vf0 & _ & _ & A0 & _ & F & _).
  rewrite A in A0. injection A0 as E0. subst vf0.
  unfold shape in F. rewrite Forall_map, Forall_forall in F.
  destruct (F (k, f) I) as (_ & e & [E|[]] & Ends). subst e.
  cbn [snd] in Ends. rewrite C in Ends. destruct Ends as [S|S]; discriminate S.
Defined.

(** ** VoronoiMesh: connectivity *)

Import VoronoiMesh.

Lemma nth_error_combine_seq : forall (A : Type) (l : list A) s i,
  nth_error (combine (seq s (List.length l)) l) i =
  match nth_error l i with
  | Some a => Some ((s + i)%nat, a)
  | None => None
  end.
Proof.
  intros A l. induction l as [|a l IH]; intros s i; simpl.
  - destruct i; reflexivity.
  - destruct i as [|i]; simpl.
    + rewrite Nat.add_0_r. reflexivity.
    + rewrite IH. destruct (nth_error l i); [|reflexivity].
      f_equal. f_equal. lia.
Qed.

Lemma nth_error_indexed : forall (A : Type) (l : list A) i,
  nth_error (indexed l) i =
  match nth_error l i with Some a => Some (i, a) | None => None end.
Proof.
  intros A l i. unfold indexed. rewrite nth_error_combine_seq. reflexivity.
Qed.

Lemma In_indexed : forall (A : Type) (l : list A) i a,
  In (i, a) (indexed l) <-> nth_error l i = Some a.
Proof.
  intros A l i a. split.
  - intro I. apply In_nth_error in I. destruct I as (n & N).
    rewrite nth_error_indexed in N.
    destruct (nth_error l n) eqn:E; [|discriminate].
    inversion N; subst. exact E.
  - intro N. apply nth_error_In with (n := i).
    rewrite nth_error_indexed, N. reflexivity.
Qed.

Lemma neighborsAt_gridPush : forall k k0 en en' g,
  In en' (neighborsAt k (gridPush k0 en g)) <->
  In en' (neighborsAt k g) \/ (k = k0 /\ en' = en).
Proof.
  intros k k0 en en' g. unfold neighborsAt, gridPush.
  destruct (gridKey_eq_dec k k0) as [E|N].
  - subst k0. destruct (map_get gridKey_eq_dec k g) as [l|] eqn:G;
      rewrite map_get_set_same.
    + rewrite in_app_iff. simpl. intuition congruence.
    + simpl. intuition congruence.
  - destruct (map_get gridKey_eq_dec k0 g) as [l|] eqn:G;
      rewrite map_get_set_other by exact N; intuition congruence.
Qed.

Lemma buildVertexGrid_fold : forall h l g k j b,
  In (j, b)
     (neighborsAt k
        (fold_left
           (fun g ie =>
              let (i, e) := (ie : nat * edge) in
              let g1 := gridPush (getGridKey (read h (start e))) (i, true) g in
              gridPush (getGridKey (read h (end_ e))) (i, false) g1)
           l g)) <->
  In (j, b) (neighborsAt k g) \/
  exists e, In (j, e) l /\ endpointGridKey h e b = k.
Proof.
  intros h l. induction l as [|[i e] l IH]; intros g k j b; cbn [fold_left].
  - split; [auto | intros [H|(e & [] & _)]; exact H].
  - rewrite IH. rewrite !neighborsAt_gridPush. unfold endpointGridKey. split.
    + intros [[[H|[K E]]|[K E]]|(e' & I & K)].
      * left. exact H.
      * right. inversion E; subst. exists e. split; [left; reflexivity | reflexivity].
      * right. inversion E; subst. exists e. split; [left; reflexivity | reflexivity].
      * right. exists e'. split; [right; exact I | exact K].
    + intros [H|(e' & [E|I] & K)].
      * left. left. left. exact H.
      * inversion E; subst. left. destruct b.
        -- left. right. split; reflexivity.
        -- right. split; reflexivity.
      * right. exists e'. split; assumption.
Qed.

(** What the vertex grid holds under a key: the endpoints that print it. *)
Lemma buildVertexGrid_spec : forall h es k j b,
  In (j, b) (neighborsAt k (buildVertexGrid h es)) <->
  exists e, nth_error es j = Some e /\ endpointGridKey h e b = k.
Proof.
  intros h es k j b. unfold buildVertexGrid. rewrite buildVertexGrid_fold.
  split.
  - intros [[]|(e & I & K)]. exists e. split; [apply In_indexed; exact I | exact K].
  - intros (e & N & K). right. exists e. split; [apply In_indexed; exact N | exact K].
Qed.

Lemma atStart_fold : forall i (l : list gridEntry) acc j,
  In j (fold_left (fun ce (nb : gridEntry) =>
                     if negb (Nat.eqb (fst nb) i) then ce ++ [fst nb] else ce)
                  l acc) <->
  In j acc \/ (j <> i /\ exists b, In (j, b) l).
Proof.
  intros i l. induction l as [|[n b] l IH]; intros acc j; cbn [fold_left fst].
  - split; [auto | intros [H|(_ & b & [])]; exact H].
  - rewrite IH. destruct (Nat.eqb_spec n i) as [E|N]; cbn [negb].
    + subst n. split.
      * intros [H|(N & b' & I)]; [auto|]. right. split; [exact N|].
        exists b'. right. exact I.
      * intros [H|(N & b' & [E|I])]; [auto | inversion E; congruence |].
        right. split; [exact N | exists b'; exact I].
    + rewrite in_app_iff. simpl. split.
      * intros [[H|[E|[]]]|(N' & b' & I)]; [auto | |].
        -- subst j. right. split; [exact N | exists b; left; reflexivity].
        -- right. split; [exact N' | exists b'; right; exact I].
      * intros [H|(N' & b' & [E|I])]; [auto | |].
        -- inversion E; subst. left. right. left. reflexivity.
        -- right. split; [exact N' | exists b'; exact I].
Qed.

Lemma includes_spec : forall n l, includes n l = true <-> In n l.
Proof.
  intros n l. unfold includes. rewrite existsb_exists. split.
  - intros (m & I & E). apply Nat.eqb_eq in E. subst m. exact I.
  - intro I. exists n. split; [exact I | apply Nat.eqb_refl].
Qed.

Lemma atEnd_fold : forall i (l : list gridEntry) acc j,
  In j (fold_left (fun ce (nb : gridEntry) =>
                     if negb (Nat.eqb (fst nb) i) && negb (includes (fst nb) ce)
                     then ce ++ [fst nb] else ce)
                  l acc) <->
  In j acc \/ (j <> i /\ exists b, In (j, b) l).
Proof.
  intros i l. induction l as [|[n b] l IH]; intros acc j; cbn [fold_left fst].
  - split; [auto | intros [H|(_ & b & [])]; exact H].
  - rewrite IH. destruct (Nat.eqb_spec n i) as [E|N]; cbn [negb andb].
    + subst n. split.
      * intros [H|(N & b' & I)]; [auto|]. right. split; [exact N|].
        exists b'. right. exact I.
      * intros [H|(N & b' & [E|I])]; [auto | inversion E; congruence |].
        right. split; [exact N | exists b'; exact I].
    + destruct (includes n acc) eqn:Inc; cbn [negb].
      * apply includes_spec in Inc. split.
        -- intros [H|(N' & b' & I)]; [auto|].
           right. split; [exact N' | exists b'; right; exact I].
        -- intros [H|(N' & b' & [E|I])]; [auto | |].
           ++ inversion E; subst. left. exact Inc.
           ++ right. split; [exact N' | exists b'; exact I].
      * rewrite in_app_iff. simpl. split.
        -- intros [[H|[E|[]]]|(N' & b' & I)]; [auto | |].
           ++ subst j. right. split; [exact N | exists b; left; reflexivity].
           ++ right. split; [exact N' | exists b'; right; exact I].
        -- intros [H|(N' & b' & [E|I])]; [auto | |].
           ++ inversion E; subst. left. right. left. reflexivity.
           ++ right. split; [exact N' | exists b'; exact I].
Qed.

(** An edge lists exactly the other edges that have an endpoint in the
    grid bucket of one of its own endpoints. *)
Lemma connectEdge_spec : forall h es i e j,
  In j (connectedEdges (connectEdge h (buildVertexGrid h es) (i, e))) <->
  j <> i /\
  exists ej bj bi,
    nth_error es j = Some ej /\
    endpointGridKey h ej bj = endpointGridKey h e bi.
Proof.
  intros h es i e j. unfold connectEdge.
  cbn [connectedEdges set_connectedEdges].
  rewrite atEnd_fold, atStart_fold. cbn [In]. split.
  - intros [[[]|(N & b & I)]|(N & b & I)];
      (split; [exact N|]); apply buildVertexGrid_spec in I;
      destruct I as (ej & Nj & K); exists ej, b.
    + exists true. split; [exact Nj | exact K].
    + exists false. split; [exact Nj | exact K].
  - intros (N & ej & bj & bi & Nj & K). destruct bi.
    + left. right. split; [exact N|]. exists bj.
      apply buildVertexGrid_spec. exists ej. split; [exact Nj | exact K].
    + right. split; [exact N|]. exists bj.
      apply buildVertexGrid_spec. exists ej. split; [exact Nj | exact K].
Qed.

Lemma findConnectedEdges_nth : forall h es i a,
  nth_error (findConnectedEdges h es) i = Some a ->
  exists e, nth_error es i = Some e /\
            a = connectEdge h (buildVertexGrid h es) (i, e).
Proof.
  intros h es i a H. unfold findConnectedEdges in H.
  rewrite nth_error_map, nth_error_indexed in H.
  destruct (nth_error es i) as [e|]; [|discriminate].
  exists e. split; [reflexivity|]. cbn [option_map] in H. congruence.
Qed.

(** C4. In the list [findConnectedEdges] builds, the edge at position [j]
    is listed by the edge at position [i] exactly when the edge at position
    [i] is listed by the edge at position [j], and no edge lists its own
    position. *)
Theorem findConnectedEdges_symmetric_irreflexive :
  forall h es i j a b,
    nth_error (findConnectedEdges h es) i = Some a ->
    nth_error (findConnectedEdges h es) j = Some b ->
    (In j (connectedEdges a) <-> In i (connectedEdges b)) /\
    ~ In i (connectedEdges a).
Proof.
  intros h es i j a b Ha Hb.
  destruct (findConnectedEdges_nth h es i a Ha) as (ei & Ni & Ea).
  destruct (findConnectedEdges_nth h es j b Hb) as (ej & Nj & Eb).
  subst a b. rewrite !connectEdge_spec. split; [split|].
  - intros (N & e' & bj & bi & N' & K). rewrite Nj in N'. inversion N'; subst e'.
    split; [congruence|]. exists ei, bi, bj. split; [exact Ni | congruence].
  - intros (N & e' & bi & bj & N' & K). rewrite Ni in N'. inversion N'; subst e'.
    split; [congruence|]. exists ej, bj, bi. split; [exact Nj | congruence].
  - intros (N & _). apply N. reflexivity.
Qed.

Lemma findConnectedEdges_symmetric_irreflexive_witness :
  exists a b,
    nth_error (findConnectedEdges cornerHeap [cornerEdge1; cornerEdge2]) 0 = Some a /\
    nth_error (findConnectedEdges cornerHeap [cornerEdge1; cornerEdge2]) 1 = Some b /\
    (In 1%nat (connectedEdges a) <-> In 0%nat (connectedEdges b)) /\
    ~ In 0%nat (connectedEdges a).
Proof.
  eexists. eexists. split; [reflexivity|]. split; [reflexivity|].
  apply (findConnectedEdges_symmetric_irreflexive
           cornerHeap [cornerEdge1; cornerEdge2] 0 1); reflexivity.
Defined.

(** ** VoronoiMesh: edge extraction *)




Lemma fold_left_flat_map : forall (A B C : Type) (f : A -> C -> A)
                                  (g : B -> list C) l a,
  fold_left f (flat_map g l) a = fold_left (fun a b => fold_left f (g b) a) l a.
Proof.
  intros A B C f g l. induction l as [|b l IH]; intro a; simpl.
  - reflexivity.
  - rewrite fold_left_app. apply IH.
Qed.

Lemma fold_left_map : forall (A B C : Type) (f : A -> C -> A) (g : B -> C) l a,
  fold_left f (map g l) a = fold_left (fun a b => f a (g b)) l a.
Proof.
  intros A B C f g l. induction l as [|b l IH]; intro a; simpl.
  - reflexivity.
  - apply IH.
Qed.

(** The two nested loops are one loop over all the pairs. *)
Lemma extractEdgesFromCells_flat : forall this_edges h cells,
  extractEdgesFromCells this_edges h cells =
  fold_left addIndexed (allSegments cells) (mkExtraction this_edges [] h).
Proof.
  intros this_edges h cells. unfold extractEdgesFromCells, allSegments.
  rewrite fold_left_flat_map.
  generalize (mkExtraction this_edges [] h). generalize (indexed cells).
  intro l. induction l as [|[ci c] l IH]; intro st; cbn [fold_left].
  - reflexivity.
  - rewrite IH. f_equal. unfold addCell. cbn [fst snd].
    destruct (polygon c) as [pts|]; [|reflexivity].
    rewrite fold_left_map. reflexivity.
Qed.

Lemma combine_snoc : forall (A B : Type) (l : list A) (l' : list B) a b,
  List.length l = List.length l' ->
  combine (l ++ [a]) (l' ++ [b]) = combine l l' ++ [(a, b)].
Proof.
  intros A B l. induction l as [|a0 l IH]; intros [|b0 l'] a b H;
    simpl in *; try discriminate; [reflexivity|].
  f_equal. apply IH. congruence.
Qed.

Lemma map_fst_combine_seq : forall (A : Type) (l : list A) s,
  map fst (combine l (seq s (List.length l))) = l.
Proof.
  intros A l. induction l as [|a l IH]; intro s; simpl; [reflexivity|].
  f_equal. apply IH.
Qed.

Lemma map_set_absent : forall k (v : nat) (m : list (edgeKey * nat)),
  map_get edgeKey_eq_dec k m = None ->
  map_set edgeKey_eq_dec k v m = m ++ [(k, v)].
Proof.
  intros k v m. induction m as [|[k0 v0] m IH]; simpl; intro G; [reflexivity|].
  destruct (edgeKey_eq_dec k k0); [discriminate|].
  f_equal. apply IH. exact G.
Qed.

Lemma map_get_combine_seq : forall (keys : list edgeKey) s k i,
  map_get edgeKey_eq_dec k (combine keys (seq s (List.length keys))) = Some i ->
  (s <= i)%nat /\ nth_error keys (i - s) = Some k.
Proof.
  intros keys. induction keys as [|k0 keys IH]; intros s k i; simpl;
    [discriminate|].
  destruct (edgeKey_eq_dec k k0) as [E|N].
  - intro H. inversion H; subst. rewrite Nat.sub_diag. split; [lia | reflexivity].
  - intro H. apply IH in H. destruct H as [L H]. split; [lia|].
    replace (i - s)%nat with (S (i - S s)) by lia. exact H.
Qed.

Lemma update_nth_length : forall (A : Type) (f : A -> A) l n,
  List.length (update_nth n f l) = List.length l.
Proof.
  intros A f l. induction l as [|a l IH]; intros [|n]; simpl; auto.
Qed.

Lemma update_nth_map : forall (A B : Type) (g : A -> B) (f : A -> A) l n,
  (forall a, g (f a) = g a) -> map g (update_nth n f l) = map g l.
Proof.
  intros A B g f l. induction l as [|a l IH]; intros [|n] H; simpl; auto.
  - rewrite H. reflexivity.
  - f_equal. apply IH. exact H.
Qed.

Lemma update_nth_Forall : forall (A : Type) (P : A -> Prop) (f : A -> A) l n,
  (forall a, P a -> P (f a)) -> Forall P l -> Forall P (update_nth n f l).
Proof.
  intros A P f l. induction l as [|a l IH]; intros [|n] H F; simpl; auto;
    inversion F; subst; constructor; auto.
Qed.

Lemma update_nth_nth_error : forall (A : Type) (f : A -> A) l n a,
  nth_error l n = Some a -> nth_error (update_nth n f l) n = Some (f a).
Proof.
  intros A f l. induction l as [|a0 l IH]; intros [|n] a; simpl;
    try discriminate.
  - intro H. inversion H. reflexivity.
  - apply IH.
Qed.

Lemma update_nth_nth_error_other : forall (A : Type) (f : A -> A) l n m,
  n <> m -> nth_error (update_nth n f l) m = nth_error l m.
Proof.
  intros A f l. induction l as [|a0 l IH]; intros [|n] [|m] N; simpl;
    try reflexivity; try congruence.
  apply IH. congruence.
Qed.

Lemma edgeKeyOf_ext : forall h h' e,
  read h' (start e) = read h (start e) ->
  read h' (end_ e) = read h (end_ e) ->
  edgeKeyOf h' e = edgeKeyOf h e.
Proof.
  intros h h' e S E. unfold edgeKeyOf. rewrite S, E. reflexivity.
Qed.

Lemma createEdgeKey_coords : forall a b,
  createEdgeKey (coords (mkVertex (fst a) (snd a)))
                (coords (mkVertex (fst b) (snd b))) = createEdgeKey a b.
Proof.
  intros [a0 a1] [b0 b1]. reflexivity.
Qed.

Lemma keysOf_absent : forall st k,
  wellFormed st ->
  map_get edgeKey_eq_dec k (edgeMap st) = None -> ~ In k (keysOf st).
Proof.
  intros st k (M & _ & _) G.
  apply (map_get_None_keys edgeKey_eq_dec k (edgeMap st)) in G.
  rewrite M in G. rewrite <- (length_map (edgeKeyOf (objects st))) in G.
  fold (keysOf st) in G. rewrite map_fst_combine_seq in G. exact G.
Qed.

(** A pair whose key is new makes a new edge, with two new endpoint
    objects that hold the coordinates of the pair. *)
Lemma addSegment_new : forall ci st a b,
  wellFormed st ->
  map_get edgeKey_eq_dec (createEdgeKey a b) (edgeMap st) = None ->
  let st' := addSegment ci st (a, b) in
  wellFormed st' /\
  keysOf st' = keysOf st ++ [createEdgeKey a b] /\
  (forall r, (r < next (objects st))%nat ->
             read (objects st') r = read (objects st) r) /\
  (next (objects st) <= next (objects st'))%nat /\
  exists e,
    edges st' = edges st ++ [e] /\
    id e = List.length (edges st) /\
    coords (read (objects st') (start e)) = a /\
    coords (read (objects st') (end_ e)) = b /\
    length e = sqrt ((fst b - fst a) ^ 2 + (snd b - snd a) ^ 2) /\
    connectedCells e = [ci].
Proof.
  intros ci st a b WF G st'.
  pose proof (keysOf_absent st _ WF G) as NI.
  destruct WF as (M & ND & B).
  set (h2 := fst (alloc (fst (alloc (objects st) (mkVertex (fst a) (snd a))))
                        (mkVertex (fst b) (snd b)))).
  set (e := mkEdge (List.length (edges st)) (next (objects st))
                   (S (next (objects st)))
                   (sqrt ((fst b - fst a) ^ 2 + (snd b - snd a) ^ 2))
                   [ci] [] 0%nat 0 None None).
  assert (E' : st' = mkExtraction (edges st ++ [e])
                       (map_set edgeKey_eq_dec (createEdgeKey a b)
                                (List.length (edges st)) (edgeMap st)) h2).
  { unfold st', addSegment. rewrite G. reflexivity. }
  rewrite E'. clear E'.
  assert (N2 : next h2 = S (S (next (objects st)))) by reflexivity.
  assert (Old : forall r, (r < next (objects st))%nat ->
                          read h2 r = read (objects st) r).
  { intros r L. unfold read, h2, alloc. cbn [store fst next].
    destruct (Nat.eq_dec r (S (next (objects st)))); [lia|].
    destruct (Nat.eq_dec r (next (objects st))); [lia | reflexivity]. }
  assert (RS : read h2 (next (objects st)) = mkVertex (fst a) (snd a)).
  { unfold read, h2, alloc. cbn [store fst next].
    destruct (Nat.eq_dec (next (objects st)) (S (next (objects st)))); [lia|].
    destruct (Nat.eq_dec (next (objects st)) (next (objects st))); [reflexivity | lia]. }
  assert (RE : read h2 (S (next (objects st))) = mkVertex (fst b) (snd b)).
  { unfold read, h2, alloc. cbn [store fst next].
    destruct (Nat.eq_dec (S (next (objects st))) (S (next (objects st))));
      [reflexivity | congruence]. }
  assert (K : map (edgeKeyOf h2) (edges st) = keysOf st).
  { unfold keysOf. apply map_ext_in. intros e0 I.
    rewrite Forall_forall in B. destruct (B e0 I) as [Bs Be].
    apply edgeKeyOf_ext; apply Old; assumption. }
  assert (Knew : edgeKeyOf h2 e = createEdgeKey a b).
  { unfold edgeKeyOf. cbn [e start end_]. rewrite RS, RE.
    apply createEdgeKey_coords. }
  assert (KS : keysOf (mkExtraction (edges st ++ [e])
                         (map_set edgeKey_eq_dec (createEdgeKey a b)
                                  (List.length (edges st)) (edgeMap st)) h2) =
               keysOf st ++ [createEdgeKey a b]).
  { unfold keysOf at 1. cbn [objects edges]. rewrite map_app. cbn [map].
    rewrite K, Knew. reflexivity. }
  split; [|split; [exact KS|split; [exact Old|split; [cbn [objects]; lia|]]]].
  - unfold wellFormed. rewrite KS. cbn [edges edgeMap objects].
    split; [|split].
    + rewrite map_set_absent by exact G. rewrite M.
      rewrite length_app. cbn [List.length]. rewrite Nat.add_1_r.
      rewrite seq_S. cbn [plus]. rewrite combine_snoc; [reflexivity|].
      unfold keysOf. rewrite length_map, length_seq. reflexivity.
    + apply NoDup_app; [exact ND | repeat constructor; intros [] |].
      intros k Ik [E|[]]. subst k. contradiction.
    + apply Forall_app. split.
      * eapply Forall_impl; [|exact B]. intros e0 [Bs Be].
        rewrite N2. split; lia.
      * constructor; [|constructor]. rewrite N2. cbn [e start end_]. split; lia.
  - exists e. cbn [edges objects e id start end_ length connectedCells].
    rewrite RS, RE. destruct a, b. repeat split.
Qed.

(** A pair whose key is already in [edgeMap] makes no edge: its cell is
    appended to the cells of the edge that has the key. *)
Lemma addSegment_existing : forall ci st a b i,
  wellFormed st ->
  map_get edgeKey_eq_dec (createEdgeKey a b) (edgeMap st) = Some i ->
  let st' := addSegment ci st (a, b) in
  wellFormed st' /\
  keysOf st' = keysOf st /\
  objects st' = objects st /\
  exists e,
    nth_error (edges st) i = Some e /\
    edgeKeyOf (objects st) e = createEdgeKey a b /\
    edges st' =
    update_nth i (fun e => set_connectedCells (connectedCells e ++ [ci]) e)
               (edges st) /\
    nth_error (edges st') i =
    Some (set_connectedCells (connectedCells e ++ [ci]) e).
Proof.
  intros ci st a b i (M & ND & B) G st'.
  set (f := fun e => set_connectedCells (connectedCells e ++ [ci]) e).
  assert (E' : st' = mkExtraction (update_nth i f (edges st))
                                  (edgeMap st) (objects st)).
  { unfold st', addSegment. rewrite G. reflexivity. }
  rewrite E'. clear E'.
  assert (KS : keysOf (mkExtraction (update_nth i f (edges st))
                                    (edgeMap st) (objects st)) = keysOf st).
  { unfold keysOf. cbn [objects edges]. apply update_nth_map. reflexivity. }
  split; [|split; [exact KS|split; [reflexivity|]]].
  - unfold wellFormed. rewrite KS. cbn [edges edgeMap objects].
    rewrite update_nth_length. split; [exact M|]. split; [exact ND|].
    apply update_nth_Forall; [|exact B]. intros e0 H. exact H.
  - rewrite M in G.
    rewrite <- (length_map (edgeKeyOf (objects st))) in G.
    fold (keysOf st) in G. apply map_get_combine_seq in G.
    destruct G as [_ G]. rewrite Nat.sub_0_r in G.
    unfold keysOf in G. rewrite nth_error_map in G.
    destruct (nth_error (edges st) i) as [e|] eqn:N; [|discriminate].
    cbn [option_map] in G. exists e. cbn [edges].
    split; [reflexivity|]. split; [congruence|]. split; [reflexivity|].
    exact (update_nth_nth_error _ f _ _ _ N).
Qed.

(** Each pair leaves a well-formed state well-formed, keeps the keys
    there were and makes its own key one of them. *)
Lemma addIndexed_step : forall st p,
  wellFormed st ->
  wellFormed (addIndexed st p) /\
  (forall k, In k (keysOf (addIndexed st p)) <->
             In k (keysOf st) \/ k = createEdgeKey (fst (snd p)) (snd (snd p))) /\
  (List.length (edges st) <= List.length (edges (addIndexed st p)))%nat.
Proof.
  intros st [ci [a b]] WF. unfold addIndexed. cbn [fst snd].
  destruct (map_get edgeKey_eq_dec (createEdgeKey a b) (edgeMap st)) as [i|] eqn:G.
  - destruct (addSegment_existing ci st a b i WF G)
      as (WF' & K & _ & e & N & Ke & Ed & _).
    split; [exact WF'|]. rewrite K. split.
    + intro k. split; [auto|]. intros [H|H]; [exact H|]. subst k.
      rewrite <- Ke. unfold keysOf. apply in_map.
      eapply nth_error_In. exact N.
    + rewrite Ed, update_nth_length. lia.
  - destruct (addSegment_new ci st a b WF G)
      as (WF' & K & _ & _ & e & Ed & _).
    split; [exact WF'|]. rewrite K. split.
    + intro k. rewrite in_app_iff. simpl. intuition congruence.
    + rewrite Ed, length_app. lia.
Qed.

Lemma extraction_fold : forall l st,
  wellFormed st ->
  wellFormed (fold_left addIndexed l st) /\
  (forall k, In k (keysOf (fold_left addIndexed l st)) <->
             In k (keysOf st) \/
             exists p, In p l /\ k = createEdgeKey (fst (snd p)) (snd (snd p))).
Proof.
  intros l. induction l as [|p l IH]; intros st WF; cbn [fold_left].
  - split; [exact WF|]. intro k. split; [auto|].
    intros [H|(p & [] & _)]. exact H.
  - destruct (addIndexed_step st p WF) as (WF1 & K1 & _).
    destruct (IH _ WF1) as (WF' & K'). split; [exact WF'|].
    intro k. rewrite K', K1. split.
    + intros [[H|H]|(q & I & E)].
      * left. exact H.
      * right. exists p. split; [left; reflexivity | exact H].
      * right. exists q. split; [right; exact I | exact E].
    + intros [H|(q & [E|I] & Eq)].
      * left. left. exact H.
      * subst q. left. right. exact Eq.
      * right. exists q. split; assumption.
Qed.

Lemma wellFormed_empty : forall h, wellFormed (mkExtraction [] [] h).
Proof.
  intro h. unfold wellFormed, keysOf. cbn. repeat split; constructor.
Qed.


(** An edge, once made, stays at its position with its length and its
    endpoint objects, and the objects keep their coordinates. *)
Lemma addIndexed_persist : forall st p i e,
  wellFormed st ->
  nth_error (edges st) i = Some e ->
  exists e',
    nth_error (edges (addIndexed st p)) i = Some e' /\
    length e' = length e /\ start e' = start e /\ end_ e' = end_ e /\
    read (objects (addIndexed st p)) (start e) = read (objects st) (start e) /\
    read (objects (addIndexed st p)) (end_ e) = read (objects st) (end_ e).
Proof.
  intros st [ci [a b]] i e WF N. unfold addIndexed. cbn [fst snd].
  assert (Bd : (start e < next (objects st))%nat /\
               (end_ e < next (objects st))%nat).
  { destruct WF as (_ & _ & B). rewrite Forall_forall in B.
    apply B. eapply nth_error_In. exact N. }
  destruct (map_get edgeKey_eq_dec (createEdgeKey a b) (edgeMap st)) as [j|] eqn:G.
  - destruct (addSegment_existing ci st a b j WF G)
      as (_ & _ & O & e0 & N0 & _ & Ed & N').
    rewrite O. destruct (Nat.eq_dec j i) as [E|NE].
    + subst j. rewrite N in N0. inversion N0; subst e0.
      eexists. split; [exact N'|]. repeat split.
    + exists e. rewrite Ed.
      rewrite update_nth_nth_error_other by exact NE.
      split; [exact N|]. repeat split.
  - destruct (addSegment_new ci st a b WF G)
      as (_ & _ & Old & _ & e0 & Ed & _).
    exists e. rewrite Ed. split.
    + rewrite nth_error_app1; [exact N|].
      apply nth_error_Some. congruence.
    + destruct Bd as [Bs Be]. repeat split; apply Old; assumption.
Qed.

Lemma extraction_persist : forall l st i e,
  wellFormed st ->
  nth_error (edges st) i = Some e ->
  exists e',
    nth_error (edges (fold_left addIndexed l st)) i = Some e' /\
    length e' = length e /\ start e' = start e /\ end_ e' = end_ e /\
    read (objects (fold_left addIndexed l st)) (start e) =
    read (objects st) (start e) /\
    read (objects (fold_left addIndexed l st)) (end_ e) =
    read (objects st) (end_ e).
Proof.
  intros l. induction l as [|p l IH]; intros st i e WF N; cbn [fold_left].
  - exists e. repeat split. exact N.
  - destruct (addIndexed_persist st p i e WF N)
      as (e1 & N1 & L1 & S1 & E1 & RS1 & RE1).
    destruct (addIndexed_step st p WF) as (WF1 & _).
    destruct (IH _ i e1 WF1 N1) as (e' & N' & L' & S' & E' & RS' & RE').
    exists e'. split; [exact N'|].
    rewrite S1 in RS'. rewrite E1 in RE'.
    repeat split; congruence.
Qed.

(** A degenerate pair [(a, a)] whose key has not been seen before makes an
    edge of length zero, which is in the extracted list. *)
Lemma degenerate_pair_makes_zero_length_edge : forall h cells pre ci a post,
  allSegments cells = pre ++ (ci, (a, a)) :: post ->
  (forall p, In p pre ->
             createEdgeKey (fst (snd p)) (snd (snd p)) <> createEdgeKey a a) ->
  let st := extractEdgesFromCells [] h cells in
  exists e,
    In e (edges st) /\ length e = 0 /\
    coords (read (objects st) (start e)) = a /\
    coords (read (objects st) (end_ e)) = a.
Proof.
  intros h cells pre ci a post Split Fresh st. unfold st.
  rewrite extractEdgesFromCells_flat, Split, fold_left_app. cbn [fold_left].
  destruct (extraction_fold pre _ (wellFormed_empty h)) as (WF1 & K1).
  set (st1 := fold_left addIndexed pre (mkExtraction [] [] h)) in *.
  assert (G : map_get edgeKey_eq_dec (createEdgeKey a a) (edgeMap st1) = None).
  { apply (map_get_None_keys edgeKey_eq_dec). destruct WF1 as (M & _ & _).
    rewrite M. rewrite <- (length_map (edgeKeyOf (objects st1))).
    fold (keysOf st1). rewrite map_fst_combine_seq.
    intro I. apply K1 in I. destruct I as [[]|(p & Ip & E)].
    apply (Fresh p Ip). congruence. }
  destruct (addSegment_new ci st1 a a WF1 G)
    as (WF2 & _ & _ & _ & e & Ed & _ & CS & CE & Len & _).
  change (addSegment ci st1 (a, a)) with (addIndexed st1 (ci, (a, a))) in *.
  set (st2 := addIndexed st1 (ci, (a, a))) in *.
  assert (N2 : nth_error (edges st2) (List.length (edges st1)) = Some e).
  { rewrite Ed. rewrite nth_error_app2 by lia. rewrite Nat.sub_diag. reflexivity. }
  destruct (extraction_persist post st2 _ e WF2 N2)
    as (e' & N' & L' & S' & E' & RS' & RE').
  exists e'. split; [eapply nth_error_In; exact N'|]. split; [|split].
  - rewrite L', Len.
    replace ((fst a - fst a) ^ 2 + (snd a - snd a) ^ 2) with 0 by ring.
    apply sqrt_0.
  - rewrite S', RS'. exact CS.
  - rewrite E', RE'. exact CE.
Qed.

Lemma degenerate_key_ends_equal : forall a b c,
  createEdgeKey a b = createEdgeKey c c ->
  toFixed6 (fst a) = toFixed6 (fst b) /\ toFixed6 (snd a) = toFixed6 (snd b).
Proof.
  intros a b c. unfold createEdgeKey.
  destruct (startFirst a b); destruct (startFirst c c);
    intro H; inversion H; split; congruence.
Qed.

Lemma toFixed6_0_1 : toFixed6 0 <> toFixed6 1.
Proof.
  rewrite (toFixed6_nonneg 0 0) by lra.
  rewrite (toFixed6_nonneg 1 1000000) by lra.
  discriminate.
Qed.

(** C7 fails on the code.  A closed polygon, whose last point repeats the
    first, makes an edge of length zero from its last pair. *)
Lemma closed_polygon_makes_zero_length_edge :
  exists e,
    In e (edges (extractEdgesFromCells [] (heap_of []) closedTriangle)) /\
    length e = 0.
Proof.
  destruct (degenerate_pair_makes_zero_length_edge
              (heap_of []) closedTriangle
              [(0%nat, ((0, 0), (1, 0))); (0%nat, ((1, 0), (0, 1)));
               (0%nat, ((0, 1), (0, 0)))]
              0%nat (0, 0) [])
    as (e & I & L & _).
  - reflexivity.
  - intros p [E|[E|[E|[]]]] K; subst p; cbn [fst snd] in K;
      apply degenerate_key_ends_equal in K; cbn [fst snd] in K;
      destruct K as [K0 K1].
    + apply toFixed6_0_1. exact K0.
    + apply toFixed6_0_1. symmetry. exact K0.
    + apply toFixed6_0_1. symmetry. exact K1.
  - exists e. split; assumption.
Qed.

(** C7, as the code has it.  Extraction drops no pair: the key of every
    consecutive pair of every polygon, also of a pair that lists the same
    vertex twice, is the key of an edge of the list; and a degenerate pair
    whose key has not come up before makes an edge of length zero with both
    endpoints at that vertex, which stays in the list. *)
Theorem extractEdgesFromCells_keeps_degenerate_pairs :
  forall h cells,
    let st := extractEdgesFromCells [] h cells in
    (forall ci a b,
        In (ci, (a, b)) (allSegments cells) ->
        exists e, In e (edges st) /\
                  edgeKeyOf (objects st) e = createEdgeKey a b) /\
    (forall pre ci a post,
        allSegments cells = pre ++ (ci, (a, a)) :: post ->
        (forall p, In p pre ->
                   createEdgeKey (fst (snd p)) (snd (snd p)) <>
                   createEdgeKey a a) ->
        exists e,
          In e (edges st) /\ length e = 0 /\
          coords (read (objects st) (start e)) = a /\
          coords (read (objects st) (end_ e)) = a).
Proof.
  intros h cells st. split.
  - intros ci a b I. unfold st. rewrite extractEdgesFromCells_flat.
    destruct (extraction_fold (allSegments cells) _ (wellFormed_empty h))
      as (_ & K).
    assert (Ik : In (createEdgeKey a b)
                    (keysOf (fold_left addIndexed (allSegments cells)
                                       (mkExtraction [] [] h)))).
    { apply K. right. exists (ci, (a, b)). split; [exact I | reflexivity]. }
    unfold keysOf in Ik. apply in_map_iff in Ik.
    destruct Ik as (e & Ke & Ie). exists e. split; assumption.
  - intros pre ci a post Split Fresh.
    apply (degenerate_pair_makes_zero_length_edge h cells pre ci a post);
      assumption.
Qed.

Lemma extractEdgesFromCells_keeps_degenerate_pairs_witness :
  exists e,
    In e (edges (extractEdgesFromCells [] (heap_of []) closedTriangle)) /\
    edgeKeyOf (objects (extractEdgesFromCells [] (heap_of []) closedTriangle)) e =
    createEdgeKey (0, 0) (0, 0).
Proof.
  destruct (extractEdgesFromCells_keeps_degenerate_pairs (heap_of []) closedTriangle)
    as (Kept & _).
  apply (Kept 0%nat (0, 0) (0, 0)).
  cbn. right. right. right. left. reflexivity.
Defined.

(** * Further properties of the code *)

(** ** VoronoiMesh: circumcenter and ghost points *)

(** X1. [circumcenter] returns nothing exactly for three collinear points,
    and otherwise a point at the same distance from all three. *)
Theorem circumcenter_equidistant :
  forall ax ay bx by_ cx cy,
    let det := (bx - ax) * (cy - ay) - (by_ - ay) * (cx - ax) in
    (det = 0 -> circumcenter ax ay bx by_ cx cy = None) /\
    (det <> 0 ->
     exists c,
       circumcenter ax ay bx by_ cx cy = Some c /\
       (x c - ax) ^ 2 + (y c - ay) ^ 2 = (x c - bx) ^ 2 + (y c - by_) ^ 2 /\
       (x c - ax) ^ 2 + (y c - ay) ^ 2 = (x c - cx) ^ 2 + (y c - cy) ^ 2).
Proof.
  intros ax ay bx by_ cx cy det. unfold circumcenter, divide. cbv zeta.
  fold det. destruct (Req_dec_T det 0) as [Z|N].
  - split; [reflexivity | contradiction].
  - split; [contradiction|]. intros _. eexists. split; [reflexivity|].
    cbn [x y]. unfold det in *. split; field; exact N.
Qed.

Lemma circumcenter_equidistant_witness :
  exists c,
    circumcenter 0 0 2 0 0 2 = Some c /\
    (x c - 0) ^ 2 + (y c - 0) ^ 2 = (x c - 2) ^ 2 + (y c - 0) ^ 2.
Proof.
  destruct (circumcenter_equidistant 0 0 2 0 0 2) as (_ & H).
  destruct H as (c & E & D & _); [lra|].
  exists c. split; [exact E | exact D].
Defined.

Lemma In_createGhostPoints : forall b points g,
  In g (createGhostPoints b points) <->
  exists p d, In p points /\ In d (ghostOffsets b) /\
              g = (fst p + fst d, snd p + snd d).
Proof.
  intros b points g. unfold createGhostPoints. rewrite in_flat_map. split.
  - intros (p & Ip & Ig). apply in_map_iff in Ig. destruct Ig as (d & E & Id).
    exists p, d. auto.
  - intros (p & d & Ip & Id & E). exists p. split; [exact Ip|].
    apply in_map_iff. exists d. auto.
Qed.

Lemma length_flat_map_const : forall (A B : Type) (f : A -> list B) n l,
  (forall a, List.length (f a) = n) ->
  List.length (flat_map f l) = (n * List.length l)%nat.
Proof.
  intros A B f n l H. induction l as [|a l IH]; simpl; [lia|].
  rewrite length_app, H, IH. lia.
Qed.

(** X2. [createGhostPoints] makes eight ghosts for every point, and no
    ghost of a point of the domain lies strictly inside the domain. *)
Theorem createGhostPoints_outside_domain :
  forall b points,
    Forall (fun p => minX b <= fst p <= maxX b /\ minY b <= snd p <= maxY b)
           points ->
    List.length (createGhostPoints b points) = (8 * List.length points)%nat /\
    forall g, In g (createGhostPoints b points) ->
              ~ (minX b < fst g < maxX b /\ minY b < snd g < maxY b).
Proof.
  intros b points F. split.
  - unfold createGhostPoints. apply length_flat_map_const.
    intro p. rewrite length_map. reflexivity.
  - intros g Ig. apply In_createGhostPoints in Ig.
    destruct Ig as (p & d & Ip & Id & E). subst g. cbn [fst snd].
    rewrite Forall_forall in F. specialize (F p Ip).
    unfold ghostOffsets, boundaryWidth, boundaryHeight in Id. cbn [In] in Id.
    repeat (destruct Id as [Id|Id]; [subst d; cbn [fst snd]; lra|]).
    contradiction.
Qed.

Lemma createGhostPoints_outside_domain_witness :
  List.length (createGhostPoints defaultBounds [(1, 2)]) = 8%nat.
Proof.
  destruct (createGhostPoints_outside_domain defaultBounds [(1, 2)]) as (L & _).
  - constructor; [|constructor]. cbn. lra.
  - exact L.
Defined.

(** X3. The periodic wrap of the evolver undoes the ghost offsets: for a
    point strictly inside the domain, wrapping the coordinates of any of
    its ghosts gives the point back. *)
Theorem wrapCoordinate_of_ghost :
  forall b p g,
    minX b < fst p < maxX b -> minY b < snd p < maxY b ->
    In g (createGhostPoints b [p]) ->
    wrapCoordinate (fst g) (minX b) (maxX b) = fst p /\
    wrapCoordinate (snd g) (minY b) (maxY b) = snd p.
Proof.
  intros b p g Hx Hy Ig. apply In_createGhostPoints in Ig.
  destruct Ig as (p' & d & [Ep|[]] & Id & E). subst p' g. cbn [fst snd].
  unfold ghostOffsets, boundaryWidth, boundaryHeight in Id. cbn [In] in Id.
  unfold wrapCoordinate, Rltb.
  repeat (destruct Id as [Id|Id];
          [subst d; cbn [fst snd];
           split; repeat (match goal with
                          | |- context [Rlt_dec ?u ?v] => destruct (Rlt_dec u v)
                          end); lra|]).
  contradiction.
Qed.

Lemma wrapCoordinate_of_ghost_witness :
  wrapCoordinate (1 + 16) (-8) 8 = 1 /\ wrapCoordinate (2 + 0) (-6) 6 = 2.
Proof.
  apply (wrapCoordinate_of_ghost defaultBounds (1, 2) (1 + 16, 2 + 0)).
  - cbn. lra.
  - cbn. lra.
  - cbn. right. right. right. right. left.
    unfold boundaryWidth. cbn. f_equal; lra.
Defined.

(** ** VoronoiMesh: what extraction keeps true *)

Lemma extraction_induction :
  forall (P : list (nat * (point * point)) -> extraction -> Prop) h,
    P [] (mkExtraction [] [] h) ->
    (forall l st p,
        wellFormed st ->
        st = fold_left addIndexed l (mkExtraction [] [] h) ->
        P l st -> P (l ++ [p]) (addIndexed st p)) ->
    forall l, P l (fold_left addIndexed l (mkExtraction [] [] h)).
Proof.
  intros P h P0 Pstep l. induction l as [|p l IH] using rev_ind.
  - exact P0.
  - rewrite fold_left_app. cbn [fold_left]. apply Pstep; [|reflexivity|exact IH].
    apply extraction_fold. apply wellFormed_empty.
Qed.

(** The two ways a pair can go, with the state each one gives. *)
Lemma addIndexed_cases : forall st ci a b,
  (exists i,
      map_get edgeKey_eq_dec (createEdgeKey a b) (edgeMap st) = Some i /\
      addIndexed st (ci, (a, b)) =
      mkExtraction
        (update_nth i (fun e => set_connectedCells (connectedCells e ++ [ci]) e)
                    (edges st))
        (edgeMap st) (objects st)) \/
  (map_get edgeKey_eq_dec (createEdgeKey a b) (edgeMap st) = None /\
   exists h2,
     addIndexed st (ci, (a, b)) =
     mkExtraction
       (edges st ++
        [mkEdge (List.length (edges st)) (next (objects st))
                (S (next (objects st)))
                (sqrt ((fst b - fst a) ^ 2 + (snd b - snd a) ^ 2))
                [ci] [] 0%nat 0 None None])
       (map_set edgeKey_eq_dec (createEdgeKey a b) (List.length (edges st))
                (edgeMap st))
       h2 /\
     next h2 = S (S (next (objects st))) /\
     (forall r, (r < next (objects st))%nat -> read h2 r = read (objects st) r) /\
     read h2 (next (objects st)) = mkVertex (fst a) (snd a) /\
     read h2 (S (next (objects st))) = mkVertex (fst b) (snd b)).
Proof.
  intros st ci a b. unfold addIndexed, addSegment. cbn [fst snd].
  destruct (map_get edgeKey_eq_dec (createEdgeKey a b) (edgeMap st)) as [i|].
  - left. exists i. split; reflexivity.
  - right. split; [reflexivity|]. eexists. split; [reflexivity|].
    unfold read, alloc. cbn [store next fst].
    split; [reflexivity|]. split; [|split].
    + intros r L.
      destruct (Nat.eq_dec r (S (next (objects st)))); [lia|].
      destruct (Nat.eq_dec r (next (objects st))); [lia | reflexivity].
    + destruct (Nat.eq_dec (next (objects st)) (S (next (objects st)))); [lia|].
      destruct (Nat.eq_dec (next (objects st)) (next (objects st)));
        [reflexivity | congruence].
    + destruct (Nat.eq_dec (S (next (objects st))) (S (next (objects st))));
        [reflexivity | congruence].
Qed.

Lemma nth_error_snoc : forall (A : Type) (l : list A) a i b,
  nth_error (l ++ [a]) i = Some b ->
  (nth_error l i = Some b /\ (i < List.length l)%nat) \/
  (i = List.length l /\ b = a).
Proof.
  intros A l a i b H. destruct (Nat.lt_ge_cases i (List.length l)) as [L|G].
  - left. rewrite nth_error_app1 in H by exact L. auto.
  - right. rewrite nth_error_app2 in H by exact G.
    destruct (i - List.length l)%nat as [|n] eqn:D; cbn in H.
    + inversion H. split; [lia | reflexivity].
    + destruct n; discriminate.
Qed.

Lemma update_nth_nth_error_inv : forall (A : Type) (f : A -> A) l n m b,
  nth_error (update_nth n f l) m = Some b ->
  exists a, nth_error l m = Some a /\ (b = a \/ b = f a).
Proof.
  intros A f l n m b H. destruct (Nat.eq_dec n m) as [E|N].
  - subst m. destruct (nth_error l n) as [a|] eqn:G.
    + rewrite (update_nth_nth_error _ f _ _ _ G) in H. inversion H.
      exists a. auto.
    + exfalso. assert (L : (List.length l <= n)%nat) by (apply nth_error_None; exact G).
      rewrite <- (update_nth_length _ f l n) in L.
      apply nth_error_None in L. congruence.
  - rewrite update_nth_nth_error_other in H by exact N. exists b. auto.
Qed.

(** Edge [i] has id [i] and the objects [2i] and [2i+1] of this
    extraction. *)
Lemma extraction_positions : forall h l,
  let st := fold_left addIndexed l (mkExtraction [] [] h) in
  next (objects st) = (next h + 2 * List.length (edges st))%nat /\
  forall i e,
    nth_error (edges st) i = Some e ->
    id e = i /\ start e = (next h + 2 * i)%nat /\
    end_ e = (next h + 2 * i + 1)%nat.
Proof.
  intros h l. cbv zeta.
  apply (extraction_induction
           (fun _ st =>
              next (objects st) = (next h + 2 * List.length (edges st))%nat /\
              forall i e,
                nth_error (edges st) i = Some e ->
                id e = i /\ start e = (next h + 2 * i)%nat /\
                end_ e = (next h + 2 * i + 1)%nat)).
  - cbn. split; [lia|]. intros [|i] e H; discriminate.
  - intros l0 st [ci [a b]] WF _ (N & P).
    destruct (addIndexed_cases st ci a b)
      as [(j & _ & E)|(_ & h2 & E & N2 & _)]; rewrite E; cbn [edges objects].
    + rewrite update_nth_length. split; [exact N|].
      intros i e H. apply update_nth_nth_error_inv in H.
      destruct H as (e0 & H0 & [Eq|Eq]); subst e;
        [|cbn [id start end_ set_connectedCells]]; apply P; exact H0.
    + rewrite length_app. cbn [List.length]. split; [lia|].
      intros i e H. apply nth_error_snoc in H.
      destruct H as [[H _]|[Ei Ee]]; [apply P; exact H|].
      subst i e. cbn [id start end_]. repeat split; lia.
Qed.

(** The first pair of the first polygon always makes the edge at
    position 0. *)
Lemma first_pair_makes_edge : forall h cells p rest,
  allSegments cells = p :: rest ->
  exists e, nth_error (edges (extractEdgesFromCells [] h cells)) 0 = Some e.
Proof.
  intros h cells [ci [a b]] rest E. rewrite extractEdgesFromCells_flat, E.
  cbn [fold_left].
  destruct (addIndexed_cases (mkExtraction [] [] h) ci a b)
    as [(i & G & _)|(_ & h2 & E2 & _)]; [discriminate G|].
  assert (WF : wellFormed (addIndexed (mkExtraction [] [] h) (ci, (a, b)))).
  { apply addIndexed_step. apply wellFormed_empty. }
  assert (N : exists e0, nth_error
                (edges (addIndexed (mkExtraction [] [] h) (ci, (a, b)))) 0 = Some e0).
  { rewrite E2. cbn. eexists. reflexivity. }
  destruct N as (e0 & N).
  destruct (extraction_persist rest _ 0%nat e0 WF N) as (e' & N' & _).
  exists e'. exact N'.
Qed.

(** X4. After extraction the id of every edge is its position in the edge
    list, so ids are distinct, and they are at the same time the indices
    that [connectedEdges] holds. *)
Theorem extractEdgesFromCells_ids_are_positions :
  forall h cells i e,
    nth_error (edges (extractEdgesFromCells [] h cells)) i = Some e ->
    id e = i /\
    forall j e', nth_error (edges (extractEdgesFromCells [] h cells)) j = Some e' ->
                 id e' = id e -> j = i.
Proof.
  intros h cells i e H. rewrite extractEdgesFromCells_flat in *.
  destruct (extraction_positions h (allSegments cells)) as (_ & P).
  split; [apply (P i e H)|].
  intros j e' H' E. destruct (P i e H) as (Ii & _). destruct (P j e' H') as (Ij & _).
  congruence.
Qed.

Lemma extractEdgesFromCells_ids_are_positions_witness :
  exists e,
    nth_error (edges (extractEdgesFromCells [] (heap_of []) twoTriangles)) 0 = Some e /\
    id e = 0%nat.
Proof.
  destruct (first_pair_makes_edge (heap_of []) twoTriangles _ _ eq_refl) as (e & H).
  exists e. split; [exact H|].
  exact (proj1 (extractEdgesFromCells_ids_are_positions
                  (heap_of []) twoTriangles 0 e H)).
Defined.

(** X5. Extraction gives every edge two endpoint objects of its own: the
    two endpoints of an edge are different objects, and no object is an
    endpoint of two edges, also where the edges meet at one point. *)
Theorem extractEdgesFromCells_shares_no_endpoint_object :
  forall h cells i j ei ej,
    nth_error (edges (extractEdgesFromCells [] h cells)) i = Some ei ->
    nth_error (edges (extractEdgesFromCells [] h cells)) j = Some ej ->
    start ei <> end_ ei /\
    (i <> j ->
     start ei <> start ej /\ start ei <> end_ ej /\
     end_ ei <> start ej /\ end_ ei <> end_ ej).
Proof.
  intros h cells i j ei ej Hi Hj. rewrite extractEdgesFromCells_flat in *.
  destruct (extraction_positions h (allSegments cells)) as (_ & P).
  destruct (P i ei Hi) as (_ & Si & Ei). destruct (P j ej Hj) as (_ & Sj & Ej).
  split; [lia|]. intro N. repeat split; lia.
Qed.

Lemma extractEdgesFromCells_shares_no_endpoint_object_witness :
  exists e,
    nth_error (edges (extractEdgesFromCells [] (heap_of []) twoTriangles)) 0 = Some e /\
    start e <> end_ e.
Proof.
  destruct (first_pair_makes_edge (heap_of []) twoTriangles _ _ eq_refl) as (e & H).
  exists e. split; [exact H|].
  exact (proj1 (extractEdgesFromCells_shares_no_endpoint_object
                  (heap_of []) twoTriangles 0 0 e e H H)).
Defined.

Lemma cellsWithKey_snoc : forall k l p,
  cellsWithKey k (l ++ [p]) =
  cellsWithKey k l ++ (if pairHasKey k p then [fst p] else []).
Proof.
  intros k l p. unfold cellsWithKey. rewrite filter_app, map_app. cbn [filter].
  destruct (pairHasKey k p); reflexivity.
Qed.

Lemma cellsWithKey_none : forall k l,
  (forall p, In p l -> createEdgeKey (fst (snd p)) (snd (snd p)) <> k) ->
  cellsWithKey k l = [].
Proof.
  intros k l H. unfold cellsWithKey. induction l as [|p l IH]; [reflexivity|].
  cbn [filter]. unfold pairHasKey at 1.
  destruct (edgeKey_eq_dec (createEdgeKey (fst (snd p)) (snd (snd p))) k) as [E|N].
  - exfalso. apply (H p); [left; reflexivity | exact E].
  - apply IH. intros q I. apply H. right. exact I.
Qed.

Lemma NoDup_nth_error_map : forall (A B : Type) (f : A -> B) l i j a b,
  NoDup (map f l) ->
  nth_error l i = Some a -> nth_error l j = Some b -> f a = f b -> i = j.
Proof.
  intros A B f l i j a b ND Hi Hj E.
  apply (proj1 (NoDup_nth_error (map f l)) ND).
  - apply nth_error_Some. rewrite nth_error_map, Hi. discriminate.
  - rewrite !nth_error_map, Hi, Hj. cbn. congruence.
Qed.

Lemma extraction_cells : forall h l,
  let st := fold_left addIndexed l (mkExtraction [] [] h) in
  forall i e,
    nth_error (edges st) i = Some e ->
    connectedCells e = cellsWithKey (edgeKeyOf (objects st) e) l.
Proof.
  intros h l. cbv zeta.
  apply (extraction_induction
           (fun l st =>
              forall i e,
                nth_error (edges st) i = Some e ->
                connectedCells e = cellsWithKey (edgeKeyOf (objects st) e) l)).
  - intros [|i] e H; discriminate.
  - intros l0 st [ci [a b]] WF Est P i e H.
    rewrite cellsWithKey_snoc. unfold pairHasKey. cbn [fst snd].
    destruct (map_get edgeKey_eq_dec (createEdgeKey a b) (edgeMap st)) as [j|] eqn:G.
    + destruct (addSegment_existing ci st a b j WF G)
        as (_ & _ & O & ej & Nj & Kj & Ed & N').
      change (addSegment ci st (a, b)) with (addIndexed st (ci, (a, b))) in *.
      rewrite O. rewrite Ed in H. destruct (Nat.eq_dec j i) as [Eji|Nji].
      * subst j.
        rewrite (update_nth_nth_error _
                   (fun e => set_connectedCells (connectedCells e ++ [ci]) e)
                   _ _ _ Nj) in H.
        inversion H; subst e. cbn [connectedCells set_connectedCells].
        change (edgeKeyOf (objects st)
                  (set_connectedCells (connectedCells ej ++ [ci]) ej))
          with (edgeKeyOf (objects st) ej).
        rewrite Kj. destruct (edgeKey_eq_dec (createEdgeKey a b) (createEdgeKey a b));
          [|congruence].
        rewrite (P i ej Nj), Kj. reflexivity.
      * rewrite update_nth_nth_error_other in H by exact Nji.
        destruct (edgeKey_eq_dec (createEdgeKey a b) (edgeKeyOf (objects st) e))
          as [Ek|_]; [|rewrite app_nil_r; apply (P i e H)].
        exfalso. apply Nji. destruct WF as (_ & ND & _).
        apply (NoDup_nth_error_map _ _ (edgeKeyOf (objects st)) (edges st)
                                   j i ej e ND Nj H). congruence.
    + pose proof (keysOf_absent st _ WF G) as NI.
      destruct (addSegment_new ci st a b WF G)
        as (_ & _ & Old & _ & e2 & Ed & _ & CS & CE & _ & CC).
      change (addSegment ci st (a, b)) with (addIndexed st (ci, (a, b))) in *.
      rewrite Ed in H. apply nth_error_snoc in H.
      destruct H as [[H L]|[Ei Ee]].
      * assert (K : edgeKeyOf (objects (addIndexed st (ci, (a, b)))) e =
                    edgeKeyOf (objects st) e).
        { destruct WF as (_ & _ & B). rewrite Forall_forall in B.
          destruct (B e (nth_error_In _ _ H)) as [Bs Be].
          apply edgeKeyOf_ext; apply Old; assumption. }
        rewrite K.
        destruct (edgeKey_eq_dec (createEdgeKey a b) (edgeKeyOf (objects st) e))
          as [Ek|_]; [|rewrite app_nil_r; apply (P i e H)].
        exfalso. apply NI. rewrite Ek. unfold keysOf. apply in_map.
        eapply nth_error_In. exact H.
      * subst e. rewrite CC.
        assert (K : edgeKeyOf (objects (addIndexed st (ci, (a, b)))) e2 =
                    createEdgeKey a b).
        { unfold edgeKeyOf. rewrite CS, CE. reflexivity. }
        rewrite K.
        destruct (edgeKey_eq_dec (createEdgeKey a b) (createEdgeKey a b));
          [|congruence].
        rewrite cellsWithKey_none; [reflexivity|].
        intros q Iq Eq. apply NI.
        destruct (extraction_fold l0 _ (wellFormed_empty h)) as (_ & Kl).
        rewrite Est. apply Kl. right. exists q. split; [exact Iq | congruence].
Qed.

Lemma In_allSegments_index : forall cells ci seg,
  In (ci, seg) (allSegments cells) -> (ci < List.length cells)%nat.
Proof.
  intros cells ci seg I. unfold allSegments in I. apply in_flat_map in I.
  destruct I as ([i c] & Ii & I). cbn [fst snd] in I.
  apply In_indexed in Ii.
  destruct (polygon c) as [pts|]; [|destruct I].
  apply in_map_iff in I. destruct I as (sg & E & _). inversion E; subst.
  apply nth_error_Some. congruence.
Qed.

(** X6. After extraction the cells of an edge are the cells that have a
    consecutive pair with the key of the edge, one entry for each such
    pair, in the order the pairs are visited; the list is never empty, and
    every entry is a position in the cell list. *)
Theorem extractEdgesFromCells_connectedCells :
  forall h cells i e,
    let st := extractEdgesFromCells [] h cells in
    nth_error (edges st) i = Some e ->
    connectedCells e = cellsWithKey (edgeKeyOf (objects st) e) (allSegments cells) /\
    connectedCells e <> [] /\
    forall ci, In ci (connectedCells e) -> (ci < List.length cells)%nat.
Proof.
  intros h cells i e st H. unfold st in *. rewrite extractEdgesFromCells_flat in *.
  pose proof (extraction_cells h (allSegments cells) i e H) as C.
  split; [exact C|]. split.
  - destruct (extraction_fold (allSegments cells) _ (wellFormed_empty h)) as (_ & K).
    assert (Ik : In (edgeKeyOf (objects (fold_left addIndexed (allSegments cells)
                                                   (mkExtraction [] [] h))) e)
                    (keysOf (fold_left addIndexed (allSegments cells)
                                       (mkExtraction [] [] h)))).
    { unfold keysOf. apply in_map. eapply nth_error_In. exact H. }
    apply K in Ik. destruct Ik as [[]|(p & Ip & Ek)].
    rewrite C. unfold cellsWithKey. intro Z.
    apply (f_equal (@List.length nat)) in Z. rewrite length_map in Z.
    assert (Ifl : In p (filter (pairHasKey
                                  (edgeKeyOf (objects (fold_left addIndexed
                                                         (allSegments cells)
                                                         (mkExtraction [] [] h))) e))
                               (allSegments cells))).
    { apply filter_In. split; [exact Ip|]. unfold pairHasKey. rewrite <- Ek.
      destruct (edgeKey_eq_dec _ _); congruence. }
    destruct (filter _ (allSegments cells)); [destruct Ifl | discriminate Z].
  - intros ci I. rewrite C in I. unfold cellsWithKey in I.
    apply in_map_iff in I. destruct I as ([ci' seg] & E & I). cbn [fst] in E.
    subst ci'. apply filter_In in I. destruct I as [I _].
    eapply In_allSegments_index. exact I.
Qed.

Lemma extractEdgesFromCells_connectedCells_witness :
  exists e,
    nth_error (edges (extractEdgesFromCells [] (heap_of []) twoTriangles)) 0 = Some e /\
    connectedCells e <> [].
Proof.
  destruct (first_pair_makes_edge (heap_of []) twoTriangles _ _ eq_refl) as (e & H).
  exists e. split; [exact H|].
  exact (proj1 (proj2 (extractEdgesFromCells_connectedCells
                         (heap_of []) twoTriangles 0 e H))).
Defined.

Lemma currentLength_ext : forall h h' e e',
  start e' = start e -> end_ e' = end_ e ->
  read h' (start e) = read h (start e) ->
  read h' (end_ e) = read h (end_ e) ->
  currentLength h' e' = currentLength h e.
Proof.
  intros h h' e e' S E RS RE. unfold currentLength. rewrite S, E, RS, RE.
  reflexivity.
Qed.

Lemma extraction_lengths : forall h l,
  let st := fold_left addIndexed l (mkExtraction [] [] h) in
  forall i e,
    nth_error (edges st) i = Some e -> length e = currentLength (objects st) e.
Proof.
  intros h l. cbv zeta.
  apply (extraction_induction
           (fun _ st =>
              forall i e, nth_error (edges st) i = Some e ->
                          length e = currentLength (objects st) e)).
  - intros [|i] e H; discriminate.
  - intros l0 st [ci [a b]] WF _ P i e H.
    destruct (map_get edgeKey_eq_dec (createEdgeKey a b) (edgeMap st)) as [j|] eqn:G.
    + destruct (addSegment_existing ci st a b j WF G)
        as (_ & _ & O & ej & Nj & _ & Ed & _).
      change (addSegment ci st (a, b)) with (addIndexed st (ci, (a, b))) in *.
      rewrite O. rewrite Ed in H. apply update_nth_nth_error_inv in H.
      destruct H as (e0 & H0 & [Eq|Eq]); subst e; [apply (P i e0 H0)|].
      cbn [length set_connectedCells].
      change (currentLength (objects st)
                (set_connectedCells (connectedCells e0 ++ [ci]) e0))
        with (currentLength (objects st) e0).
      apply (P i e0 H0).
    + destruct (addSegment_new ci st a b WF G)
        as (_ & _ & Old & _ & e2 & Ed & _ & CS & CE & Len & _).
      change (addSegment ci st (a, b)) with (addIndexed st (ci, (a, b))) in *.
      rewrite Ed in H. apply nth_error_snoc in H.
      destruct H as [[H L]|[Ei Ee]].
      * rewrite (P i e H). symmetry.
        destruct WF as (_ & _ & B). rewrite Forall_forall in B.
        destruct (B e (nth_error_In _ _ H)) as [Bs Be].
        apply currentLength_ext; try reflexivity; apply Old; assumption.
      * subst e. rewrite Len. unfold currentLength. cbv zeta.
        unfold coords in CS, CE. destruct a as [a0 a1], b as [b0 b1].
        injection CS as Sx Sy. injection CE as Ex Ey.
        rewrite Sx, Sy, Ex, Ey. cbn [fst snd]. f_equal. ring.
Qed.

(** X7. After extraction the [length] of every edge is the distance
    between its two endpoint objects, and the edge list is empty exactly
    when the polygons have no consecutive pair at all (no cells, or only
    cells without points). *)
Theorem extractEdgesFromCells_length_is_distance :
  forall h cells,
    let st := extractEdgesFromCells [] h cells in
    (forall e, In e (edges st) ->
               length e = currentLength (objects st) e /\ 0 <= length e) /\
    (edges st = [] <-> allSegments cells = []).
Proof.
  intros h cells st. unfold st. split.
  - intros e I. apply In_nth_error in I. destruct I as (i & H).
    rewrite extractEdgesFromCells_flat in *.
    rewrite (extraction_lengths h (allSegments cells) i e H).
    split; [reflexivity|]. unfold currentLength. cbv zeta. apply sqrt_pos.
  - split.
    + intro E. destruct (allSegments cells) as [|p rest] eqn:A; [reflexivity|].
      destruct (first_pair_makes_edge h cells p rest A) as (e & H).
      rewrite E in H. discriminate.
    + intro A. rewrite extractEdgesFromCells_flat, A. reflexivity.
Qed.

(** ** VoronoiMesh: what connectivity gives *)

(** X8. [findConnectedEdges] returns the edges it was given, in the same
    order, with nothing but [connectedEdges] replaced, and every index it
    lists is a position of the edge list. *)
Theorem findConnectedEdges_indices_in_range :
  forall h es,
    List.length (findConnectedEdges h es) = List.length es /\
    forall i a,
      nth_error (findConnectedEdges h es) i = Some a ->
      exists e,
        nth_error es i = Some e /\
        a = set_connectedEdges (connectedEdges a) e /\
        forall j, In j (connectedEdges a) -> (j < List.length es)%nat.
Proof.
  intros h es. split.
  - unfold findConnectedEdges, indexed.
    rewrite length_map, length_combine, length_seq. lia.
  - intros i a H. destruct (findConnectedEdges_nth h es i a H) as (e & N & E).
    exists e. split; [exact N|]. split.
    + subst a. unfold connectEdge. reflexivity.
    + intros j I. subst a. apply connectEdge_spec in I.
      destruct I as (_ & ej & _ & _ & Nj & _).
      apply nth_error_Some. congruence.
Qed.

Lemma Math_round_close : forall a b,
  Math_round a = Math_round b -> Rabs (a - b) < 1.
Proof.
  intros a b E. unfold Math_round in E.
  pose proof (Zfloor_bound (a + / 2)) as Ba.
  pose proof (Zfloor_bound (b + / 2)) as Bb.
  rewrite E in Ba. apply Rabs_def1; lra.
Qed.

Lemma getGridKey_close : forall p q,
  getGridKey p = getGridKey q ->
  Rabs (x p - x q) < gridSize /\ Rabs (y p - y q) < gridSize.
Proof.
  intros p q E. unfold getGridKey in E. injection E as Ex Ey.
  apply Math_round_close in Ex. apply Math_round_close in Ey.
  unfold gridSize in *.
  assert (S : forall u v, Rabs (u / / 100 - v / / 100) < 1 -> Rabs (u - v) < / 100).
  { intros u v H. replace (u / / 100 - v / / 100) with ((u - v) * 100) in H by (field; lra).
    apply Rabs_def2 in H. apply Rabs_def1; lra. }
  split; apply S; assumption.
Qed.

(** X9. Two different edges are connected as soon as an endpoint of one
    has the coordinates of an endpoint of the other; and when an edge
    lists another, some endpoint of the one is less than the grid size
    0.01 away from some endpoint of the other, in each coordinate. *)
Theorem findConnectedEdges_connects_nearby :
  forall h es i j ei ej a,
    nth_error es i = Some ei ->
    nth_error es j = Some ej ->
    i <> j ->
    nth_error (findConnectedEdges h es) i = Some a ->
    ((exists bi bj, read h (endpoint ej bj) = read h (endpoint ei bi)) ->
     In j (connectedEdges a)) /\
    (In j (connectedEdges a) ->
     exists bi bj,
       Rabs (x (read h (endpoint ej bj)) - x (read h (endpoint ei bi))) < / 100 /\
       Rabs (y (read h (endpoint ej bj)) - y (read h (endpoint ei bi))) < / 100).
Proof.
  intros h es i j ei ej a Ni Nj NE Ha.
  destruct (findConnectedEdges_nth h es i a Ha) as (e & N & E).
  rewrite Ni in N. inversion N; subst e. subst a. split.
  - intros (bi & bj & R). apply connectEdge_spec. split; [congruence|].
    exists ej, bj, bi. split; [exact Nj|].
    unfold endpointGridKey. unfold endpoint in R. rewrite R. reflexivity.
  - intro I. apply connectEdge_spec in I.
    destruct I as (_ & ej' & bj & bi & Nj' & K).
    rewrite Nj in Nj'. inversion Nj'; subst ej'.
    exists bi, bj. unfold endpointGridKey in K.
    apply getGridKey_close in K. exact K.
Qed.

Lemma findConnectedEdges_connects_nearby_witness :
  exists a,
    nth_error (findConnectedEdges cornerHeap [cornerEdge1; cornerEdge2]) 0 = Some a /\
    In 1%nat (connectedEdges a).
Proof.
  eexists. split; [reflexivity|].
  apply (findConnectedEdges_connects_nearby
           cornerHeap [cornerEdge1; cornerEdge2] 0 1 cornerEdge1 cornerEdge2);
    [reflexivity | reflexivity | lia | reflexivity |].
  exists true, true. reflexivity.
Defined.

Lemma neighborsAt_gridPush_eq : forall k k0 en g,
  neighborsAt k (gridPush k0 en g) =
  if gridKey_eq_dec k k0 then neighborsAt k g ++ [en] else neighborsAt k g.
Proof.
  intros k k0 en g. unfold neighborsAt, gridPush.
  destruct (gridKey_eq_dec k k0) as [E|N].
  - subst k0. destruct (map_get gridKey_eq_dec k g) as [l|] eqn:G;
      rewrite map_get_set_same; reflexivity.
  - destruct (map_get gridKey_eq_dec k0 g) as [l|] eqn:G;
      rewrite map_get_set_other by exact N; reflexivity.
Qed.

(** A bucket of the vertex grid holds every endpoint at most once. *)
Lemma vertexGrid_entries_NoDup : forall h l g,
  NoDup (map fst l) ->
  (forall k, NoDup (neighborsAt k g)) ->
  (forall k en, In en (neighborsAt k g) -> ~ In (fst en) (map fst l)) ->
  forall k,
    NoDup (neighborsAt k
             (fold_left
                (fun g ie =>
                   let (i, e) := (ie : nat * edge) in
                   let g1 := gridPush (getGridKey (read h (start e))) (i, true) g in
                   gridPush (getGridKey (read h (end_ e))) (i, false) g1)
                l g)).
Proof.
  intros h l. induction l as [|[i e] l IH]; intros g ND G F k; cbn [fold_left].
  - apply G.
  - cbn [map fst] in ND. inversion ND as [|? ? NI ND']; subst.
    assert (Fresh : forall k' b, ~ In (i, b) (neighborsAt k' g)).
    { intros k' b I. apply (F k' (i, b) I). left. reflexivity. }
    apply IH.
    + exact ND'.
    + intro k'. rewrite !neighborsAt_gridPush_eq.
      destruct (gridKey_eq_dec k' (getGridKey (read h (end_ e))));
        destruct (gridKey_eq_dec k' (getGridKey (read h (start e))));
        try apply G.
      * apply NoDup_app; [|repeat constructor; intros []|].
        -- apply NoDup_app; [apply G | repeat constructor; intros [] |].
           intros en Ien [E|[]]. subst en. apply (Fresh k' true Ien).
        -- intros en Ien [E|[]]. subst en. apply in_app_or in Ien.
           destruct Ien as [Ien|[E|[]]]; [apply (Fresh k' false Ien) | discriminate E].
      * apply NoDup_app; [apply G | repeat constructor; intros [] |].
        intros en Ien [E|[]]. subst en. apply (Fresh k' false Ien).
      * apply NoDup_app; [apply G | repeat constructor; intros [] |].
        intros en Ien [E|[]]. subst en. apply (Fresh k' true Ien).
    + intros k' en Ien. rewrite !neighborsAt_gridPush_eq in Ien.
      assert (C : In en (neighborsAt k' g) \/ fst en = i).
      { destruct (gridKey_eq_dec k' (getGridKey (read h (end_ e))));
          destruct (gridKey_eq_dec k' (getGridKey (read h (start e))));
          repeat (apply in_app_or in Ien;
                  destruct Ien as [Ien|[Ien|[]]]; [|right; subst en; reflexivity]);
          left; exact Ien. }
      destruct C as [C|C].
      * intro I. apply (F k' en C). right. exact I.
      * rewrite C. exact NI.
Qed.

Lemma map_fst_indexed : forall (A : Type) (l : list A),
  map fst (indexed l) = seq 0 (List.length l).
Proof.
  intros A l. unfold indexed. generalize 0%nat.
  induction l as [|a l IH]; intro s; simpl; [reflexivity|].
  f_equal. apply IH.
Qed.

Lemma buildVertexGrid_NoDup : forall h es k,
  NoDup (neighborsAt k (buildVertexGrid h es)).
Proof.
  intros h es k. unfold buildVertexGrid. apply vertexGrid_entries_NoDup.
  - rewrite map_fst_indexed. apply seq_NoDup.
  - intro k'. cbn. constructor.
  - intros k' en [].
Qed.

(** An edge has at most two entries in a bucket, and one at most unless the
    bucket holds both of its endpoints. *)
Lemma bucket_entries_of_edge : forall (L : list gridEntry) j,
  NoDup L ->
  (List.length (filter (fun nb : gridEntry => Nat.eqb (fst nb) j) L) <= 2)%nat /\
  (~ (In (j, true) L /\ In (j, false) L) ->
   (List.length (filter (fun nb : gridEntry => Nat.eqb (fst nb) j) L) <= 1)%nat).
Proof.
  intros L j ND.
  pose proof (NoDup_filter (fun nb : gridEntry => Nat.eqb (fst nb) j) ND) as NF.
  assert (Sub : forall nb,
             In nb (filter (fun nb : gridEntry => Nat.eqb (fst nb) j) L) ->
             In nb L /\ (nb = (j, true) \/ nb = (j, false))).
  { intros [n b] I. apply filter_In in I. destruct I as [I E]. cbn [fst] in E.
    apply Nat.eqb_eq in E. subst n. split; [exact I|]. destruct b; auto. }
  split.
  - apply (NoDup_incl_length NF (l' := [(j, true); (j, false)])).
    intros nb I. destruct (Sub nb I) as [_ [E|E]]; subst nb; cbn; auto.
  - intro NB.
    assert (D : {In (j, true) L} + {~ In (j, true) L}).
    { apply in_dec. decide equality; [apply bool_dec | apply Nat.eq_dec]. }
    destruct D as [T|NT].
    + apply (NoDup_incl_length NF (l' := [(j, true)])).
      intros nb I. destruct (Sub nb I) as [I' [E|E]]; subst nb; [left; reflexivity|].
      exfalso. apply NB. split; assumption.
    + apply (NoDup_incl_length NF (l' := [(j, false)])).
      intros nb I. destruct (Sub nb I) as [I' [E|E]]; subst nb; [|left; reflexivity].
      contradiction.
Qed.

Lemma atStart_count : forall i j (l : list gridEntry) acc,
  j <> i ->
  count_occ Nat.eq_dec
            (fold_left (fun ce (nb : gridEntry) =>
                          if negb (Nat.eqb (fst nb) i) then ce ++ [fst nb] else ce)
                       l acc) j =
  (count_occ Nat.eq_dec acc j +
   List.length (filter (fun nb : gridEntry => Nat.eqb (fst nb) j) l))%nat.
Proof.
  intros i j l. induction l as [|[n b] l IH]; intros acc N; cbn [fold_left fst filter].
  - cbn [List.length]. lia.
  - rewrite IH by exact N. destruct (Nat.eqb_spec n i) as [E|NE]; cbn [negb].
    + subst n. destruct (Nat.eqb_spec i j); [congruence | reflexivity].
    + rewrite count_occ_app. cbn [count_occ].
      destruct (Nat.eq_dec n j) as [E|NE'].
      * subst n. rewrite Nat.eqb_refl. cbn [List.length]. lia.
      * destruct (Nat.eqb_spec n j); [congruence|]. lia.
Qed.

Lemma atEnd_count : forall i j (l : list gridEntry) acc,
  (count_occ Nat.eq_dec acc j <=
   count_occ Nat.eq_dec
             (fold_left (fun ce (nb : gridEntry) =>
                           if negb (Nat.eqb (fst nb) i) && negb (includes (fst nb) ce)
                           then ce ++ [fst nb] else ce)
                        l acc) j)%nat.
Proof.
  intros i j l. induction l as [|[n b] l IH]; intro acc; cbn [fold_left fst].
  - lia.
  - etransitivity; [|apply IH].
    destruct (negb (n =? i) && negb (includes n acc)); [|lia].
    rewrite count_occ_app. lia.
Qed.

Lemma filter_two : forall (A : Type) (P : A -> bool) l a b,
  In a l -> In b l -> a <> b -> P a = true -> P b = true ->
  (2 <= List.length (filter P l))%nat.
Proof.
  intros A P l a b. induction l as [|c l IH]; intros Ia Ib N Pa Pb; [destruct Ia|].
  cbn [filter]. destruct Ia as [Ea|Ia]; destruct Ib as [Eb|Ib].
  - congruence.
  - subst c. rewrite Pa. cbn [List.length].
    assert (I : In b (filter P l)) by (apply filter_In; auto).
    destruct (filter P l); [destruct I | cbn; lia].
  - subst c. rewrite Pb. cbn [List.length].
    assert (I : In a (filter P l)) by (apply filter_In; auto).
    destruct (filter P l); [destruct I | cbn; lia].
  - specialize (IH Ia Ib N Pa Pb). destruct (P c); cbn [List.length]; lia.
Qed.

Lemma atEnd_count_le : forall i j (l : list gridEntry) acc m,
  (count_occ Nat.eq_dec acc j <= m)%nat -> (1 <= m)%nat ->
  (count_occ Nat.eq_dec
             (fold_left (fun ce (nb : gridEntry) =>
                           if negb (Nat.eqb (fst nb) i) && negb (includes (fst nb) ce)
                           then ce ++ [fst nb] else ce)
                        l acc) j <= m)%nat.
Proof.
  intros i j l. induction l as [|[n b] l IH]; intros acc m C M; cbn [fold_left fst].
  - exact C.
  - apply IH; [|exact M].
    destruct (negb (n =? i)); cbn [andb]; [|exact C].
    destruct (includes n acc) eqn:Inc; cbn [negb]; [exact C|].
    rewrite count_occ_app. cbn [count_occ].
    destruct (Nat.eq_dec n j) as [E|NE]; [|lia].
    subst n.
    assert (Z : count_occ Nat.eq_dec acc j = 0%nat).
    { apply count_occ_not_In. intro I. apply includes_spec in I. congruence. }
    lia.
Qed.

(** X10. An edge lists another edge once, or twice at most: twice only
    when both endpoints of the other edge lie in the grid bucket of its own
    start vertex.  An edge with no such neighbour lists every edge once at
    most. *)
Theorem findConnectedEdges_no_duplicates :
  forall h es i ei a,
    nth_error es i = Some ei ->
    nth_error (findConnectedEdges h es) i = Some a ->
    (forall j, (count_occ Nat.eq_dec (connectedEdges a) j <= 2)%nat) /\
    (forall j ej,
        nth_error es j = Some ej ->
        ~ (endpointGridKey h ej true = endpointGridKey h ei true /\
           endpointGridKey h ej false = endpointGridKey h ei true) ->
        (count_occ Nat.eq_dec (connectedEdges a) j <= 1)%nat) /\
    ((forall j ej,
         j <> i -> nth_error es j = Some ej ->
         ~ (endpointGridKey h ej true = endpointGridKey h ei true /\
            endpointGridKey h ej false = endpointGridKey h ei true)) ->
     NoDup (connectedEdges a)).
Proof.
  intros h es i ei a Ni Ha.
  destruct (findConnectedEdges_nth h es i a Ha) as (e & N & E).
  rewrite Ni in N. injection N as N. subst e.
  assert (Self : count_occ Nat.eq_dec (connectedEdges a) i = 0%nat).
  { apply count_occ_not_In. rewrite E. intro I. apply connectEdge_spec in I.
    destruct I as [NE _]. apply NE. reflexivity. }
  assert (Start : forall j,
             j <> i ->
             forall m, (1 <= m)%nat ->
             (List.length
                (filter (fun nb : gridEntry => Nat.eqb (fst nb) j)
                        (neighborsAt (getGridKey (read h (start ei)))
                                     (buildVertexGrid h es))) <= m)%nat ->
             (count_occ Nat.eq_dec (connectedEdges a) j <= m)%nat).
  { intros j NE m M B. rewrite E. unfold connectEdge.
    cbn [connectedEdges set_connectedEdges].
    apply atEnd_count_le; [|exact M].
    rewrite atStart_count by exact NE. cbn [count_occ]. exact B. }
  assert (Two : forall j, (count_occ Nat.eq_dec (connectedEdges a) j <= 2)%nat).
  { intro j. destruct (Nat.eq_dec j i) as [Ej|NE]; [subst j; lia|].
    apply (Start j NE); [lia|].
    apply bucket_entries_of_edge. apply buildVertexGrid_NoDup. }
  assert (One : forall j ej,
             nth_error es j = Some ej ->
             ~ (endpointGridKey h ej true = endpointGridKey h ei true /\
                endpointGridKey h ej false = endpointGridKey h ei true) ->
             (count_occ Nat.eq_dec (connectedEdges a) j <= 1)%nat).
  { intros j ej Nj NB. destruct (Nat.eq_dec j i) as [Ej|NE]; [subst j; lia|].
    apply (Start j NE); [lia|].
    apply bucket_entries_of_edge; [apply buildVertexGrid_NoDup|].
    intros [T F]. apply NB.
    apply buildVertexGrid_spec in T. apply buildVertexGrid_spec in F.
    destruct T as (e1 & N1 & K1). destruct F as (e2 & N2 & K2).
    rewrite Nj in N1, N2. injection N1 as N1. injection N2 as N2. subst e1 e2.
    split; assumption. }
  split; [exact Two|]. split; [exact One|].
  intro All. apply (NoDup_count_occ Nat.eq_dec). intro j.
  destruct (Nat.eq_dec j i) as [Ej|NE]; [subst j; lia|].
  destruct (nth_error es j) as [ej|] eqn:Nj.
  - apply (One j ej Nj). apply (All j ej NE Nj).
  - assert (Z : count_occ Nat.eq_dec (connectedEdges a) j = 0%nat).
    { apply count_occ_not_In. rewrite E. intro I. apply connectEdge_spec in I.
      destruct I as (_ & ej & _ & _ & Nj' & _). congruence. }
    lia.
Qed.

Lemma getGridKey_unit_y : getGridKey (mkVertex 0 1) <> getGridKey (mkVertex 0 0).
Proof.
  unfold getGridKey, Math_round, gridSize. cbn [x y]. intro E.
  injection E as Ey.
  rewrite (Zfloor_eq 0 (0 / / 100 + / 2)) in Ey
    by (unfold Rdiv; rewrite Rmult_0_l; lra).
  rewrite (Zfloor_eq 100 (1 / / 100 + / 2)) in Ey; [discriminate|].
  replace (1 / / 100) with 100 by (field; lra). lra.
Qed.

Lemma findConnectedEdges_no_duplicates_witness :
  exists a,
    nth_error (findConnectedEdges cornerHeap [cornerEdge1; cornerEdge2]) 0 = Some a /\
    In 1%nat (connectedEdges a) /\
    (count_occ Nat.eq_dec (connectedEdges a) 1 <= 1)%nat.
Proof.
  exists (connectEdge cornerHeap (buildVertexGrid cornerHeap [cornerEdge1; cornerEdge2])
                      (0%nat, cornerEdge1)).
  split; [reflexivity|]. split.
  - apply connectEdge_spec. split; [discriminate|].
    exists cornerEdge2, true, true. split; reflexivity.
  - apply (proj1 (proj2 (findConnectedEdges_no_duplicates
                           cornerHeap [cornerEdge1; cornerEdge2] 0 cornerEdge1 _
                           eq_refl eq_refl)) 1%nat cornerEdge2 eq_refl).
    intros [_ F]. exact (getGridKey_unit_y F).
Defined.

(** X11. An edge that lies with both endpoints in the bucket of the start
    of another edge is listed twice by that edge: only the neighbours
    found at the end vertex are checked against the list. *)
Theorem findConnectedEdges_lists_short_edge_twice :
  forall h es i j ei ej a,
    nth_error es i = Some ei ->
    nth_error es j = Some ej ->
    i <> j ->
    endpointGridKey h ej true = endpointGridKey h ei true ->
    endpointGridKey h ej false = endpointGridKey h ei true ->
    nth_error (findConnectedEdges h es) i = Some a ->
    (2 <= count_occ Nat.eq_dec (connectedEdges a) j)%nat.
Proof.
  intros h es i j ei ej a Ni Nj NE Ks Ke Ha.
  destruct (findConnectedEdges_nth h es i a Ha) as (e & N & E).
  rewrite Ni in N. inversion N; subst e. subst a.
  unfold connectEdge. cbn [connectedEdges set_connectedEdges].
  etransitivity; [|apply atEnd_count].
  rewrite atStart_count by congruence. cbn [count_occ].
  apply (filter_two _ _ _ (j, true) (j, false)).
  - apply buildVertexGrid_spec. exists ej. split; [exact Nj | exact Ks].
  - apply buildVertexGrid_spec. exists ej. split; [exact Nj | exact Ke].
  - discriminate.
  - apply Nat.eqb_refl.
  - apply Nat.eqb_refl.
Qed.

Lemma findConnectedEdges_lists_short_edge_twice_witness :
  exists a,
    nth_error (findConnectedEdges cornerHeap
                 [cornerEdge1; newEdge 1%nat 0%nat 2%nat 0]) 0 = Some a /\
    (2 <= count_occ Nat.eq_dec (connectedEdges a) 1)%nat.
Proof.
  eexists. split; [reflexivity|].
  apply (findConnectedEdges_lists_short_edge_twice
           cornerHeap [cornerEdge1; newEdge 1%nat 0%nat 2%nat 0] 0 1
           cornerEdge1 (newEdge 1%nat 0%nat 2%nat 0));
    try reflexivity. lia.
Defined.

Lemma magnitude_direction : forall h e sv,
  magnitude (getDirectionFromVertex h e sv) = currentLength h e.
Proof.
  intros h e sv. unfold getDirectionFromVertex, magnitude, currentLength.
  destruct (pointsEqual _ _ _); cbn [x y]; f_equal; ring.
Qed.

(** X12. An edge of length zero counts as an acute connection: when a
    shared vertex is found and one of the two edges has length zero, the
    angle is 0, which is below 90. *)
Theorem zero_length_edge_is_acute :
  forall h e1 e2 sv,
    findSharedVertex h e1 e2 = Some sv ->
    currentLength h e1 = 0 \/ currentLength h e2 = 0 ->
    calculateAngleBetweenEdges h e1 e2 = 0 /\
    isAcuteAngle (calculateAngleBetweenEdges h e1 e2) = true.
Proof.
  intros h e1 e2 sv S Z.
  assert (A : calculateAngleBetweenEdges h e1 e2 = 0).
  { rewrite (calculateAngle_shared h e1 e2 sv S).
    rewrite !magnitude_direction.
    destruct Z as [Z|Z]; rewrite Z; rewrite (Reqb_true 0 0 eq_refl);
      [reflexivity | apply orb_true_r || (rewrite orb_true_r; reflexivity)]. }
  split; [exact A|]. rewrite A. apply Rltb_true. lra.
Qed.

Lemma zero_length_edge_is_acute_witness :
  isAcuteAngle (calculateAngleBetweenEdges
                  cornerHeap cornerEdge1 (newEdge 1%nat 0%nat 2%nat 0)) = true.
Proof.
  apply (zero_length_edge_is_acute cornerHeap cornerEdge1
           (newEdge 1%nat 0%nat 2%nat 0) 0%nat).
  - unfold findSharedVertex. rewrite pointsEqual_same by reflexivity. reflexivity.
  - right. unfold currentLength. cbn.
    replace ((0 - 0) * (0 - 0) + (0 - 0) * (0 - 0)) with 0 by ring.
    apply sqrt_0.
Defined.

(** ** EdgeAnalyzer: the analysis loop *)

Lemma countAcuteConnections_fold : forall h arr e l n,
  foldM (fun acuteConnectionCount connectedEdgeIndex =>
           connectedEdge <- defined (nth_error arr connectedEdgeIndex) ;;
           let angle := calculateAngleBetweenEdges h e connectedEdge in
           Ok (if isAcuteAngle angle
               then S acuteConnectionCount else acuteConnectionCount))
        l n =
  if forallb (fun j => Nat.ltb j (List.length arr)) l
  then Ok (n + List.length
                 (filter (fun j =>
                            match nth_error arr j with
                            | Some c => isAcuteAngle (calculateAngleBetweenEdges h e c)
                            | None => false
                            end) l))%nat
  else Err TypeError.
Proof.
  intros h arr e l. induction l as [|j l IH]; intro n; cbn [foldM forallb filter].
  - cbn [List.length]. f_equal. lia.
  - destruct (nth_error arr j) as [c|] eqn:N.
    + assert (L : (j <? List.length arr) = true).
      { apply Nat.ltb_lt. apply nth_error_Some. congruence. }
      rewrite L. cbn [defined bind andb]. rewrite IH.
      destruct (forallb _ l); [|reflexivity].
      destruct (isAcuteAngle (calculateAngleBetweenEdges h e c));
        cbn [List.length]; f_equal; lia.
    + assert (L : (j <? List.length arr) = false).
      { apply Nat.ltb_ge. apply nth_error_None. exact N. }
      rewrite L. reflexivity.
Qed.

Lemma countAcuteConnections_spec : forall h arr e,
  countAcuteConnections h arr e =
  if indicesInRange (List.length arr) e
  then Ok (acuteCountOf h arr e) else Err TypeError.
Proof.
  intros h arr e. unfold countAcuteConnections, indicesInRange, acuteCountOf.
  rewrite countAcuteConnections_fold. reflexivity.
Qed.

Lemma calculateAngle_ext : forall h e e' c c',
  start e' = start e -> end_ e' = end_ e ->
  start c' = start c -> end_ c' = end_ c ->
  calculateAngleBetweenEdges h e' c' = calculateAngleBetweenEdges h e c.
Proof.
  intros h e e' c c' S1 E1 S2 E2.
  unfold calculateAngleBetweenEdges, findSharedVertex, getDirectionFromVertex.
  rewrite S1, E1, S2, E2. reflexivity.
Qed.

(** The count reads the start, the end and the listed indices of the
    edges and nothing else. *)
Lemma acuteCountOf_ext : forall h arr arr' e e',
  start e' = start e -> end_ e' = end_ e ->
  connectedEdges e' = connectedEdges e ->
  (forall j c, nth_error arr j = Some c ->
               exists c', nth_error arr' j = Some c' /\
                          start c' = start c /\ end_ c' = end_ c) ->
  List.length arr' = List.length arr ->
  acuteCountOf h arr' e' = acuteCountOf h arr e.
Proof.
  intros h arr arr' e e' S E C A L. unfold acuteCountOf. rewrite C.
  f_equal. apply filter_ext. intro j.
  destruct (nth_error arr j) as [c|] eqn:N.
  - destruct (A j c N) as (c' & N' & Sc & Ec). rewrite N'.
    f_equal. apply calculateAngle_ext; assumption.
  - assert (N' : nth_error arr' j = None).
    { apply nth_error_None. rewrite L. apply nth_error_None. exact N. }
    rewrite N'. reflexivity.
Qed.

Lemma acuteCountOf_bound : forall h arr e,
  (acuteCountOf h arr e <= List.length (connectedEdges e))%nat.
Proof.
  intros h arr e. unfold acuteCountOf. apply filter_length_le.
Qed.

Lemma firstn_snoc : forall (A : Type) (l : list A) k a,
  nth_error l k = Some a -> firstn (S k) l = firstn k l ++ [a].
Proof.
  intros A l. induction l as [|b l IH]; intros [|k] a H; cbn in *;
    try discriminate.
  - inversion H. reflexivity.
  - f_equal. apply IH. exact H.
Qed.

(** The state of the loop of [analyzeAcuteAngles] after [k] edges: either
    the first [k] edges list only positions of the array, and their counts
    are written; or one of them lists something else, and the loop has
    stopped with a [TypeError]. *)
Lemma analysis_prefix : forall h edges k,
  (k <= List.length edges)%nat ->
  ((forall m e, (m < k)%nat -> nth_error edges m = Some e ->
                indicesInRange (List.length edges) e = true) /\
   exists st,
     foldM (analyzeEdge h) (seq 0 k)
           (mkAnalysis (resetEdgeAnalysis edges) 0 0 0) = Ok st /\
     List.length (analysed st) = List.length edges /\
     (forall m e, nth_error edges m = Some e ->
                  nth_error (analysed st) m =
                  Some (if Nat.ltb m k then analysedEdge h edges e
                        else set_expandValue 0 (set_acuteAngleCount 0 e))) /\
     expandingSoFar st = acuteSoFar st /\
     (acuteSoFar st + shrinkingSoFar st = k)%nat /\
     acuteSoFar st =
     List.length (filter (fun e => Nat.ltb 0 (acuteAngleCount e))
                         (firstn k (map (analysedEdge h edges) edges)))) \/
  ((exists m e, (m < k)%nat /\ nth_error edges m = Some e /\
                indicesInRange (List.length edges) e = false) /\
   foldM (analyzeEdge h) (seq 0 k)
         (mkAnalysis (resetEdgeAnalysis edges) 0 0 0) = Err TypeError).
Proof.
  intros h edges k. induction k as [|k IH]; intro Le.
  - left. split; [intros m e L; lia|].
    eexists. split; [reflexivity|]. cbn [analysed acuteSoFar expandingSoFar shrinkingSoFar].
    split; [unfold resetEdgeAnalysis; apply length_map|].
    split; [|repeat split].
    intros m e N. unfold resetEdgeAnalysis. rewrite nth_error_map, N. reflexivity.
  - rewrite seq_S, foldM_app. cbn [plus foldM].
    destruct IH as [(R & st & F & Len & Nth & XA & Sum & Cnt)|((m & e & L & N & O) & F)];
      [lia| |right; split; [exists m, e; split; [lia|auto] | rewrite F; reflexivity]].
    rewrite F. cbn [bind].
    destruct (nth_error edges k) as [ek|] eqn:Nk;
      [|exfalso; apply nth_error_None in Nk; lia].
    unfold analyzeEdge. rewrite (Nth k ek Nk), Nat.ltb_irrefl.
    cbn [defined bind]. rewrite countAcuteConnections_spec, Len.
    change (indicesInRange (List.length edges)
              (set_expandValue 0 (set_acuteAngleCount 0 ek)))
      with (indicesInRange (List.length edges) ek).
    destruct (indicesInRange (List.length edges) ek) eqn:Rk.
    + left. split.
      { intros m e L N. destruct (Nat.eq_dec m k) as [E|NE].
        - subst m. congruence.
        - apply (R m e); [lia | exact N]. }
      assert (C : acuteCountOf h (analysed st)
                    (set_expandValue 0 (set_acuteAngleCount 0 ek)) =
                  acuteCountOf h edges ek).
      { apply acuteCountOf_ext; try reflexivity; [|exact Len].
        intros j c Nj. rewrite (Nth j c Nj). eexists. split; [reflexivity|].
        destruct (j <? k); split; reflexivity. }
      rewrite C. cbn [bind].
      set (cnt := acuteCountOf h edges ek).
      set (written := update_nth k (set_acuteAngleCount cnt) (analysed st)).
      assert (W : forall m e, nth_error edges m = Some e ->
                  nth_error written m =
                  Some (if m <? S k then analysedEdge h edges e
                        else set_expandValue 0 (set_acuteAngleCount 0 e))).
      { intros m e N. unfold written. destruct (Nat.eq_dec k m) as [E|NE].
        - subst m. rewrite (update_nth_nth_error _ _ _ _ _ (Nth k e N)).
          rewrite Nat.ltb_irrefl.
          assert (T : (k <? S k) = true) by (apply Nat.ltb_lt; lia).
          rewrite T. rewrite Nk in N. inversion N; subst e. reflexivity.
        - rewrite update_nth_nth_error_other by exact NE. rewrite (Nth m e N).
          destruct (Nat.ltb_spec m k); destruct (Nat.ltb_spec m (S k));
            try reflexivity; lia. }
      assert (WL : List.length written = List.length edges).
      { unfold written. rewrite update_nth_length. exact Len. }
      assert (FS : firstn (S k) (map (analysedEdge h edges) edges) =
                   firstn k (map (analysedEdge h edges) edges) ++
                   [analysedEdge h edges ek]).
      { apply firstn_snoc. rewrite nth_error_map, Nk. reflexivity. }
      rewrite FS, filter_app, length_app. cbn [filter].
      change (acuteAngleCount (analysedEdge h edges ek)) with cnt.
      destruct (0 <? cnt); eexists; (split; [reflexivity|]);
        cbn [analysed acuteSoFar expandingSoFar shrinkingSoFar List.length];
        repeat split; try exact WL; try exact W; lia.
    + right. split; [exists k, ek; split; [lia|auto] | reflexivity].
Qed.

Lemma indicesInRange_spec : forall n e,
  indicesInRange n e = true <-> forall j, In j (connectedEdges e) -> (j < n)%nat.
Proof.
  intros n e. unfold indicesInRange. rewrite forallb_forall. split.
  - intros H j I. apply Nat.ltb_lt. apply H. exact I.
  - intros H j I. apply Nat.ltb_lt. apply H. exact I.
Qed.

(** The whole result of the analysis, on a list whose edges list only
    positions of the list. *)
Lemma analyzeAcuteAngles_result : forall h edges,
  (forall e, In e edges -> indicesInRange (List.length edges) e = true) ->
  let edges' := map (analysedEdge h edges) edges in
  let acute := List.length (filter (fun e => Nat.ltb 0 (acuteAngleCount e)) edges') in
  analyzeAcuteAngles h edges =
  Ok (edges', mkResults (List.length edges) acute acute (List.length edges - acute)).
Proof.
  intros h edges R edges' acute. unfold analyzeAcuteAngles. cbv zeta.
  replace (List.length (resetEdgeAnalysis edges)) with (List.length edges)
    by (unfold resetEdgeAnalysis; symmetry; apply length_map).
  destruct (analysis_prefix h edges (List.length edges) (Nat.le_refl _))
    as [(_ & st & F & Len & Nth & XA & Sum & Cnt)|((m & e & _ & N & O) & _)].
  - rewrite F. cbn [bind].
    assert (A : analysed st = edges').
    { apply nth_error_ext. intro m. unfold edges'. rewrite nth_error_map.
      destruct (nth_error edges m) as [e|] eqn:N.
      - rewrite (Nth m e N).
        assert (L : (m <? List.length edges) = true).
        { apply Nat.ltb_lt. apply nth_error_Some. congruence. }
        rewrite L. reflexivity.
      - apply nth_error_None. rewrite Len. apply nth_error_None. exact N. }
    rewrite firstn_all2 in Cnt by (rewrite length_map; lia).
    fold edges' in Cnt. fold acute in Cnt.
    rewrite A. unfold edges' at 2. rewrite length_map.
    rewrite XA, Cnt. repeat f_equal. lia.
  - rewrite (R e (nth_error_In _ _ N)) in O. discriminate.
Qed.

(** X13. On a list whose edges list only positions of the list, the
    analysis succeeds; it gives every edge, as [acuteAngleCount], the number
    of its listed connections that make an acute angle with it, which is
    at most the number of connections; it sets [expandValue] to 0 and keeps
    every other field. *)
Theorem analyzeAcuteAngles_counts_acute_connections :
  forall h edges,
    (forall e j, In e edges -> In j (connectedEdges e) ->
                 (j < List.length edges)%nat) ->
    exists edges' results,
      analyzeAcuteAngles h edges = Ok (edges', results) /\
      List.length edges' = List.length edges /\
      forall i e,
        nth_error edges i = Some e ->
        exists e',
          nth_error edges' i = Some e' /\
          acuteAngleCount e' = acuteCountOf h edges e /\
          (acuteAngleCount e' <= List.length (connectedEdges e))%nat /\
          expandValue e' = 0 /\
          id e' = id e /\ start e' = start e /\ end_ e' = end_ e /\
          length e' = length e /\ connectedCells e' = connectedCells e /\
          connectedEdges e' = connectedEdges e /\
          originalLength e' = originalLength e /\
          targetLength e' = targetLength e.
Proof.
  intros h edges R.
  assert (R' : forall e, In e edges -> indicesInRange (List.length edges) e = true).
  { intros e I. apply indicesInRange_spec. intros j Ij. apply (R e j I Ij). }
  eexists. eexists. split; [apply (analyzeAcuteAngles_result h edges R')|].
  split; [apply length_map|].
  intros i e N. exists (analysedEdge h edges e).
  split; [rewrite nth_error_map, N; reflexivity|].
  split; [reflexivity|]. split; [apply acuteCountOf_bound|]. repeat split.
Qed.

Lemma analyzeAcuteAngles_counts_acute_connections_witness :
  exists edges' results,
    analyzeAcuteAngles cornerHeap
      [set_connectedEdges [1%nat] cornerEdge1;
       set_connectedEdges [0%nat] cornerEdge2] = Ok (edges', results) /\
    List.length edges' = 2%nat.
Proof.
  destruct (analyzeAcuteAngles_counts_acute_connections cornerHeap
              [set_connectedEdges [1%nat] cornerEdge1;
               set_connectedEdges [0%nat] cornerEdge2])
    as (edges' & results & A & L & _).
  - intros e j [E|[E|[]]] Ij; subst e; cbn in Ij; destruct Ij as [Ej|[]];
      subst j; cbn; lia.
  - exists edges', results. split; [exact A | exact L].
Defined.

(** X14. The statistics of the analysis count every edge once: the total
    is the number of edges, the edges with an acute connection and the
    shrinking edges add up to it, the expanding edges are the edges with an
    acute connection, and these are the edges whose [acuteAngleCount] is
    positive in the result. *)
Theorem analyzeAcuteAngles_statistics :
  forall h edges edges' results,
    analyzeAcuteAngles h edges = Ok (edges', results) ->
    totalEdges results = List.length edges /\
    (acuteEdgeCount results + shrinkingEdgeCount results = totalEdges results)%nat /\
    expandingEdgeCount results = acuteEdgeCount results /\
    acuteEdgeCount results =
    List.length (filter (fun e => Nat.ltb 0 (acuteAngleCount e)) edges').
Proof.
  intros h edges edges' results A. unfold analyzeAcuteAngles in A. cbv zeta in A.
  replace (List.length (resetEdgeAnalysis edges)) with (List.length edges) in A
    by (unfold resetEdgeAnalysis; symmetry; apply length_map).
  destruct (analysis_prefix h edges (List.length edges) (Nat.le_refl _))
    as [(_ & st & F & Len & Nth & XA & Sum & Cnt)|(_ & F)];
    rewrite F in A; cbn [bind] in A; [|discriminate].
  injection A as E1 E2. subst edges' results.
  cbn [totalEdges acuteEdgeCount expandingEdgeCount shrinkingEdgeCount].
  split; [exact Len|]. split; [lia|]. split; [exact XA|].
  rewrite Cnt. rewrite firstn_all2 by (rewrite length_map; lia).
  f_equal. f_equal. symmetry. apply nth_error_ext. intro m.
  rewrite nth_error_map. destruct (nth_error edges m) as [e|] eqn:N.
  - rewrite (Nth m e N).
    assert (L : (m <? List.length edges) = true).
    { apply Nat.ltb_lt. apply nth_error_Some. congruence. }
    rewrite L. reflexivity.
  - apply nth_error_None. rewrite Len. apply nth_error_None. exact N.
Qed.

Lemma analyzeAcuteAngles_statistics_witness :
  exists edges' results,
    analyzeAcuteAngles cornerHeap [cornerEdge1] = Ok (edges', results) /\
    totalEdges results = 1%nat.
Proof.
  eexists. eexists. split; [reflexivity|].
  eapply (analyzeAcuteAngles_statistics cornerHeap [cornerEdge1]). reflexivity.
Defined.

(** X15. When an edge lists an index that is not a position of the list,
    the analysis stops with a [TypeError]: it reads the endpoints of an
    array element that is not there. *)
Theorem analyzeAcuteAngles_index_out_of_range :
  forall h edges e j,
    In e edges -> In j (connectedEdges e) -> (List.length edges <= j)%nat ->
    analyzeAcuteAngles h edges = Err TypeError.
Proof.
  intros h edges e j I Ij Lj. unfold analyzeAcuteAngles. cbv zeta.
  replace (List.length (resetEdgeAnalysis edges)) with (List.length edges)
    by (unfold resetEdgeAnalysis; symmetry; apply length_map).
  destruct (analysis_prefix h edges (List.length edges) (Nat.le_refl _))
    as [(R & _)|(_ & F)].
  - exfalso. apply In_nth_error in I. destruct I as (m & N).
    assert (L : (m < List.length edges)%nat) by (apply nth_error_Some; congruence).
    pose proof (proj1 (indicesInRange_spec _ _) (R m e L N) j Ij). lia.
  - rewrite F. reflexivity.
Qed.

Lemma analyzeAcuteAngles_index_out_of_range_witness :
  analyzeAcuteAngles cornerHeap [set_connectedEdges [5%nat] cornerEdge1] =
  Err TypeError.
Proof.
  apply (analyzeAcuteAngles_index_out_of_range
           cornerHeap [set_connectedEdges [5%nat] cornerEdge1]
           (set_connectedEdges [5%nat] cornerEdge1) 5).
  - left. reflexivity.
  - left. reflexivity.
  - cbn. lia.
Defined.

Lemma analyzeAcuteAngles_Ok_inv : forall h edges edges' results,
  analyzeAcuteAngles h edges = Ok (edges', results) ->
  (forall e, In e edges -> indicesInRange (List.length edges) e = true) /\
  edges' = map (analysedEdge h edges) edges.
Proof.
  intros h edges edges' results A.
  assert (R : forall e, In e edges -> indicesInRange (List.length edges) e = true).
  { destruct (analysis_prefix h edges (List.length edges) (Nat.le_refl _))
      as [(R & _)|(_ & F)].
    - intros e I. apply In_nth_error in I. destruct I as (m & N).
      apply (R m e); [apply nth_error_Some; congruence | exact N].
    - exfalso. unfold analyzeAcuteAngles in A. cbv zeta in A.
      replace (List.length (resetEdgeAnalysis edges)) with (List.length edges) in A
        by (unfold resetEdgeAnalysis; symmetry; apply length_map).
      rewrite F in A. discriminate. }
  split; [exact R|].
  pose proof (analyzeAcuteAngles_result h edges R) as E. cbv zeta in E.
  rewrite E in A. injection A as E1 _. symmetry. exact E1.
Qed.

(** X16. The analysis reads nothing of an earlier analysis: analysing the
    edges it returned gives the same edges and the same statistics again. *)
Theorem analyzeAcuteAngles_idempotent :
  forall h edges edges' results,
    analyzeAcuteAngles h edges = Ok (edges', results) ->
    analyzeAcuteAngles h edges' = Ok (edges', results).
Proof.
  intros h edges edges' results A.
  destruct (analyzeAcuteAngles_Ok_inv h edges edges' results A) as (R & E).
  assert (L : List.length edges' = List.length edges)
    by (rewrite E; apply length_map).
  assert (R' : forall e, In e edges' -> indicesInRange (List.length edges') e = true).
  { intros e' I. rewrite E in I. apply in_map_iff in I.
    destruct I as (e & Ee & I). subst e'. rewrite L.
    change (indicesInRange (List.length edges) (analysedEdge h edges e))
      with (indicesInRange (List.length edges) e).
    apply R. exact I. }
  assert (Fix : map (analysedEdge h edges') edges' = edges').
  { rewrite E at 2 3. rewrite map_map. apply map_ext_in. intros e I.
    unfold analysedEdge at 1.
    assert (C : acuteCountOf h edges' (analysedEdge h edges e) =
                acuteCountOf h edges e).
    { apply acuteCountOf_ext; try reflexivity; [|exact L].
      intros j c Nj. rewrite E. rewrite nth_error_map, Nj.
      eexists. split; [reflexivity|]. split; reflexivity. }
    rewrite C. reflexivity. }
  pose proof (analyzeAcuteAngles_result h edges' R') as A'. cbv zeta in A'.
  rewrite Fix in A'. rewrite A'.
  pose proof (analyzeAcuteAngles_result h edges R) as A0. cbv zeta in A0.
  rewrite A0 in A. rewrite <- E in A. rewrite L. exact A.
Qed.

Lemma analyzeAcuteAngles_idempotent_witness :
  exists edges' results,
    analyzeAcuteAngles cornerHeap [cornerEdge1] = Ok (edges', results) /\
    analyzeAcuteAngles cornerHeap edges' = Ok (edges', results).
Proof.
  eexists. eexists. split; [reflexivity|].
  apply (analyzeAcuteAngles_idempotent cornerHeap [cornerEdge1]). reflexivity.
Defined.

(** ** EdgeAnalyzer: angles, values and statistics *)

(** X17. The angle between two edges is always between 0 and 180 degrees,
    as the documentation of [calculateAngleBetweenEdges] says. *)
Theorem calculateAngleBetweenEdges_range :
  forall h e1 e2,
    0 <= calculateAngleBetweenEdges h e1 e2 <= 180.
Proof.
  intros h e1 e2. unfold calculateAngleBetweenEdges.
  destruct (findSharedVertex h e1 e2) as [sv|]; [|lra]. cbv zeta.
  match goal with |- context [if ?b then _ else _] => destruct b end; [lra|].
  match goal with |- context [acos ?c] => pose proof (acos_bound c) as B end.
  pose proof PI_RGT_0 as P.
  match goal with |- context [acos ?c] => set (a := acos c) in * end.
  assert (I : 0 < / PI) by (apply Rinv_0_lt_compat; lra).
  assert (U : a * / PI <= 1).
  { replace 1 with (PI * / PI) by (field; lra).
    apply Rmult_le_compat_r; lra. }
  assert (L : 0 <= a * / PI) by (apply Rmult_le_pos; lra).
  replace (a * (180 / PI)) with (180 * (a * / PI)) by (field; lra).
  lra.
Qed.

(** X18. [calculateEdgeValues] gives one record for every edge, in the
    order of the edges and under the id of the edge, and changes nothing
    of an edge but [expandValue].  With a positive [changeRate] no value is
    0, and a record is of type [expand] exactly when the edge has an acute
    connection. *)
Theorem calculateEdgeValues_records :
  forall edges changeRate,
    0 < changeRate ->
    List.length (fst (calculateEdgeValues edges changeRate)) = List.length edges /\
    List.length (snd (calculateEdgeValues edges changeRate)) = List.length edges /\
    forall i e,
      nth_error edges i = Some e ->
      exists ev,
        nth_error (snd (calculateEdgeValues edges changeRate)) i = Some ev /\
        nth_error (fst (calculateEdgeValues edges changeRate)) i =
        Some (set_expandValue (value ev) e) /\
        edgeId ev = id e /\
        value ev <> 0 /\
        (type ev = expand <-> (0 < acuteAngleCount e)%nat).
Proof.
  intros edges changeRate P. unfold calculateEdgeValues. cbn [fst snd].
  rewrite !length_map. split; [reflexivity|]. split; [reflexivity|].
  intros i e N. exists (snd (edgeValueOf changeRate e)).
  rewrite !nth_error_map, N. cbn [option_map].
  split; [reflexivity|]. split; [reflexivity|]. split; [reflexivity|].
  unfold edgeValueOf. cbn [snd value type].
  destruct (Nat.ltb_spec 0 (acuteAngleCount e)) as [L|G].
  - assert (V : 0 < changeRate * INR (acuteAngleCount e)).
    { apply Rmult_lt_0_compat; [exact P|]. apply lt_0_INR. exact L. }
    rewrite (Rltb_true _ _ V). split; [lra|]. split; auto.
  - rewrite Rltb_false by lra. split; [lra|]. split; [discriminate | lia].
Qed.

Lemma calculateEdgeValues_records_witness :
  List.length (snd (calculateEdgeValues [cornerEdge1; cornerEdge2] 5)) = 2%nat.
Proof.
  destruct (calculateEdgeValues_records [cornerEdge1; cornerEdge2] 5)
    as (_ & L & _); [lra | exact L].
Defined.

Lemma histogramAt_increment : forall c k m,
  histogramAt c (increment k m) =
  if Nat.eq_dec c k then S (histogramAt c m) else histogramAt c m.
Proof.
  intros c k m. unfold histogramAt, increment.
  destruct (Nat.eq_dec c k) as [E|N].
  - subst k. rewrite map_get_set_same. lia.
  - rewrite map_get_set_other by exact N. reflexivity.
Qed.

Lemma statistics_invariant : forall l,
  let st := fold_left statisticsStep l (mkStatState [] 0 0 0 0) in
  expandingCount st =
    List.length (filter (fun e => Nat.ltb 0 (acuteAngleCount e)) l) /\
  (expandingCount st + shrinkingCount st = List.length l)%nat /\
  totalAcuteConnections st = list_sum (map acuteAngleCount l) /\
  (forall c, histogramAt c (histogram st) =
             count_occ Nat.eq_dec (map acuteAngleCount l) c) /\
  (forall e, In e l -> (acuteAngleCount e <= maxSoFar st)%nat) /\
  ((l = [] /\ maxSoFar st = 0%nat) \/
   exists e, In e l /\ acuteAngleCount e = maxSoFar st).
Proof.
  intro l. cbv zeta. induction l as [|e l IH] using rev_ind.
  - cbn. repeat split; auto. intros e [].
  - rewrite fold_left_app. cbn [fold_left].
    destruct IH as (X & SS & T & H & M & A).
    set (st := fold_left statisticsStep l (mkStatState [] 0 0 0 0)) in *.
    rewrite filter_app, !length_app, map_app, list_sum_app.
    unfold list_sum at 2. cbn [filter map fold_right List.length].
    assert (Hc : forall k c,
               k = acuteAngleCount e ->
               histogramAt c (increment k (histogram st)) =
               count_occ Nat.eq_dec (map acuteAngleCount l ++ [acuteAngleCount e]) c).
    { intros k c Ek. rewrite histogramAt_increment, count_occ_app, H. subst k.
      cbn [count_occ]. destruct (Nat.eq_dec c (acuteAngleCount e));
        destruct (Nat.eq_dec (acuteAngleCount e) c); try congruence; lia. }
    assert (Mx : forall e', In e' (l ++ [e]) ->
                 (acuteAngleCount e' <=
                  (if maxSoFar st <? acuteAngleCount e
                   then acuteAngleCount e else maxSoFar st))%nat).
    { intros e' I. apply in_app_or in I.
      destruct (Nat.ltb_spec (maxSoFar st) (acuteAngleCount e));
        destruct I as [I|[I|[]]]; try subst e'; try (specialize (M e' I)); lia. }
    assert (Am : (l ++ [e] = [] /\
                  (if maxSoFar st <? acuteAngleCount e
                   then acuteAngleCount e else maxSoFar st) = 0%nat) \/
                 exists e', In e' (l ++ [e]) /\
                            acuteAngleCount e' =
                            (if maxSoFar st <? acuteAngleCount e
                             then acuteAngleCount e else maxSoFar st)).
    { right. destruct (Nat.ltb_spec (maxSoFar st) (acuteAngleCount e)) as [Lt|Ge].
      - exists e. split; [apply in_or_app; right; left; reflexivity | reflexivity].
      - destruct A as [(El & Z)|(e' & I & E')].
        + exists e. split; [apply in_or_app; right; left; reflexivity | lia].
        + exists e'. split; [apply in_or_app; left; exact I | exact E']. }
    unfold statisticsStep. cbv zeta. clearbody st.
    destruct (Nat.ltb_spec 0 (acuteAngleCount e)) as [L|G];
      cbn [expandingCount shrinkingCount totalAcuteConnections histogram maxSoFar
           List.length].
    + split; [lia|]. split; [lia|]. split; [lia|].
      split; [intro c; apply Hc; reflexivity|]. split; [exact Mx | exact Am].
    + split; [lia|]. split; [lia|]. split; [lia|].
      split; [intro c; apply Hc; lia|]. split; [exact Mx | exact Am].
Qed.

(** X19. [getDetailedStatistics] counts every edge once: expanding and
    shrinking edges add up to the total, the histogram holds for every
    count the number of edges that have it, and the maximum is at least
    every count and is the count of an edge when there is one.  The average
    is the sum of the counts by the number of edges, a division by zero on
    an empty list. *)
Theorem getDetailedStatistics_counts :
  forall edges,
    let stats := getDetailedStatistics edges in
    statTotalEdges stats = List.length edges /\
    (expandingEdges stats + shrinkingEdges stats = List.length edges)%nat /\
    expandingEdges stats =
      List.length (filter (fun e => Nat.ltb 0 (acuteAngleCount e)) edges) /\
    (forall c, histogramAt c (acuteConnections stats) =
               count_occ Nat.eq_dec (map acuteAngleCount edges) c) /\
    (forall e, In e edges -> (acuteAngleCount e <= maxAcuteConnections stats)%nat) /\
    (edges <> [] ->
     (exists e, In e edges /\ acuteAngleCount e = maxAcuteConnections stats) /\
     averageAcuteConnections stats =
     Ok (INR (list_sum (map acuteAngleCount edges)) / INR (List.length edges))) /\
    (edges = [] ->
     maxAcuteConnections stats = 0%nat /\
     averageAcuteConnections stats = Err DivisionByZero).
Proof.
  intros edges stats. unfold stats, getDetailedStatistics. cbv zeta.
  cbn [statTotalEdges expandingEdges shrinkingEdges acuteConnections
       maxAcuteConnections averageAcuteConnections].
  destruct (statistics_invariant edges) as (X & SS & T & H & M & A).
  split; [reflexivity|]. split; [exact SS|]. split; [exact X|].
  split; [exact H|]. split; [exact M|]. split.
  - intro NE. split.
    + destruct A as [(E & _)|A]; [contradiction | exact A].
    + rewrite T. apply divide_Ok. destruct edges; [contradiction|].
      apply not_0_INR. discriminate.
  - intro E. subst edges. split; [reflexivity|].
    cbn. unfold divide. destruct (Req_dec_T 0 0); [reflexivity | congruence].
Qed.

(** ** MeshEvolver: what the forces add up to *)

Section ForceSums.
Variable g : force -> R.

Lemma sum_map_set : forall k v v0 (m : forces),
  map_get vertexKey_eq_dec k m = Some v0 ->
  fold_right Rplus 0 (map (fun kv => g (snd kv)) (map_set vertexKey_eq_dec k v m)) =
  fold_right Rplus 0 (map (fun kv => g (snd kv)) m) + g v - g v0.
Proof.
  intros k v v0 m. induction m as [|[k1 v1] m IH]; cbn [map_get map_set];
    intro G; [discriminate|].
  destruct (vertexKey_eq_dec k k1) as [E|N]; cbn [map fold_right snd].
  - injection G as E1. subst v1. lra.
  - rewrite (IH G). lra.
Qed.

Lemma sum_zero : forall (m : forces),
  Forall (fun kv => g (snd kv) = 0) m ->
  fold_right Rplus 0 (map (fun kv => g (snd kv)) m) = 0.
Proof.
  intros m F. induction F as [|kv m Z F IH]; cbn [map fold_right];
    [reflexivity | rewrite Z, IH; lra].
Qed.
End ForceSums.

Lemma Reqb_false_inv : forall a b, Reqb a b = false -> a <> b.
Proof.
  intros a b F E. rewrite (Reqb_true _ _ E) in F. discriminate.
Qed.

Lemma addEdgeForce_total : forall cfg h vf e vf',
  addEdgeForce cfg h vf e = Ok vf' ->
  totalForceX vf' = totalForceX vf /\ totalForceY vf' = totalForceY vf.
Proof.
  intros cfg h vf e vf'. unfold addEdgeForce. cbv zeta.
  match goal with |- context [Reqb ?l 0] => destruct (Reqb l 0) eqn:Z end.
  - intro H. injection H as E. subst vf'. split; reflexivity.
  - apply Reqb_false_inv in Z. rewrite !divide_Ok by exact Z. cbn [bind].
    destruct (map_get vertexKey_eq_dec (getVertexKey (read h (start e))) vf)
      as [sf|] eqn:GS; cbn [defined bind]; [|discriminate].
    destruct (map_get vertexKey_eq_dec (getVertexKey (read h (end_ e))) vf)
      as [ef|] eqn:GE; cbn [defined bind]; [|discriminate].
    match goal with
    | |- context [defined (map_get vertexKey_eq_dec ?k ?m)] =>
        destruct (map_get vertexKey_eq_dec k m) as [ef'|] eqn:GE'
    end; cbn [defined bind]; [|discriminate].
    intro H. injection H as E. subst vf'. unfold totalForceX, totalForceY.
    rewrite (sum_map_set force_x _ _ ef' _ GE'), (sum_map_set force_x _ _ sf _ GS).
    rewrite (sum_map_set force_y _ _ ef' _ GE'), (sum_map_set force_y _ _ sf _ GS).
    cbn [force_x force_y]. split; lra.
Qed.

Lemma accumulate_forces_total : forall cfg h edges vf vf',
  foldM (addEdgeForce cfg h) edges vf = Ok vf' ->
  totalForceX vf' = totalForceX vf /\ totalForceY vf' = totalForceY vf.
Proof.
  intros cfg h edges. induction edges as [|e edges IH]; intros vf vf' H;
    cbn [foldM] in H.
  - injection H as E. subst vf'. split; reflexivity.
  - destruct (addEdgeForce cfg h vf e) as [vf1|] eqn:A; cbn [bind] in H;
      [|discriminate].
    destruct (addEdgeForce_total _ _ _ _ _ A) as [X1 Y1].
    destruct (IH _ _ H) as [X2 Y2]. split; congruence.
Qed.

(** X20. The forces [applySpringForcesToEdges] accumulates over all edges
    cancel: whatever an edge adds to the accumulator of its start it takes
    from the accumulator of its end, so the accumulated forces add up to
    zero along x and along y. *)
Theorem accumulated_forces_cancel :
  forall cfg h edges,
    exists vf,
      foldM (addEdgeForce cfg h) edges (initForces h edges) = Ok vf /\
      totalForceX vf = 0 /\ totalForceY vf = 0.
Proof.
  intros cfg h edges.
  destruct (applySpringForcesToEdges_stages cfg [] h edges)
    as (vf & _ & _ & A & _).
  exists vf. split; [exact A|].
  destruct (accumulate_forces_total _ _ _ _ _ A) as [X Y].
  destruct (initForces_invariant h edges []) as (_ & _ & _ & V).
  pose proof (V (fun kv => force_x (snd kv) = 0 /\ force_y (snd kv) = 0)
                (Forall_nil _)) as Z.
  cbv zeta in Z.
  assert (F : Forall (fun kv : vertexKey * force =>
                        force_x (snd kv) = 0 /\ force_y (snd kv) = 0)
                     (initForces h edges)).
  { apply Z. intros e _. cbn [snd force_x force_y]. repeat split. }
  rewrite X, Y. unfold totalForceX, totalForceY. split.
  - apply sum_zero. eapply Forall_impl; [|exact F]. intros kv [P _]. exact P.
  - apply sum_zero. eapply Forall_impl; [|exact F]. intros kv [_ P]. exact P.
Qed.

(** ** MeshEvolver: coincident endpoint objects *)

Lemma moved_or_not : forall (vf : forces) r,
  Forall (fun kv => force_vertex (snd kv) <> r) vf \/
  exists k f, In (k, f) vf /\ force_vertex f = r.
Proof.
  intros vf r. induction vf as [|[k f] vf IH].
  - left. constructor.
  - destruct (Nat.eq_dec (force_vertex f) r) as [E|N].
    + right. exists k, f. split; [left; reflexivity | exact E].
    + destruct IH as [F|(k' & f' & I & E)].
      * left. constructor; [exact N | exact F].
      * right. exists k', f'. split; [right; exact I | exact E].
Qed.

(** X21. Of two different objects that print the same position key, a pass
    moves at most one: the accumulator of a key names the one object that
    was seen first under it, and only that object is moved.  Edges that
    meet in a point hold an endpoint object each, so the pass moves the
    endpoint of one of them and leaves the others where they were. *)
Theorem coincident_endpoints_one_moves :
  forall cfg vv h edges r1 r2,
    r1 <> r2 ->
    getVertexKey (read h r1) = getVertexKey (read h r2) ->
    exists vv' h' edges',
      applySpringForcesToEdges cfg vv h edges = Ok (vv', h', edges') /\
      (read h' r1 = read h r1 \/ read h' r2 = read h r2).
Proof.
  intros cfg vv h edges r1 r2 NE K.
  destruct (applySpringForcesToEdges_stages cfg vv h edges)
    as (vf & vv' & h' & _ & ND & F & U & R).
  exists vv', h', (map (refreshLength h') edges). split; [exact R|].
  destruct (moved_or_not vf r1) as [F1|(k1 & f1 & I1 & E1)].
  { left. eapply updateVertexPositions_frame; eassumption. }
  destruct (moved_or_not vf r2) as [F2|(k2 & f2 & I2 & E2)].
  { right. eapply updateVertexPositions_frame; eassumption. }
  exfalso. unfold shape in F. rewrite Forall_map, Forall_forall in F.
  destruct (F _ I1) as [K1 _]. destruct (F _ I2) as [K2 _].
  cbn [fst snd] in K1, K2. rewrite E1 in K1. rewrite E2 in K2.
  assert (Ek : k2 = k1) by congruence.
  pose proof (map_get_In k1 f1 vf ND I1) as G1.
  pose proof (map_get_In k2 f2 vf ND I2) as G2.
  rewrite Ek in G2. apply NE. congruence.
Qed.

Lemma coincident_endpoints_one_moves_witness :
  exists vv' h' edges',
    applySpringForcesToEdges defaultConfig [] cornerHeap
                             [cornerEdge1; cornerEdge2] = Ok (vv', h', edges') /\
    (read h' 0%nat = read cornerHeap 0%nat \/
     read h' 2%nat = read cornerHeap 2%nat).
Proof.
  apply (coincident_endpoints_one_moves defaultConfig [] cornerHeap
           [cornerEdge1; cornerEdge2] 0%nat 2%nat).
  - discriminate.
  - reflexivity.
Defined.

(** ** MeshEvolver: a mesh at rest *)

Lemma addEdgeForce_at_rest : forall cfg h vf e vf',
  atRest h e ->
  Forall (fun kv => force_x (snd kv) = 0 /\ force_y (snd kv) = 0) vf ->
  addEdgeForce cfg h vf e = Ok vf' ->
  Forall (fun kv => force_x (snd kv) = 0 /\ force_y (snd kv) = 0) vf'.
Proof.
  intros cfg h vf e vf' R F. unfold atRest, currentLength in R. cbv zeta in R.
  unfold addEdgeForce. cbv zeta. rewrite <- R.
  match goal with |- context [Reqb ?l 0] => destruct (Reqb l 0) eqn:Z end.
  - intro H. injection H as E. subst vf'. exact F.
  - apply Reqb_false_inv in Z. rewrite !divide_Ok by exact Z. cbn [bind].
    destruct (map_get vertexKey_eq_dec (getVertexKey (read h (start e))) vf)
      as [sf|] eqn:GS; cbn [defined bind]; [|discriminate].
    destruct (map_get vertexKey_eq_dec (getVertexKey (read h (end_ e))) vf)
      as [ef|] eqn:GE; cbn [defined bind]; [|discriminate].
    match goal with
    | |- context [defined (map_get vertexKey_eq_dec ?k ?m)] =>
        destruct (map_get vertexKey_eq_dec k m) as [ef'|] eqn:GE'
    end; cbn [defined bind]; [|discriminate].
    intro H. injection H as E. subst vf'.
    destruct (map_get_Forall _ _ _ _ F GS) as [Sx Sy]. cbn [snd] in Sx, Sy.
    match goal with
    | |- Forall _ (map_set _ _ _ ?m) =>
        assert (F1 : Forall (fun kv : vertexKey * force =>
                               force_x (snd kv) = 0 /\ force_y (snd kv) = 0) m)
    end.
    { apply map_set_Forall; [exact F|]. cbn [snd force_x force_y].
      rewrite Sx, Sy. unfold Rdiv. split; ring. }
    destruct (map_get_Forall _ _ _ _ F1 GE') as [Ex Ey]. cbn [snd] in Ex, Ey.
    apply map_set_Forall; [exact F1|]. cbn [snd force_x force_y].
    rewrite Ex, Ey. unfold Rdiv. split; ring.
Qed.

Lemma accumulate_at_rest : forall cfg h edges vf vf',
  (forall e, In e edges -> atRest h e) ->
  Forall (fun kv => force_x (snd kv) = 0 /\ force_y (snd kv) = 0) vf ->
  foldM (addEdgeForce cfg h) edges vf = Ok vf' ->
  Forall (fun kv => force_x (snd kv) = 0 /\ force_y (snd kv) = 0) vf'.
Proof.
  intros cfg h edges. induction edges as [|e edges IH]; intros vf vf' R F H;
    cbn [foldM] in H.
  - injection H as E. subst vf'. exact F.
  - destruct (addEdgeForce cfg h vf e) as [vf1|] eqn:A; cbn [bind] in H;
      [|discriminate].
    apply (IH vf1 vf'); [intros e' I; apply R; right; exact I | | exact H].
    apply (addEdgeForce_at_rest cfg h vf e vf1);
      [apply R; left; reflexivity | exact F | exact A].
Qed.

Lemma updateVertexPositions_at_rest : forall cfg vf vv h,
  Forall (fun kv => force_x (snd kv) = 0 /\ force_y (snd kv) = 0) vf ->
  Forall (fun kv => inDomain (read h (force_vertex (snd kv)))) vf ->
  storeAtRest vv ->
  exists vv' h',
    updateVertexPositions cfg vv h vf = Ok (vv', h') /\
    (forall r, read h' r = read h r) /\ storeAtRest vv'.
Proof.
  intros cfg vf. unfold updateVertexPositions.
  induction vf as [|[key f] vf IH]; intros vv h Z D S; cbn [foldM].
  - exists vv, h. auto.
  - rewrite moveVertex_eq. cbv zeta. cbn [bind].
    inversion Z as [|? ? [Zx Zy] Z']; subst. cbn [snd] in Zx, Zy.
    inversion D as [|? ? [Dx Dy] D']; subst. cbn [snd] in Dx, Dy.
    assert (V0 : match map_get vertexKey_eq_dec key vv with
                 | Some v0 => v0
                 | None => mkVelocity 0 0
                 end = mkVelocity 0 0).
    { destruct (map_get vertexKey_eq_dec key vv) as [v0|] eqn:G;
        [apply (S key v0 G) | reflexivity]. }
    rewrite V0, Zx, Zy. cbn [velocity_x velocity_y].
    replace ((0 + 0 * timeStep cfg) * dampingFactor cfg) with 0 by ring.
    replace (x (read h (force_vertex f)) + 0 * timeStep cfg)
      with (x (read h (force_vertex f))) by ring.
    replace (y (read h (force_vertex f)) + 0 * timeStep cfg)
      with (y (read h (force_vertex f))) by ring.
    rewrite !wrapCoordinate_inside by assumption.
    match goal with
    | |- context [foldM _ vf (?vv1, ?h1)] =>
        assert (Same : forall r, read h1 r = read h r);
        [|assert (S1 : storeAtRest vv1);
          [|destruct (IH vv1 h1 Z') as (vv' & h' & U & Same' & S')]]
    end.
    + intro r. destruct (Nat.eq_dec r (force_vertex f)) as [E|N].
      * subst r. rewrite read_write_same.
        destruct (read h (force_vertex f)). reflexivity.
      * apply read_write_other. exact N.
    + intros k v G. destruct (vertexKey_eq_dec k key) as [E|N].
      * subst k. rewrite map_get_set_same in G. congruence.
      * rewrite map_get_set_other in G by exact N.
        destruct (map_has vertexKey_eq_dec key vv); [apply (S k v G)|].
        rewrite map_get_set_other in G by exact N. apply (S k v G).
    + eapply Forall_impl; [|exact D']. intros kv I. cbv beta in *.
      rewrite Same. exact I.
    + exact S1.
    + exists vv', h'. split; [exact U|]. split; [|exact S'].
      intro r. rewrite Same'. apply Same.
Qed.

(** X22. A mesh at rest stays at rest.  When every edge has the length
    its spring pulls it to, the endpoints lie in the domain and the store
    holds no velocity other than zero, a pass moves no object at all and
    stores nothing but zero velocities, so the edges it returns are at rest
    again. *)
Theorem mesh_at_rest_is_fixed :
  forall cfg vv h edges,
    (forall e, In e edges ->
               atRest h e /\
               inDomain (read h (start e)) /\ inDomain (read h (end_ e))) ->
    storeAtRest vv ->
    exists vv' h' edges',
      applySpringForcesToEdges cfg vv h edges = Ok (vv', h', edges') /\
      (forall r, read h' r = read h r) /\
      storeAtRest vv' /\
      List.length edges' = List.length edges /\
      (forall e', In e' edges' ->
                  atRest h' e' /\
                  inDomain (read h' (start e')) /\ inDomain (read h' (end_ e'))).
Proof.
  intros cfg vv h edges R S.
  destruct (applySpringForcesToEdges_stages cfg vv h edges)
    as (vf & vv0 & h0 & A & _ & F & U0 & _).
  destruct (initForces_invariant h edges []) as (_ & _ & _ & V).
  pose proof (V (fun kv => force_x (snd kv) = 0 /\ force_y (snd kv) = 0)
                (Forall_nil _)) as Z0. cbv zeta in Z0.
  assert (Z : Forall (fun kv : vertexKey * force =>
                        force_x (snd kv) = 0 /\ force_y (snd kv) = 0) vf).
  { apply (accumulate_at_rest cfg h edges (initForces h edges) vf);
      [intros e I; apply (R e I) | | exact A].
    apply Z0. intros e _. cbn [snd force_x force_y]. repeat split. }
  assert (D : Forall (fun kv : vertexKey * force =>
                        inDomain (read h (force_vertex (snd kv)))) vf).
  { unfold shape in F. rewrite Forall_map in F.
    eapply Forall_impl; [|exact F].
    intros kv [_ (e & I & [E|E])]; cbn [snd] in E; rewrite E; apply (R e I). }
  destruct (updateVertexPositions_at_rest cfg vf vv h Z D S)
    as (vv' & h' & U & Same & S').
  exists vv', h', (map (refreshLength h') edges).
  split; [|split; [exact Same | split; [exact S' | split; [apply length_map|]]]].
  - unfold applySpringForcesToEdges. rewrite A. cbn [bind]. rewrite U.
    reflexivity.
  - intros e' I. apply in_map_iff in I. destruct I as (e & E & I). subst e'.
    destruct (R e I) as (Re & Ds & De).
    unfold refreshLength. cbv zeta. cbn [start end_ set_length].
    rewrite !Same. split; [|split; assumption].
    unfold atRest, currentLength in *. cbv zeta in *.
    cbn [start end_ targetLength length set_length]. rewrite !Same.
    unfold or_else in *. destruct (targetLength e) as [t|]; [|reflexivity].
    destruct (Reqb t 0); [reflexivity | exact Re].
Qed.

Lemma mesh_at_rest_is_fixed_witness :
  exists vv' h' edges',
    applySpringForcesToEdges defaultConfig [] topHeap [topEdge] =
    Ok (vv', h', edges') /\
    forall r, read h' r = read topHeap r.
Proof.
  destruct (mesh_at_rest_is_fixed defaultConfig [] topHeap [topEdge])
    as (vv' & h' & edges' & A & Same & _).
  - intros e [E|[]]. subst e. split; [|split].
    + unfold atRest, currentLength. cbn.
      replace ((2 - 0) * (2 - 0) + (6 - 6) * (6 - 6)) with (2 * 2) by lra.
      apply sqrt_square. lra.
    + unfold inDomain. cbn. lra.
    + unfold inDomain. cbn. lra.
  - intros k v G. discriminate G.
  - exists vv', h', edges'. split; [exact A | exact Same].
Defined.

(** ** The application: generations *)

Import App.

Lemma last_nonempty_default : forall (A : Type) (d d' a : A) l,
  last (a :: l) d = last (a :: l) d'.
Proof.
  intros A d d' a l. revert a. induction l as [|b l IH]; intro a.
  - reflexivity.
  - change (last (b :: l) d = last (b :: l) d'). apply IH.
Qed.

Lemma applyEdgeValues_edges : forall cfg vv h edges edgeValues,
  exists vv' h',
    applyEdgeValues cfg vv h edges edgeValues =
    Ok (vv', h', map (refreshLength h') (updateRestLengths edges edgeValues)).
Proof.
  intros cfg vv h edges edgeValues. unfold applyEdgeValues.
  destruct (applySpringForcesToEdges_stages cfg vv h
              (updateRestLengths edges edgeValues))
    as (vf & vv' & h' & _ & _ & _ & _ & R).
  exists vv', h'. exact R.
Qed.

Lemma Forall2_map_right : forall (A : Type) (P : A -> A -> Prop) (f : A -> A) l,
  (forall a, P a (f a)) -> Forall2 P l (map f l).
Proof.
  intros A P f l H. induction l as [|a l IH]; cbn [map]; constructor; auto.
Qed.

Lemma Forall2_In_right : forall (A : Type) (P : A -> A -> Prop) l l' b,
  Forall2 P l l' -> In b l' -> exists a, In a l /\ P a b.
Proof.
  intros A P l l' b F. induction F as [|a0 b0 l l' H F IH]; intros I.
  - destruct I.
  - destruct I as [E|I].
    + subst b0. exists a0. split; [left; reflexivity | exact H].
    + destruct (IH I) as (a & Ia & Pa). exists a. split; [right; exact Ia | exact Pa].
Qed.

Lemma Forall2_compose : forall (A : Type) (P Q T : A -> A -> Prop),
  (forall a b c, P a b -> Q b c -> T a c) ->
  forall l1 l2 l3, Forall2 P l1 l2 -> Forall2 Q l2 l3 -> Forall2 T l1 l3.
Proof.
  intros A P Q T C l1 l2 l3 F. revert l3.
  induction F as [|a b l1 l2 H F IH]; intros l3 G; inversion G; subst.
  - constructor.
  - constructor; [eapply C; eassumption | apply IH; assumption].
Qed.

Lemma sameTopology_trans : forall a b c,
  sameTopology a b -> sameTopology b c -> sameTopology a c.
Proof.
  unfold sameTopology. intros a b c (A1 & A2 & A3 & A4 & A5) (B1 & B2 & B3 & B4 & B5).
  repeat split; congruence.
Qed.

Lemma Forall2_filter_length : forall (A : Type) (p : A -> bool) l l',
  Forall2 (fun a b => p b = p a) l l' ->
  List.length (filter p l') = List.length (filter p l).
Proof.
  intros A p l l' F. induction F as [|a b l l' H F IH]; cbn [filter];
    [reflexivity|].
  rewrite H. destruct (p a); cbn [List.length]; rewrite IH; reflexivity.
Qed.

(** The evolver pass, on the edges [calculateEdgeValues] returns, keeps
    the identity, endpoints, neighbours and count of every edge. *)
Lemma pass_keeps : forall h' rate evs es,
  Forall2 (fun e e' => sameTopology e e' /\ acuteAngleCount e' = acuteAngleCount e)
          es
          (map (refreshLength h')
               (updateRestLengths (map (fun e => fst (edgeValueOf rate e)) es) evs)).
Proof.
  intros h' rate evs es. unfold updateRestLengths. cbv zeta. rewrite !map_map.
  apply Forall2_map_right. intro e. unfold sameTopology, refreshLength.
  cbv zeta. unfold edgeValueOf. cbn [fst].
  match goal with |- context [if falsy ?o then _ else _] => destruct (falsy o) end;
    cbn [originalLength set_originalLength set_expandValue];
    try match goal with
        | |- context [match originalLength ?e0 with _ => _ end] =>
            destruct (originalLength e0)
        end;
    repeat split.
Qed.

(** One generation on a mesh whose edges list only positions of the mesh. *)
Lemma evolveOneGeneration_step : forall a,
  (forall e j, In e (meshEdges a) -> In j (connectedEdges e) ->
               (j < List.length (meshEdges a))%nat) ->
  exists a',
    evolveOneGeneration a = Ok a' /\
    generation a' = S (generation a) /\
    Forall2 sameTopology (meshEdges a) (meshEdges a') /\
    changeRate a' = changeRate a /\
    evolverConfig a' = evolverConfig a /\
    isEvolutionRunning a' = isEvolutionRunning a /\
    evolutionTimer a' = evolutionTimer a /\
    shownGeneration (display a') = generation a' /\
    shownAcuteEdges (display a') =
      List.length (filter (fun e => Nat.ltb 0 (acuteAngleCount e)) (meshEdges a')) /\
    shownExpandingEdges (display a') = shownAcuteEdges (display a') /\
    (shownAcuteEdges (display a') + shownShrinkingEdges (display a') =
     List.length (meshEdges a'))%nat.
Proof.
  intros a R.
  assert (R' : forall e, In e (meshEdges a) ->
                         indicesInRange (List.length (meshEdges a)) e = true).
  { intros e I. apply indicesInRange_spec. intros j Ij. apply (R e j I Ij). }
  unfold evolveOneGeneration. cbv zeta.
  pose proof (analyzeAcuteAngles_result (meshObjects a) (meshEdges a) R') as An.
  cbv zeta in An. rewrite An. cbn [bind]. unfold calculateEdgeValues.
  set (es1 := map (analysedEdge (meshObjects a) (meshEdges a)) (meshEdges a)).
  match goal with
  | |- context [applyEdgeValues ?cfg ?vv ?h ?es ?evs] =>
      destruct (applyEdgeValues_edges cfg vv h es evs) as (vv' & h' & Ap);
      pose proof (pass_keeps h' (changeRate a) evs es1) as K
  end.
  rewrite Ap. cbn [bind fst snd]. eexists. split; [reflexivity|].
  cbn [generation meshEdges changeRate evolverConfig isEvolutionRunning
       evolutionTimer display shownGeneration shownAcuteEdges
       shownExpandingEdges shownShrinkingEdges acuteEdgeCount
       expandingEdgeCount shrinkingEdgeCount].
  match type of K with Forall2 _ _ ?l => set (es2 := l) in * end.
  assert (L1 : List.length es1 = List.length (meshEdges a))
    by (unfold es1; apply length_map).
  assert (L2 : List.length es2 = List.length es1)
    by (symmetry; eapply Forall2_length; exact K).
  assert (C : List.length (filter (fun e => Nat.ltb 0 (acuteAngleCount e)) es2) =
              List.length (filter (fun e => Nat.ltb 0 (acuteAngleCount e)) es1)).
  { apply Forall2_filter_length. eapply Forall2_impl; [|exact K].
    intros e e' [_ E]. cbv beta. rewrite E. reflexivity. }
  pose proof (filter_length_le (fun e => Nat.ltb 0 (acuteAngleCount e)) es1) as Le.
  split; [reflexivity|]. split.
  { apply (Forall2_compose _ sameTopology
             (fun e e' => sameTopology e e' /\ acuteAngleCount e' = acuteAngleCount e)
             sameTopology) with (l2 := es1); [| |exact K].
    - intros x y z P [Q _]. eapply sameTopology_trans; eassumption.
    - unfold es1. apply Forall2_map_right. intro e. unfold sameTopology.
      repeat split. }
  split; [reflexivity|]. split; [reflexivity|]. split; [reflexivity|].
  split; [reflexivity|]. split; [reflexivity|].
  split; [symmetry; exact C|]. split; [reflexivity|]. lia.
Qed.

(** X23. On a mesh whose edges list only positions of the mesh, the
    evolution never stops with an error: any number of generations runs
    through, the generation counter goes up by one each time, the mesh keeps
    its edges with their ids, endpoint objects and neighbours, and after the
    last generation the page shows the counter and the number of edges of
    the mesh that have an acute connection, with the shrinking edges making
    up the rest. *)
Theorem generations_run : forall n a,
  (forall e j, In e (meshEdges a) -> In j (connectedEdges e) ->
               (j < List.length (meshEdges a))%nat) ->
  exists a',
    generations n a = Ok a' /\
    generation a' = (generation a + n)%nat /\
    Forall2 sameTopology (meshEdges a) (meshEdges a') /\
    changeRate a' = changeRate a /\
    evolverConfig a' = evolverConfig a /\
    isEvolutionRunning a' = isEvolutionRunning a /\
    evolutionTimer a' = evolutionTimer a /\
    ((0 < n)%nat ->
     shownGeneration (display a') = generation a' /\
     shownAcuteEdges (display a') =
       List.length (filter (fun e => Nat.ltb 0 (acuteAngleCount e)) (meshEdges a')) /\
     shownExpandingEdges (display a') = shownAcuteEdges (display a') /\
     (shownAcuteEdges (display a') + shownShrinkingEdges (display a') =
      List.length (meshEdges a'))%nat).
Proof.
  induction n as [|n IH]; intros a R; cbn [generations].
  - exists a. split; [reflexivity|]. split; [lia|]. split.
    + rewrite <- (map_id (meshEdges a)) at 2. apply Forall2_map_right.
      intro e. unfold sameTopology. repeat split.
    + repeat split; try reflexivity; lia.
  - destruct (evolveOneGeneration_step a R)
      as (a1 & E & G1 & T1 & C1 & K1 & I1 & M1 & D1).
    rewrite E. cbn [bind].
    assert (R1 : forall e j, In e (meshEdges a1) -> In j (connectedEdges e) ->
                             (j < List.length (meshEdges a1))%nat).
    { intros e' j I Ij.
      destruct (Forall2_In_right _ _ _ _ _ T1 I) as (e & Ie & (_ & _ & _ & CE & _)).
      rewrite <- (Forall2_length T1). apply (R e j Ie). rewrite <- CE. exact Ij. }
    destruct (IH a1 R1) as (a' & E' & G' & T' & C' & K' & I' & M' & D').
    exists a'. split; [exact E'|]. split; [lia|]. split.
    { apply (Forall2_compose _ sameTopology sameTopology sameTopology)
        with (l2 := meshEdges a1); [exact sameTopology_trans | exact T1 | exact T']. }
    split; [congruence|]. split; [congruence|]. split; [congruence|].
    split; [congruence|]. intros _.
    destruct n as [|n]; [|apply D'; lia].
    cbn [generations] in E'. injection E' as Ea. subst a'. exact D1.
Qed.

Lemma generations_run_witness :
  exists a',
    generations 2 cornerApp = Ok a' /\ generation a' = 2%nat /\
    shownGeneration (display a') = 2%nat.
Proof.
  destruct (generations_run 2 cornerApp)
    as (a' & E & G & _ & _ & _ & _ & _ & D).
  - intros e j [E|[E|[]]] Ij; subst e; cbn in Ij; destruct Ij as [Ej|[]];
      subst j; cbn; lia.
  - exists a'. split; [exact E|]. split; [exact G|].
    destruct D as (D & _); [lia|]. rewrite D. exact G.
Defined.

(** ** The application: start and pause *)

Lemma startEvolution_invariant : forall a t,
  live t = timerOf a ->
  (isEvolutionRunning a = true <-> evolutionTimer a <> None) ->
  let st' := startEvolution (a, t) in
  live (snd st') = timerOf (fst st') /\
  (isEvolutionRunning (fst st') = true <-> evolutionTimer (fst st') <> None) /\
  isEvolutionRunning (fst st') = true /\
  meshEdges (fst st') = meshEdges a /\ generation (fst st') = generation a.
Proof.
  intros a t L RT. cbv zeta. unfold startEvolution.
  destruct (isEvolutionRunning a) eqn:Run; cbn [fst snd].
  - split; [exact L|]. split; [rewrite Run; exact RT|]. split; [exact Run|].
    split; reflexivity.
  - unfold setInterval. cbn [fst snd setRunning live timerOf evolutionTimer
                             isEvolutionRunning meshEdges generation].
    assert (N : evolutionTimer a = None).
    { destruct (evolutionTimer a) eqn:T; [|reflexivity].
      assert (F : false = true) by (apply RT; discriminate). discriminate F. }
    unfold timerOf in L. rewrite N in L. rewrite L.
    repeat split; try reflexivity; try discriminate.
Qed.

Lemma pauseEvolution_invariant : forall a t,
  live t = timerOf a ->
  (isEvolutionRunning a = true <-> evolutionTimer a <> None) ->
  let st' := pauseEvolution (a, t) in
  live (snd st') = [] /\
  evolutionTimer (fst st') = None /\
  isEvolutionRunning (fst st') = false /\
  meshEdges (fst st') = meshEdges a /\ generation (fst st') = generation a.
Proof.
  intros a t L RT. cbv zeta. unfold pauseEvolution.
  destruct (isEvolutionRunning a) eqn:Run; cbn [negb fst snd].
  - destruct (evolutionTimer a) as [handle|] eqn:T.
    + cbn [fst snd setRunning clearInterval live evolutionTimer
           isEvolutionRunning meshEdges generation].
      unfold timerOf in L. rewrite T in L. rewrite L. cbn [remove].
      destruct (Pos.eq_dec handle handle); [|congruence]. repeat split.
    + exfalso. apply RT; reflexivity.
  - assert (N : evolutionTimer a = None).
    { destruct (evolutionTimer a) eqn:T; [|reflexivity].
      assert (F : false = true) by (apply RT; discriminate). discriminate F. }
    unfold timerOf in L. rewrite N in L. repeat split; assumption.
Qed.

(** X24. Whatever sequence of Start and Pause the buttons send to an
    application that is not running and has no interval, the browser holds
    at most one interval of the application, the one in [evolutionTimer]:
    a second Start adds none, a Pause clears it, and the evolution is marked
    as running exactly when the interval is there.  Neither button touches
    the mesh or the generation counter. *)
Theorem start_pause_one_timer :
  forall acts a t,
    isEvolutionRunning a = false ->
    evolutionTimer a = None ->
    live t = [] ->
    let st' := fold_left perform acts (a, t) in
    live (snd st') = timerOf (fst st') /\
    (List.length (live (snd st')) <= 1)%nat /\
    (isEvolutionRunning (fst st') = true <-> evolutionTimer (fst st') <> None) /\
    (isEvolutionRunning (fst st') = true <-> last acts Pause = Start) /\
    meshEdges (fst st') = meshEdges a /\ generation (fst st') = generation a.
Proof.
  intros acts a t Run Tm Lv. cbv zeta.
  assert (G : forall acts a0 t0,
             live t0 = timerOf a0 ->
             (isEvolutionRunning a0 = true <-> evolutionTimer a0 <> None) ->
             let st' := fold_left perform acts (a0, t0) in
             live (snd st') = timerOf (fst st') /\
             (isEvolutionRunning (fst st') = true <->
              evolutionTimer (fst st') <> None) /\
             (isEvolutionRunning (fst st') = true <->
              last acts (if isEvolutionRunning a0 then Start else Pause) = Start) /\
             meshEdges (fst st') = meshEdges a0 /\
             generation (fst st') = generation a0).
  { clear. induction acts as [|act acts IH]; intros a0 t0 L RT; cbv zeta.
    - cbn [fold_left fst snd last]. split; [exact L|]. split; [exact RT|].
      split; [|split; reflexivity].
      destruct (isEvolutionRunning a0); split; intro H; congruence.
    - cbn [fold_left]. destruct act; cbn [perform].
      + pose proof (startEvolution_invariant a0 t0 L RT) as S. cbv zeta in S.
        destruct (startEvolution (a0, t0)) as [a1 t1]. cbn [fst snd] in S.
        destruct S as (L1 & RT1 & Run1 & M1 & G1).
        pose proof (IH a1 t1 L1 RT1) as I. cbv zeta in I.
        destruct I as (L' & RT' & Last' & M' & G').
        split; [exact L'|]. split; [exact RT'|].
        split; [|split; congruence].
        destruct acts as [|b acts].
        * cbn [fold_left fst last]. rewrite Run1. split; intro; reflexivity.
        * change (last (Start :: b :: acts)
                       (if isEvolutionRunning a0 then Start else Pause))
            with (last (b :: acts) (if isEvolutionRunning a0 then Start else Pause)).
          rewrite (last_nonempty_default _
                     (if isEvolutionRunning a0 then Start else Pause)
                     (if isEvolutionRunning a1 then Start else Pause) b acts).
          exact Last'.
      + pose proof (pauseEvolution_invariant a0 t0 L RT) as S. cbv zeta in S.
        destruct (pauseEvolution (a0, t0)) as [a1 t1]. cbn [fst snd] in S.
        destruct S as (L1 & T1 & Run1 & M1 & G1).
        assert (L1' : live t1 = timerOf a1)
          by (unfold timerOf; rewrite T1; exact L1).
        assert (RT1 : isEvolutionRunning a1 = true <-> evolutionTimer a1 <> None)
          by (rewrite T1, Run1; split; intro H; congruence).
        pose proof (IH a1 t1 L1' RT1) as I. cbv zeta in I.
        destruct I as (L' & RT' & Last' & M' & G').
        split; [exact L'|]. split; [exact RT'|].
        split; [|split; congruence].
        destruct acts as [|b acts].
        * cbn [fold_left fst last]. rewrite Run1. split; intro H; discriminate H.
        * change (last (Pause :: b :: acts)
                       (if isEvolutionRunning a0 then Start else Pause))
            with (last (b :: acts) (if isEvolutionRunning a0 then Start else Pause)).
          rewrite (last_nonempty_default _
                     (if isEvolutionRunning a0 then Start else Pause)
                     (if isEvolutionRunning a1 then Start else Pause) b acts).
          exact Last'. }
  assert (L0 : live t = timerOf a) by (unfold timerOf; rewrite Tm; exact Lv).
  assert (RT0 : isEvolutionRunning a = true <-> evolutionTimer a <> None)
    by (rewrite Tm, Run; split; intro H; congruence).
  pose proof (G acts a t L0 RT0) as I. cbv zeta in I. rewrite Run in I.
  destruct I as (L' & RT' & Last' & M' & G').
  split; [exact L'|]. split.
  { rewrite L'. unfold timerOf.
    destruct (evolutionTimer (fst (fold_left perform acts (a, t))));
      cbn [List.length]; auto. }
  split; [exact RT'|]. split; [exact Last'|]. split; assumption.
Qed.

Lemma start_pause_one_timer_witness :
  live (snd (fold_left perform [Start; Start; Pause; Start] (cornerApp, noTimers))) =
  timerOf (fst (fold_left perform [Start; Start; Pause; Start] (cornerApp, noTimers))).
Proof.
  exact (proj1 (start_pause_one_timer [Start; Start; Pause; Start]
                  cornerApp noTimers eq_refl eq_refl eq_refl)).
Defined.

(** ** VoronoiMesh: the render buffers *)

Import VoronoiMesh.

Lemma update_nth_app_right : forall (A : Type) (f : A -> A) pre l j,
  update_nth (List.length pre + j) f (pre ++ l) = pre ++ update_nth j f l.
Proof.
  intros A f pre l j. induction pre as [|a pre IH]; cbn [List.length Datatypes.app Nat.add].
  - reflexivity.
  - cbn [update_nth]. rewrite IH. reflexivity.
Qed.

Lemma setXYZ_chunk : forall pre a0 b0 c0 rest index a b c,
  List.length pre = (3 * index)%nat ->
  setXYZ (pre ++ a0 :: b0 :: c0 :: rest) index a b c =
  pre ++ a :: b :: c :: rest.
Proof.
  intros pre a0 b0 c0 rest index a b c L. unfold setXYZ. cbv zeta.
  replace (3 * index)%nat with (List.length pre + 0)%nat by lia.
  rewrite update_nth_app_right. cbn [update_nth].
  replace (List.length pre + 0 + 1)%nat with (List.length pre + 1)%nat by lia.
  rewrite update_nth_app_right. cbn [update_nth].
  replace (List.length pre + 0 + 2)%nat with (List.length pre + 2)%nat by lia.
  rewrite update_nth_app_right. cbn [update_nth]. reflexivity.
Qed.

Lemma addCellGeometry_fold : forall cells g,
  cellVertices (fold_left addCellGeometry cells g) =
    cellVertices g ++ flat_map (fun pt => [fst pt; snd pt; 0]) (drawnPoints cells) /\
  vertexIndex (fold_left addCellGeometry cells g) =
    (vertexIndex g + List.length (drawnPoints cells))%nat.
Proof.
  induction cells as [|c cells IH]; intro g; cbn [fold_left].
  - unfold drawnPoints. cbn [flat_map List.length]. rewrite app_nil_r, Nat.add_0_r.
    split; reflexivity.
  - destruct (IH (addCellGeometry g c)) as [V N]. rewrite V, N.
    unfold drawnPoints. cbn [flat_map]. fold (drawnPoints cells).
    unfold addCellGeometry.
    destruct (polygon c) as [pts|]; [|split; reflexivity].
    destruct (Nat.ltb (List.length pts) 3); [split; reflexivity|].
    cbn [cellVertices vertexIndex].
    rewrite flat_map_app, length_app, <- app_assoc, Nat.add_assoc.
    split; reflexivity.
Qed.

Lemma In_fanIndices : forall s n i,
  In i (fanIndices s n) -> (s <= i < s + n)%nat.
Proof.
  intros s n i I. unfold fanIndices in I. apply in_flat_map in I.
  destruct I as (k & Ik & I). apply in_seq in Ik.
  destruct I as [E|[E|[E|[]]]]; subst i; lia.
Qed.

Lemma length_fanIndices : forall s n,
  List.length (fanIndices s n) = (3 * (n - 2))%nat.
Proof.
  intros s n. unfold fanIndices.
  rewrite length_flat_map_const with (n := 3%nat);
    [rewrite length_seq; lia | intros k; reflexivity].
Qed.

Lemma cellIndices_invariant : forall cells g,
  Forall (fun i => (i < vertexIndex g)%nat) (cellIndices g) ->
  (exists k, List.length (cellIndices g) = (3 * k)%nat) ->
  Forall (fun i => (i < vertexIndex (fold_left addCellGeometry cells g))%nat)
         (cellIndices (fold_left addCellGeometry cells g)) /\
  exists k, List.length (cellIndices (fold_left addCellGeometry cells g)) =
            (3 * k)%nat.
Proof.
  induction cells as [|c cells IH]; intros g F T; cbn [fold_left].
  - split; assumption.
  - apply IH; unfold addCellGeometry; destruct (polygon c) as [pts|];
      try assumption; destruct (Nat.ltb (List.length pts) 3); try assumption;
      cbn [cellIndices vertexIndex].
    + apply Forall_app. split.
      * eapply Forall_impl; [|exact F]. intros i Hi. cbv beta in *. lia.
      * apply Forall_forall. intros i I. apply In_fanIndices in I. lia.
    + destruct T as (k & T). exists (k + (List.length pts - 2))%nat.
      rewrite length_app, T, length_fanIndices. lia.
Qed.

(** X25. The buffers [createCellMesh] hands to the renderer fit together:
    the position buffer holds three numbers for every vertex counted, the
    counted vertices are the points of the polygons with at least three
    points, the index buffer holds whole triangles, and every index names
    a vertex of the position buffer. *)
Theorem createCellMesh_indices_in_range :
  forall cells,
    let g := createCellMesh cells in
    List.length (cellVertices g) = (3 * vertexIndex g)%nat /\
    vertexIndex g = List.length (drawnPoints cells) /\
    (exists k, List.length (cellIndices g) = (3 * k)%nat) /\
    forall i, In i (cellIndices g) -> (i < vertexIndex g)%nat.
Proof.
  intros cells g. unfold g, createCellMesh.
  destruct (cellIndices_invariant cells (mkCellGeometry [] [] 0)) as (F & T).
  { constructor. }
  { exists 0%nat. reflexivity. }
  destruct (addCellGeometry_fold cells (mkCellGeometry [] [] 0)) as [V N].
  cbn [cellVertices vertexIndex Datatypes.app Nat.add] in V, N.
  split; [|split; [exact N | split; [exact T|]]].
  - rewrite V, N. apply length_flat_map_const. intros pt. reflexivity.
  - rewrite Forall_forall in F. exact F.
Qed.

Lemma setXYZ_pair : forall pre a1 a2 a3 a4 a5 a6 rest k x1 y1 z1 x2 y2 z2,
  List.length pre = (6 * k)%nat ->
  setXYZ (setXYZ (pre ++ a1 :: a2 :: a3 :: a4 :: a5 :: a6 :: rest)
                 (k * 2) x1 y1 z1)
         (k * 2 + 1) x2 y2 z2 =
  pre ++ [x1; y1; z1; x2; y2; z2] ++ rest.
Proof.
  intros pre a1 a2 a3 a4 a5 a6 rest k x1 y1 z1 x2 y2 z2 L.
  rewrite setXYZ_chunk by lia.
  replace (pre ++ x1 :: y1 :: z1 :: a4 :: a5 :: a6 :: rest)
    with ((pre ++ [x1; y1; z1]) ++ a4 :: a5 :: a6 :: rest)
    by (rewrite <- app_assoc; reflexivity).
  rewrite setXYZ_chunk by (rewrite length_app; cbn [List.length]; lia).
  rewrite <- app_assoc. reflexivity.
Qed.

Lemma updateEdgeVertices_from : forall h es k ppre pold prest cpre cold crest,
  List.length ppre = (6 * k)%nat ->
  List.length pold = (6 * List.length es)%nat ->
  List.length cpre = (6 * k)%nat ->
  List.length cold = (6 * List.length es)%nat ->
  fold_left (updateEdgeVertex h) (combine (seq k (List.length es)) es)
            (ppre ++ pold ++ prest, cpre ++ cold ++ crest) =
  (ppre ++ flat_map (edgePositions h) es ++ prest,
   cpre ++ flat_map edgeColors es ++ crest).
Proof.
  intros h es. induction es as [|e es IH];
    intros k ppre pold prest cpre cold crest Lp Lpo Lc Lco;
    cbn [List.length seq combine fold_left flat_map] in *.
  - destruct pold; [|discriminate]. destruct cold; [|discriminate]. reflexivity.
  - do 6 (destruct pold as [|? pold]; [cbn [List.length] in Lpo; lia|]).
    do 6 (destruct cold as [|? cold]; [cbn [List.length] in Lco; lia|]).
    cbn [List.length] in Lpo, Lco.
    unfold updateEdgeVertex at 2. cbv zeta. cbn [Datatypes.app].
    rewrite !setXYZ_pair by assumption.
    rewrite !(app_assoc ppre), !(app_assoc cpre).
    rewrite IH by (rewrite ?length_app; cbn [List.length]; lia).
    unfold edgePositions, edgeColors. cbv zeta.
    rewrite <- !app_assoc. reflexivity.
Qed.

(** X26. On buffers of the size [createEdgeMesh] gave them, the redraw of
    [updateEdgeVertices] leaves exactly the buffers [createEdgeMesh] would
    build from the edges as they are now: six coordinates and six colour
    components for every edge, in the order of the edges. *)
Theorem updateEdgeVertices_rebuilds :
  forall h es positions colors,
    List.length positions = (6 * List.length es)%nat ->
    List.length colors = (6 * List.length es)%nat ->
    updateEdgeVertices h es (positions, colors) = createEdgeMesh h es.
Proof.
  intros h es positions colors Lp Lc.
  unfold updateEdgeVertices, createEdgeMesh, indexed.
  pose proof (updateEdgeVertices_from h es 0 [] positions [] [] colors []) as U.
  cbn [Datatypes.app] in U. rewrite !app_nil_r in U.
  apply U; try assumption; reflexivity.
Qed.

Lemma updateEdgeVertices_rebuilds_witness :
  updateEdgeVertices cornerHeap [cornerEdge1; cornerEdge2]
                     (repeat 0 12, repeat 1 12) =
  createEdgeMesh cornerHeap [cornerEdge1; cornerEdge2].
Proof.
  apply updateEdgeVertices_rebuilds; reflexivity.
Defined.

Lemma updateCellVertex_fold : forall pts vi pre old rest,
  List.length pre = (3 * vi)%nat ->
  List.length old = (3 * List.length pts)%nat ->
  fold_left updateCellVertex pts (pre ++ old ++ rest, vi) =
  (pre ++ flat_map (fun pt => [fst pt; snd pt; 0]) pts ++ rest,
   (vi + List.length pts)%nat).
Proof.
  induction pts as [|pt pts IH]; intros vi pre old rest Lp Lo;
    cbn [List.length fold_left flat_map] in *.
  - destruct old; [|discriminate]. rewrite Nat.add_0_r. reflexivity.
  - do 3 (destruct old as [|? old]; [cbn [List.length] in Lo; lia|]).
    cbn [List.length] in Lo.
    unfold updateCellVertex at 2. cbn [fst snd Datatypes.app].
    rewrite setXYZ_chunk by assumption.
    replace (pre ++ fst pt :: snd pt :: 0 :: old ++ rest)
      with ((pre ++ [fst pt; snd pt; 0]) ++ old ++ rest)
      by (rewrite <- app_assoc; reflexivity).
    rewrite IH by (rewrite ?length_app; cbn [List.length]; lia).
    rewrite <- app_assoc. f_equal. lia.
Qed.

Lemma updateCell_fold : forall cells st,
  fold_left updateCell cells st = fold_left updateCellVertex (drawnPoints cells) st.
Proof.
  induction cells as [|c cells IH]; intro st; [reflexivity|].
  cbn [fold_left]. unfold drawnPoints. cbn [flat_map]. fold (drawnPoints cells).
  rewrite fold_left_app, IH. unfold updateCell.
  destruct (polygon c) as [pts|]; [|reflexivity].
  destruct (Nat.ltb (List.length pts) 3); reflexivity.
Qed.

(** X27. [updateCellVertices] reads the polygons of the cells, which no
    step of the evolution writes: on a buffer of the size [createCellMesh]
    gave it, it leaves exactly the coordinates the mesh was created with,
    wherever the evolver has moved the endpoints of the edges. *)
Theorem updateCellVertices_rewrites_created_buffer :
  forall cells positions,
    List.length positions = List.length (cellVertices (createCellMesh cells)) ->
    updateCellVertices cells positions = cellVertices (createCellMesh cells).
Proof.
  intros cells positions L. unfold updateCellVertices, createCellMesh in *.
  destruct (addCellGeometry_fold cells (mkCellGeometry [] [] 0)) as [V _].
  cbn [cellVertices Datatypes.app] in V. rewrite V in *.
  rewrite updateCell_fold.
  pose proof (updateCellVertex_fold (drawnPoints cells) 0 [] positions []) as U.
  cbn [Datatypes.app] in U. rewrite !app_nil_r in U. rewrite U; [reflexivity | reflexivity |].
  rewrite L. apply length_flat_map_const. intro pt. reflexivity.
Qed.

Lemma updateCellVertices_rewrites_created_buffer_witness :
  updateCellVertices twoTriangles (repeat 0 18) =
  cellVertices (createCellMesh twoTriangles).
Proof.
  apply updateCellVertices_rewrites_created_buffer. reflexivity.
Defined.

(** ** VoronoiMesh: the cells *)

Lemma extractCellData_from : forall cellPolygon pts k j c,
  nth_error
    (flat_map (fun ip : nat * point =>
                 match cellPolygon (fst ip) with
                 | Some cellPoly => [mkCell (fst ip) (Some cellPoly) (snd ip)]
                 | None => []
                 end)
              (combine (seq k (List.length pts)) pts)) j = Some c ->
  (k + j <= cell_id c)%nat /\
  polygon c = cellPolygon (cell_id c) /\ polygon c <> None /\
  nth_error pts (cell_id c - k) = Some (center c) /\
  ((forall i, (k <= i < cell_id c)%nat -> cellPolygon i <> None) ->
   cell_id c = (k + j)%nat).
Proof.
  intros cellPolygon pts. induction pts as [|pt pts IH]; intros k j c H;
    cbn [List.length seq combine flat_map] in H.
  - destruct j; discriminate H.
  - cbn [fst snd] in H. destruct (cellPolygon k) as [poly|] eqn:P.
    + destruct j as [|j]; cbn [Datatypes.app nth_error] in H.
      * injection H as E. subst c. cbn [cell_id polygon center].
        rewrite P, Nat.sub_diag, Nat.add_0_r.
        repeat split; try reflexivity; try discriminate.
      * destruct (IH (S k) j c H) as (Le & Pc & Nc & Ct & All).
        split; [lia|]. split; [exact Pc|]. split; [exact Nc|]. split.
        { replace (cell_id c - k)%nat with (S (cell_id c - S k)) by lia.
          exact Ct. }
        intro A. rewrite All; [lia|]. intros i Hi. apply A. lia.
    + cbn [Datatypes.app] in H.
      destruct (IH (S k) j c H) as (Le & Pc & Nc & Ct & All).
      split; [lia|]. split; [exact Pc|]. split; [exact Nc|]. split.
      { replace (cell_id c - k)%nat with (S (cell_id c - S k)) by lia.
        exact Ct. }
      intro A. exfalso. apply (A k); [lia | exact P].
Qed.

(** X28. Every cell [extractCellData] keeps has the polygon the diagram
    gives for its id, and the seed point of that id as its center.  A cell
    stands in the list at a position at or before its id, and exactly at
    its id when the diagram has a polygon for every earlier point; when a
    polygon is missing, the later cells have ids larger than their
    positions. *)
Theorem extractCellData_positions :
  forall cellPolygon points j c,
    nth_error (extractCellData cellPolygon points) j = Some c ->
    (j <= cell_id c)%nat /\
    polygon c = cellPolygon (cell_id c) /\ polygon c <> None /\
    nth_error points (cell_id c) = Some (center c) /\
    ((forall i, (i < cell_id c)%nat -> cellPolygon i <> None) <->
     cell_id c = j).
Proof.
  intros cellPolygon points j c H. unfold extractCellData, indexed in H.
  destruct (extractCellData_from cellPolygon points 0 j c H)
    as (Le & Pc & Nc & Ct & All).
  rewrite Nat.sub_0_r in Ct. cbn [Nat.add] in Le, All.
  split; [exact Le|]. split; [exact Pc|]. split; [exact Nc|]. split; [exact Ct|].
  split.
  - intro A. apply All. intros i Hi. apply A. lia.
  - intros E i Hi.
    assert (G : forall pts k j c i,
               nth_error
                 (flat_map (fun ip : nat * point =>
                              match cellPolygon (fst ip) with
                              | Some cellPoly =>
                                  [mkCell (fst ip) (Some cellPoly) (snd ip)]
                              | None => []
                              end)
                           (combine (seq k (List.length pts)) pts)) j = Some c ->
               cell_id c = (k + j)%nat -> (k <= i < cell_id c)%nat ->
               cellPolygon i <> None).
    { clear. induction pts as [|pt pts IH]; intros k j c i H E Hi;
        cbn [List.length seq combine flat_map] in H.
      - destruct j; discriminate H.
      - cbn [fst snd] in H. destruct (cellPolygon k) as [poly|] eqn:P.
        + destruct j as [|j]; cbn [Datatypes.app nth_error] in H.
          * lia.
          * destruct (Nat.eq_dec i k) as [Ei|Ni]; [subst i; congruence|].
            apply (IH (S k) j c i H); lia.
        + cbn [Datatypes.app] in H.
          destruct (extractCellData_from cellPolygon pts (S k) j c H) as (Le' & _).
          lia. }
    apply (G points 0%nat j c i H); [cbn [Nat.add]; exact E | lia].
Qed.

Lemma extractCellData_positions_witness :
  nth_error [(0, 0); (1, 0); (2, 0)] 2 = Some (2, 0) /\
  (1 <= 2)%nat.
Proof.
  destruct (extractCellData_positions
              (fun i => if Nat.eqb i 1 then None else Some [(0, 0); (1, 0); (0, 1)])
              [(0, 0); (1, 0); (2, 0)] 1%nat
              (mkCell 2 (Some [(0, 0); (1, 0); (0, 1)]) (2, 0)) eq_refl)
    as (Le & _ & _ & Ct & _).
  split; [exact Ct | exact Le].
Defined.

(** ** VoronoiMesh: each edge once *)






(** ** EdgeAnalyzer: the angle at the shared vertex *)

Lemma pointsEqual_near : forall p q,
  - tolerance < x p - x q < tolerance ->
  - tolerance < y p - y q < tolerance ->
  pointsEqual p q tolerance = true.
Proof.
  intros p q Hx Hy. unfold pointsEqual.
  rewrite !Rltb_true; [reflexivity | |]; apply Rabs_def1; lra.
Qed.

Lemma pointsEqual_far : forall p q,
  x p - x q <= - tolerance \/ tolerance <= x p - x q ->
  pointsEqual p q tolerance = false.
Proof.
  intros p q H. unfold pointsEqual. rewrite Rltb_false; [reflexivity|].
  pose proof (RRle_abs (x p - x q)) as P.
  pose proof (RRle_abs (- (x p - x q))) as N. rewrite Rabs_Ropp in N.
  destruct H; lra.
Qed.

Lemma pointsEqual_sym : forall p q t, pointsEqual p q t = pointsEqual q p t.
Proof.
  intros p q t. unfold pointsEqual.
  rewrite (Rabs_minus_sym (x p)), (Rabs_minus_sym (y p)). reflexivity.
Qed.

(** [findSharedVertex] finds an endpoint of the first edge that lies within
    the tolerance of an endpoint of the second, and finds nothing only when
    there is none. *)
Lemma findSharedVertex_spec : forall h e1 e2,
  match findSharedVertex h e1 e2 with
  | Some sv =>
      exists b1 b2,
        sv = endpoint e1 b1 /\
        pointsEqual (read h (endpoint e1 b1)) (read h (endpoint e2 b2)) tolerance = true
  | None =>
      forall b1 b2,
        pointsEqual (read h (endpoint e1 b1)) (read h (endpoint e2 b2)) tolerance = false
  end.
Proof.
  intros h e1 e2. unfold findSharedVertex.
  destruct (pointsEqual (read h (start e1)) (read h (start e2)) tolerance) eqn:SS;
    [exists true, true; split; [reflexivity | exact SS]|].
  destruct (pointsEqual (read h (start e1)) (read h (end_ e2)) tolerance) eqn:SE;
    [exists true, false; split; [reflexivity | exact SE]|].
  destruct (pointsEqual (read h (end_ e1)) (read h (start e2)) tolerance) eqn:ES;
    [exists false, true; split; [reflexivity | exact ES]|].
  destruct (pointsEqual (read h (end_ e1)) (read h (end_ e2)) tolerance) eqn:EE;
    [exists false, false; split; [reflexivity | exact EE]|].
  intros [|] [|]; assumption.
Qed.

(** The direction goes from the endpoint at the shared vertex to the
    other endpoint, when the other endpoint is not within the tolerance of
    the shared vertex too. *)
Lemma getDirectionFromVertex_away : forall h e sv b,
  pointsEqual (read h (endpoint e b)) (read h sv) tolerance = true ->
  pointsEqual (read h (endpoint e (negb b))) (read h sv) tolerance = false ->
  getDirectionFromVertex h e sv =
  fromTo (read h (endpoint e b)) (read h (endpoint e (negb b))).
Proof.
  intros h e sv [|] Near Far; unfold getDirectionFromVertex, fromTo;
    cbn [endpoint negb] in *; [rewrite Near | rewrite Far]; reflexivity.
Qed.

Lemma currentLength_zero : forall h e,
  currentLength h e = 0 ->
  x (read h (end_ e)) = x (read h (start e)) /\
  y (read h (end_ e)) = y (read h (start e)).
Proof.
  intros h e Z. unfold currentLength in Z. cbv zeta in Z.
  set (dx := x (read h (end_ e)) - x (read h (start e))) in *.
  set (dy := y (read h (end_ e)) - y (read h (start e))) in *.
  pose proof (Rle_0_sqr dx) as Px. pose proof (Rle_0_sqr dy) as Py.
  unfold Rsqr in Px, Py.
  apply sqrt_eq_0 in Z; [|lra].
  assert (Zx : dx * dx = 0) by lra. assert (Zy : dy * dy = 0) by lra.
  apply Rsqr_0_uniq in Zx. apply Rsqr_0_uniq in Zy. unfold dx, dy in *.
  split; lra.
Qed.

Lemma direction_not_zero : forall h e sv b,
  pointsEqual (read h (endpoint e b)) (read h sv) tolerance = true ->
  pointsEqual (read h (endpoint e (negb b))) (read h sv) tolerance = false ->
  magnitude (getDirectionFromVertex h e sv) <> 0.
Proof.
  intros h e sv b Near Far Z. rewrite magnitude_direction in Z.
  apply currentLength_zero in Z. destruct Z as [Zx Zy].
  assert (E : pointsEqual (read h (endpoint e (negb b))) (read h sv) tolerance =
              pointsEqual (read h (endpoint e b)) (read h sv) tolerance).
  { unfold pointsEqual. destruct b; cbn [endpoint negb];
      rewrite ?Zx, ?Zy; reflexivity. }
  congruence.
Qed.

(** X29. [findSharedVertex] returns an endpoint of the first edge that lies
    within the tolerance of an endpoint of the second, and nothing only when
    no two endpoints are that close; the angle is then 180.  When the far
    endpoint of each edge is not within the tolerance of the shared vertex
    as well, the two directions go from the endpoint at the shared vertex
    to the far endpoint, and the angle is the [acos] of their clamped
    cosine, in degrees.  A direction of length zero gives the angle 0.  An
    angle is acute exactly when it is below 90: directions (1,0) and (0,1)
    give 90, which is not acute; (1,0) and (1,1)/sqrt 2 give 45, which is
    acute; (1,0) and (-1,0) give 180. *)
Theorem angle_at_shared_vertex :
  forall h e1 e2,
    (findSharedVertex h e1 e2 = None <->
     forall b1 b2,
       pointsEqual (read h (endpoint e1 b1)) (read h (endpoint e2 b2)) tolerance =
       false) /\
    (findSharedVertex h e1 e2 = None ->
     calculateAngleBetweenEdges h e1 e2 = 180) /\
    (forall sv,
        findSharedVertex h e1 e2 = Some sv ->
        exists b1 b2,
          sv = endpoint e1 b1 /\
          pointsEqual (read h (endpoint e2 b2)) (read h sv) tolerance = true /\
          (pointsEqual (read h (endpoint e1 (negb b1))) (read h sv) tolerance = false ->
           pointsEqual (read h (endpoint e2 (negb b2))) (read h sv) tolerance = false ->
           let d1 := fromTo (read h sv) (read h (endpoint e1 (negb b1))) in
           let d2 := fromTo (read h (endpoint e2 b2))
                            (read h (endpoint e2 (negb b2))) in
           getDirectionFromVertex h e1 sv = d1 /\
           getDirectionFromVertex h e2 sv = d2 /\
           calculateAngleBetweenEdges h e1 e2 = spec_angle d1 d2)) /\
    (forall sv,
        findSharedVertex h e1 e2 = Some sv ->
        let d1 := getDirectionFromVertex h e1 sv in
        let d2 := getDirectionFromVertex h e2 sv in
        (magnitude d1 = 0 \/ magnitude d2 = 0 ->
         calculateAngleBetweenEdges h e1 e2 = 0) /\
        (magnitude d1 <> 0 -> magnitude d2 <> 0 ->
         calculateAngleBetweenEdges h e1 e2 = spec_angle d1 d2) /\
        (d1 = mkVertex 1 0 -> d2 = mkVertex 0 1 ->
         calculateAngleBetweenEdges h e1 e2 = 90 /\
         isAcuteAngle (calculateAngleBetweenEdges h e1 e2) = false) /\
        (d1 = mkVertex 1 0 -> d2 = mkVertex (/ sqrt 2) (/ sqrt 2) ->
         calculateAngleBetweenEdges h e1 e2 = 45 /\
         isAcuteAngle (calculateAngleBetweenEdges h e1 e2) = true) /\
        (d1 = mkVertex 1 0 -> d2 = mkVertex (-1) 0 ->
         calculateAngleBetweenEdges h e1 e2 = 180 /\
         isAcuteAngle (calculateAngleBetweenEdges h e1 e2) = false)) /\
    (forall a, isAcuteAngle a = true <-> a < 90).
Proof.
  intros h e1 e2. pose proof (findSharedVertex_spec h e1 e2) as Spec.
  split; [|split; [|split; [|split]]].
  - destruct (findSharedVertex h e1 e2) as [sv|].
    + destruct Spec as (b1 & b2 & _ & T). split; [discriminate|].
      intro F. rewrite (F b1 b2) in T. discriminate T.
    + split; [intros _; exact Spec | reflexivity].
  - intro H. unfold calculateAngleBetweenEdges. rewrite H. reflexivity.
  - intros sv H. rewrite H in Spec. destruct Spec as (b1 & b2 & Esv & T).
    exists b1, b2. split; [exact Esv|].
    assert (Near2 : pointsEqual (read h (endpoint e2 b2)) (read h sv) tolerance = true).
    { rewrite pointsEqual_sym, Esv. exact T. }
    assert (Near1 : pointsEqual (read h (endpoint e1 b1)) (read h sv) tolerance = true).
    { rewrite Esv. apply pointsEqual_same; reflexivity. }
    split; [exact Near2|]. intros Far1 Far2 d1 d2.
    pose proof (getDirectionFromVertex_away h e1 sv b1 Near1 Far1) as D1.
    pose proof (getDirectionFromVertex_away h e2 sv b2 Near2 Far2) as D2.
    rewrite <- Esv in D1. fold d1 in D1. fold d2 in D2.
    split; [exact D1|]. split; [exact D2|].
    rewrite (calculateAngle_shared h e1 e2 sv H).
    rewrite (Reqb_false _ _ (direction_not_zero h e1 sv b1 Near1 Far1)).
    rewrite (Reqb_false _ _ (direction_not_zero h e2 sv b2 Near2 Far2)).
    cbn [orb]. rewrite D1, D2. reflexivity.
  - intros sv H d1 d2. pose proof (calculateAngle_shared h e1 e2 sv H) as A.
    fold d1 d2 in A. split.
    { intros [Z|Z]; rewrite A.
      - rewrite (Reqb_true _ _ Z). reflexivity.
      - rewrite (Reqb_true _ _ Z). rewrite orb_true_r. reflexivity. }
    split.
    { intros N1 N2. rewrite A.
      rewrite (Reqb_false _ _ N1), (Reqb_false _ _ N2). reflexivity. }
    assert (U : forall d, magnitude d = 1 -> Reqb (magnitude d) 0 = false).
    { intros d M. apply Reqb_false. rewrite M. lra. }
    split; [|split]; intros D1 D2; rewrite A, D1, D2.
    + rewrite (U _ magnitude_unit_x).
      assert (M : magnitude (mkVertex 0 1) = 1).
      { unfold magnitude; simpl. replace (0 * 0 + 1 * 1) with 1 by lra. apply sqrt_1. }
      rewrite (U _ M). simpl. rewrite spec_angle_right.
      split; [reflexivity | apply Rltb_false; lra].
    + rewrite (U _ magnitude_unit_x), (U _ magnitude_diagonal). simpl.
      rewrite spec_angle_diagonal.
      split; [reflexivity | apply Rltb_true; lra].
    + rewrite (U _ magnitude_unit_x).
      assert (M : magnitude (mkVertex (-1) 0) = 1).
      { unfold magnitude; simpl. replace (-1 * -1 + 0 * 0) with 1 by lra. apply sqrt_1. }
      rewrite (U _ M). simpl. rewrite spec_angle_straight.
      split; [reflexivity | apply Rltb_false; lra].
  - intro a. unfold isAcuteAngle. apply Rltb_spec.
Qed.

Lemma pointsEqual_unit_x :
  pointsEqual (mkVertex 1 0) (mkVertex 0 0) tolerance = false.
Proof. apply pointsEqual_far. right. cbn [x]. unfold tolerance. lra. Qed.

Lemma pointsEqual_unit_y :
  pointsEqual (mkVertex 0 1) (mkVertex 0 0) tolerance = false.
Proof.
  unfold pointsEqual. cbn [x y]. rewrite Bool.andb_false_iff. right.
  apply Rltb_false. unfold Rminus. rewrite Ropp_0, Rplus_0_r, Rabs_R1.
  unfold tolerance. lra.
Qed.

Lemma angle_at_shared_vertex_witness :
  calculateAngleBetweenEdges cornerHeap cornerEdge1 cornerEdge2 =
  spec_angle (mkVertex (1 - 0) (0 - 0)) (mkVertex (0 - 0) (1 - 0)).
Proof.
  destruct (angle_at_shared_vertex cornerHeap cornerEdge1 cornerEdge2)
    as (_ & _ & Away & _).
  destruct (Away 0%nat cornerEdges_shared) as ([|] & [|] & Esv & Near & A);
    try discriminate Esv.
  - destruct A as (_ & _ & A); [exact pointsEqual_unit_x | exact pointsEqual_unit_y|].
    exact A.
  - exfalso. cbn in Near. change (pointsEqual (mkVertex 0 1) (mkVertex 0 0) tolerance = true) in Near.
    rewrite pointsEqual_unit_y in Near. discriminate Near.
Defined.

(** ** EdgeAnalyzer: an edge shorter than the tolerance *)

Lemma magnitude_along_x : forall a, 0 <= a -> magnitude (mkVertex a 0) = a.
Proof.
  intros a P. unfold magnitude. cbn [x y].
  replace (a * a + 0 * 0) with (a * a) by ring. apply sqrt_square. exact P.
Qed.

Lemma magnitude_against_x : forall a, a <= 0 -> magnitude (mkVertex a 0) = - a.
Proof.
  intros a P. unfold magnitude. cbn [x y].
  replace (a * a + 0 * 0) with (- a * - a) by ring. apply sqrt_square. lra.
Qed.

Lemma spec_angle_same_direction : forall a b,
  0 < a -> 0 < b -> spec_angle (mkVertex a 0) (mkVertex b 0) = 0.
Proof.
  intros a b Pa Pb. unfold spec_angle.
  rewrite !magnitude_along_x by lra. unfold dot, clamp. cbn [x y].
  replace ((a * b + 0 * 0) / (a * b)) with 1 by (field; lra).
  rewrite Rmin_left by lra. rewrite Rmax_right by lra.
  rewrite acos_1. lra.
Qed.

Lemma spec_angle_opposite_direction : forall a b,
  a < 0 -> 0 < b -> spec_angle (mkVertex a 0) (mkVertex b 0) = 180.
Proof.
  intros a b Na Pb. unfold spec_angle.
  rewrite magnitude_against_x by lra. rewrite magnitude_along_x by lra.
  unfold dot, clamp. cbn [x y].
  replace ((a * b + 0 * 0) / (- a * b)) with (- (1)) by (field; lra).
  rewrite Rmin_right by lra. rewrite Rmax_left by lra.
  replace (acos (-1)) with (acos (- (1))) by (f_equal; lra).
  rewrite acos_opp, acos_1. pose proof PI_RGT_0.
  replace (PI - 0) with (PI / 1) by lra. rewrite degrees_of_half_turn. lra.
Qed.

(** C6 fails on the code.  The short edge runs from (0,0) to (0.0000009,0)
    and the long edge goes on from (0.0000015,0) to (1,0).  The shared
    vertex is the end of the short edge, the only endpoint of it within the
    tolerance of an endpoint of the long edge.  [getDirectionFromVertex]
    asks only whether the start of an edge is at the shared vertex, and the
    start of the short edge is within the tolerance of its own end: the
    direction of the short edge is taken from its start to its end, towards
    the shared vertex.  The angle comes out as 0, an acute connection; the
    directions that point away from the shared vertex give 180. *)
Theorem short_edge_measured_toward_shared_vertex :
  let V := read shortHeap (end_ shortEdge) in
  let away1 := fromTo V (read shortHeap (start shortEdge)) in
  let away2 := fromTo (read shortHeap (start longEdge))
                      (read shortHeap (end_ longEdge)) in
  findSharedVertex shortHeap shortEdge longEdge = Some (end_ shortEdge) /\
  pointsEqual (read shortHeap (start longEdge)) V tolerance = true /\
  pointsEqual (read shortHeap (start shortEdge)) (read shortHeap (start longEdge))
              tolerance = false /\
  getDirectionFromVertex shortHeap shortEdge (end_ shortEdge) =
  fromTo (read shortHeap (start shortEdge)) V /\
  getDirectionFromVertex shortHeap longEdge (end_ shortEdge) = away2 /\
  calculateAngleBetweenEdges shortHeap shortEdge longEdge = 0 /\
  isAcuteAngle (calculateAngleBetweenEdges shortHeap shortEdge longEdge) = true /\
  spec_angle away1 away2 = 180 /\
  calculateAngleBetweenEdges shortHeap shortEdge longEdge <> spec_angle away1 away2.
Proof.
  cbv zeta.
  assert (R0 : read shortHeap (start shortEdge) = mkVertex 0 0) by reflexivity.
  assert (R1 : read shortHeap (end_ shortEdge) = mkVertex (9 / 10000000) 0)
    by reflexivity.
  assert (R2 : read shortHeap (start longEdge) = mkVertex (15 / 10000000) 0)
    by reflexivity.
  assert (R3 : read shortHeap (end_ longEdge) = mkVertex 1 0) by reflexivity.
  assert (SS : pointsEqual (mkVertex 0 0) (mkVertex (15 / 10000000) 0) tolerance = false).
  { apply pointsEqual_far. left. cbn [x]. unfold tolerance. lra. }
  assert (SE : pointsEqual (mkVertex 0 0) (mkVertex 1 0) tolerance = false).
  { apply pointsEqual_far. left. cbn [x]. unfold tolerance. lra. }
  assert (ES : pointsEqual (mkVertex (9 / 10000000) 0) (mkVertex (15 / 10000000) 0)
                           tolerance = true).
  { apply pointsEqual_near; cbn [x y]; unfold tolerance; lra. }
  assert (S1 : pointsEqual (mkVertex 0 0) (mkVertex (9 / 10000000) 0) tolerance = true).
  { apply pointsEqual_near; cbn [x y]; unfold tolerance; lra. }
  assert (S2 : pointsEqual (mkVertex (15 / 10000000) 0) (mkVertex (9 / 10000000) 0)
                           tolerance = true).
  { apply pointsEqual_near; cbn [x y]; unfold tolerance; lra. }
  assert (F : findSharedVertex shortHeap shortEdge longEdge = Some (end_ shortEdge)).
  { unfold findSharedVertex. rewrite R0, R1, R2, R3, SS, SE, ES. reflexivity. }
  assert (D1 : getDirectionFromVertex shortHeap shortEdge (end_ shortEdge) =
               mkVertex (9 / 10000000) 0).
  { unfold getDirectionFromVertex. rewrite R0, R1, S1. cbn [x y]. f_equal; lra. }
  assert (D2 : getDirectionFromVertex shortHeap longEdge (end_ shortEdge) =
               mkVertex (1 - 15 / 10000000) 0).
  { unfold getDirectionFromVertex. rewrite R1, R2, R3, S2. cbn [x y]. f_equal; lra. }
  assert (A : calculateAngleBetweenEdges shortHeap shortEdge longEdge = 0).
  { rewrite (calculateAngle_shared _ _ _ _ F), D1, D2.
    rewrite !magnitude_along_x by lra.
    rewrite !Reqb_false by lra. cbn [orb].
    apply spec_angle_same_direction; lra. }
  assert (S : spec_angle (fromTo (mkVertex (9 / 10000000) 0) (mkVertex 0 0))
                         (fromTo (mkVertex (15 / 10000000) 0) (mkVertex 1 0)) = 180).
  { unfold fromTo. cbn [x y].
    replace (0 - 0) with 0 by lra.
    apply spec_angle_opposite_direction; lra. }
  rewrite R0, R1, R2, R3.
  split; [exact F|]. split; [exact S2|]. split; [exact SS|].
  split; [rewrite D1; unfold fromTo; cbn [x y]; f_equal; lra|].
  split; [rewrite D2; unfold fromTo; cbn [x y]; f_equal; lra|].
  split; [exact A|]. split; [rewrite A; apply Rltb_true; lra|].
  split; [exact S|]. rewrite A, S. lra.
Qed.
